(** * UK wind / weather impact: the analysis core

    A shallow embedding of [wind_impact_analyzer.py] (classifier, event
    extractor, status aggregator) and of [weather_front_tracker.py]
    (pressure systems, fronts, symbols, motion and the grid), with the
    properties stated about them.

    Numbers.  Every finite Python float is a rational, and the comparisons
    of the source are exact on them, so numbers are rationals [Q].  In the
    analyzer the arithmetic ([-], [/], [** 3]) only yields values that are
    reported, and is the exact one.  In the front tracker the results of
    the arithmetic are compared with thresholds, so there every operation
    of the source rounds its exact result to a double: see [Doubles].
    The numbers are finite (no nan, no infinity), and no operation
    overflows.

    Strings.  Status labels, colours, issue types and severities are the
    Python string literals of the source.  The formatted descriptions
    (f-strings) are kept as a small syntax tree holding the numbers that
    the text is made from. *)

From Stdlib Require Import QArith Qabs ZArith List Bool Lia Lqa String.
From Stdlib Require Import Sorting.Sorted Sorting.Permutation.
From Stdlib Require Import Qround Qreduction Qpower DecimalString.
Import ListNotations.

Open Scope Q_scope.

(** ** Comparisons of the source on rationals *)

Definition Qleb (x y : Q) : bool := Qle_bool x y.
Definition Qltb (x y : Q) : bool := negb (Qle_bool y x).

(** * Double-precision arithmetic *)

Module Doubles.

(** What the arithmetic of the source does to an exact result.  [fl] is
    the rounding of IEEE 754: [x - y] on two doubles is [fl (x - y)], and
    likewise for [+], [*] and [/].  [pow] is [x ** y] on doubles, which
    Python hands to the C library. *)
Record FloatOps : Type := mkFloatOps {
  fl : Q -> Q;
  pow : Q -> Q -> Q
}.

Section Arithmetic.
Variable ops : FloatOps.

Definition fadd (x y : Q) : Q := fl ops (x + y).
Definition fsub (x y : Q) : Q := fl ops (x - y).
Definition fmul (x y : Q) : Q := fl ops (x * y).
Definition fdiv (x y : Q) : Q := fl ops (x / y).

End Arithmetic.

(** The integer part of a quotient, towards zero, and C's [fmod], which
    is exact: the remainder has the sign of [x]. *)
Definition Qtrunc (x : Q) : Z := if Qle_bool 0 x then Qfloor x else Qceiling x.

Definition fmod (x m : Q) : Q := x - m * inject_Z (Qtrunc (x / m)).

(** Python's [x % m] on floats: [fmod], and when the remainder is not zero
    and its sign is not that of the modulus, the modulus is added to it,
    which rounds. *)
Definition py_mod (ops : FloatOps) (x m : Q) : Q :=
  let rem := fmod x m in
  if negb (Qeq_bool rem 0) && xorb (Qltb m 0) (Qltb rem 0)
  then fadd ops rem m
  else rem.

(** What is used of IEEE 754 and of the C library: rounding depends on the
    value only, is symmetric about zero, keeps the order, leaves the
    integers up to 2^53 as they are and, from the smallest normal number
    2^-1022 on, changes a value by at most one part in 2^53; [pow]
    depends on the value only, [pow(0, 2)] is 0, [pow(1, y)] is 1 and
    [pow(x, 0.5)] is never negative. *)
Record ieee (ops : FloatOps) : Prop := mk_ieee {
  fl_compat : forall x y, x == y -> fl ops x == fl ops y;
  fl_opp : forall x, fl ops (- x) == - fl ops x;
  fl_mono : forall x y, x <= y -> fl ops x <= fl ops y;
  fl_int : forall z : Z, (Z.abs z <= 2 ^ 53)%Z ->
                         fl ops (inject_Z z) == inject_Z z;
  fl_error : forall x, 2 ^ (-1022) <= x ->
                       x * (1 - 2 ^ (-53)) <= fl ops x /\
                       fl ops x <= x * (1 + 2 ^ (-53));
  pow_compat : forall x y z, x == y -> pow ops x z == pow ops y z;
  pow_zero_2 : pow ops 0 2 == 0;
  pow_one_2 : pow ops 1 2 == 1;
  pow_one_half : pow ops 1 (1 # 2) == 1;
  pow_half_nonneg : forall x, 0 <= pow ops x (1 # 2)
}.

(** Halving is exact: the half of an integer of at most 53 bits is a
    double. *)
Definition exact_halves (ops : FloatOps) : Prop :=
  forall z : Z, (Z.abs z <= 2 ^ 53)%Z ->
    fl ops (inject_Z z * (1 # 2)) == inject_Z z * (1 # 2).

(** ** The binary64 format

    Rounding to nearest, ties to even, with 53 bits of precision and the
    gradual underflow of the format; there is no overflow, so the values
    are those of a double as long as they stay below 2^1024. *)

(** The nearest integer of a non-negative rational, an even one at a
    tie. *)
Definition round_half_even (q : Q) : Z :=
  let f := Qfloor q in
  match Qcompare (q - inject_Z f) (1 # 2) with
  | Lt => f
  | Gt => (f + 1)%Z
  | Eq => if Z.even f then f else (f + 1)%Z
  end.

(** The binary exponent of a positive rational: 2^e <= x < 2^(e+1). *)
Definition exponent (x : Q) : Z :=
  let e0 := (Z.log2 (Qnum x) - Z.log2 (Zpos (Qden x)))%Z in
  if Qle_bool (2 ^ e0) x then e0 else (e0 - 1)%Z.

Definition round_pos (x : Q) : Q :=
  let e := Z.max (exponent x) (-1022) in
  let ulp := 2 ^ (e - 52) in
  inject_Z (round_half_even (x / ulp)) * ulp.

Definition binary64 (x : Q) : Q :=
  let x := Qred x in
  match Qcompare x 0 with
  | Eq => 0
  | Gt => Qred (round_pos x)
  | Lt => Qred (- round_pos (- x))
  end.

(** The double nearest to the square root of a rational: the integer
    square root of the value scaled by 4^k has more than 53 bits, and one
    more bit tells whether the root is exact. *)
Definition sqrt64 (x : Q) : Q :=
  let x := Qred x in
  match Qcompare x 0 with
  | Gt =>
      let n := Qnum x in
      let d := Zpos (Qden x) in
      let k := (60 + Z.log2 d)%Z in
      let s := (n * 4 ^ k)%Z in
      let t := Z.sqrt (s / d) in
      let sticky := if (t * t * d =? s)%Z then 0%Z else 1%Z in
      binary64 (inject_Z (2 * t + sticky) / inject_Z (2 ^ (k + 1)))
  | _ => 0
  end.

(** [x ** 2] and [x ** 0.5], the two powers that the source takes, as the
    correctly rounded square and square root.  The C library returns
    these wherever its standard fixes the result ([pow(1, y)] is 1 and
    [pow(0, 2)] is 0); elsewhere its result may differ from them in the
    last place.  The source takes no other power, and 1 stands for them. *)
Definition pow64 (x y : Q) : Q :=
  if Qeq_bool y 2 then binary64 (x * x)
  else if Qeq_bool y (1 # 2) then sqrt64 x
  else 1.

Definition binary64_ops : FloatOps := {| fl := binary64; pow := pow64 |}.

(** The double that a decimal literal of the source denotes. *)
Definition literal (x : Q) : Q := binary64 x.

End Doubles.

(** * Wind impact analyzer *)

Module WindImpactAnalyzer.

(** Typical offshore wind turbine operational thresholds. *)
Definition CUT_IN_SPEED : Q := 35 # 10.
Definition RATED_SPEED : Q := 125 # 10.
Definition CUT_OUT_SPEED : Q := 25.
Definition ICING_TEMP : Q := 0.
Definition ICING_HUMIDITY : Q := 80.

(** The weather dict read by the analyzer.  [timestamp] is a [datetime],
    kept as microseconds since an epoch (the resolution of [datetime]). *)
Record Weather : Type := mkWeather {
  timestamp : Z;
  wind_speed_ms : Q;
  wind_gust_ms : Q;
  temperature_c : Q;
  humidity_pct : Q
}.

(** What the f-string descriptions are built from. *)
Inductive Description : Type :=
| HighWinds (wind_speed wind_gust : Q)
| LowWind (wind_speed : Q)
| BelowRated (wind_speed capacity_factor : Q)
| IcingRisk (temp humidity : Q)
| WithETA (description : Description) (eta_hours : Q).

(** An issue dict: the three keys every issue has, and the numeric keys
    that depend on the kind of issue, in insertion order. *)
Record Issue : Type := mkIssue {
  i_type : string;
  i_severity : string;
  i_description : Description;
  i_values : list (string * Q)
}.

(** The status dict built by [analyze_current_conditions]. *)
Record Status : Type := mkStatus {
  s_timestamp : Z;
  operational : bool;
  capacity_factor : Q;
  status : string;
  color : string;
  issues : list Issue
}.

(** [_estimate_capacity_factor] *)
Definition _estimate_capacity_factor (wind_speed : Q) : Q :=
  if Qltb wind_speed CUT_IN_SPEED then 0
  else if Qleb RATED_SPEED wind_speed then 1
  else
    let normalized :=
      (wind_speed - CUT_IN_SPEED) / (RATED_SPEED - CUT_IN_SPEED) in
    normalized ^ 3.

Definition cut_out_issue (wind_speed wind_gust : Q) : Issue :=
  {| i_type := "cut_out"; i_severity := "critical";
     i_description := HighWinds wind_speed wind_gust;
     i_values := [("wind_speed"%string, wind_speed)] |}.

Definition cut_in_issue (wind_speed : Q) : Issue :=
  {| i_type := "cut_in"; i_severity := "low";
     i_description := LowWind wind_speed;
     i_values := [("wind_speed"%string, wind_speed)] |}.

Definition sub_optimal_issue (wind_speed capacity_factor : Q) : Issue :=
  {| i_type := "sub_optimal"; i_severity := "low";
     i_description := BelowRated wind_speed capacity_factor;
     i_values := [("wind_speed"%string, wind_speed);
                  ("capacity_factor"%string, capacity_factor)] |}.

Definition icing_issue (temp humidity : Q) : Issue :=
  {| i_type := "icing"; i_severity := "medium";
     i_description := IcingRisk temp humidity;
     i_values := [("temperature"%string, temp);
                  ("humidity"%string, humidity)] |}.

(** The first [if / elif / elif] of [analyze_current_conditions]: the
    wind band, applied to the initial status dict. *)
Definition wind_band (wind_speed wind_gust : Q) (status0 : Status) : Status :=
  if Qleb CUT_OUT_SPEED wind_gust || Qleb CUT_OUT_SPEED wind_speed then
    {| s_timestamp := s_timestamp status0;
       operational := false;
       capacity_factor := 0;
       status := "shutdown";
       color := "red";
       issues := issues status0 ++ [cut_out_issue wind_speed wind_gust] |}
  else if Qltb wind_speed CUT_IN_SPEED then
    {| s_timestamp := s_timestamp status0;
       operational := true;
       capacity_factor := 0;
       status := "idle";
       color := "yellow";
       issues := issues status0 ++ [cut_in_issue wind_speed] |}
  else if Qltb wind_speed RATED_SPEED then
    let capacity_factor' := _estimate_capacity_factor wind_speed in
    {| s_timestamp := s_timestamp status0;
       operational := operational status0;
       capacity_factor := capacity_factor';
       status := "sub_optimal";
       color := "yellow";
       issues := issues status0
                 ++ [sub_optimal_issue wind_speed capacity_factor'] |}
  else status0.

(** The second [if] of [analyze_current_conditions]: the icing check. *)
Definition icing_check (temp humidity : Q) (status1 : Status) : Status :=
  if Qleb temp ICING_TEMP && Qleb ICING_HUMIDITY humidity then
    let status2 :=
      {| s_timestamp := s_timestamp status1;
         operational := operational status1;
         capacity_factor := capacity_factor status1;
         status := status status1;
         color := color status1;
         issues := issues status1 ++ [icing_issue temp humidity] |} in
    if String.eqb (color status2) "green" then
      {| s_timestamp := s_timestamp status2;
         operational := operational status2;
         capacity_factor := capacity_factor status2;
         status := "icing_risk";
         color := "orange";
         issues := issues status2 |}
    else status2
  else status1.

(** [analyze_current_conditions] *)
Definition analyze_current_conditions (weather : Weather) : Status :=
  let wind_speed := wind_speed_ms weather in
  let wind_gust := wind_gust_ms weather in
  let temp := temperature_c weather in
  let humidity := humidity_pct weather in
  let status0 :=
    {| s_timestamp := timestamp weather;
       operational := true;
       capacity_factor := 1;
       status := "normal";
       color := "green";
       issues := [] |} in
  icing_check temp humidity (wind_band wind_speed wind_gust status0).

(** [timedelta.total_seconds()] of a difference of two datetimes. *)
Definition total_seconds (td : Z) : Q := inject_Z td / 1000000.

(** [max(0, eta)]: Python returns the second argument only when it is
    strictly greater than the first. *)
Definition max0 (eta : Q) : Q := if Qltb 0 eta then eta else 0.

(** An impact event dict of [analyze_forecast]. *)
Record Event : Type := mkEvent {
  e_type : string;
  e_severity : string;
  start_time : Z;
  end_time : option Z;
  eta_hours : Q;
  duration_hours : option Q;
  e_description : Description;
  e_status : string
}.

(** The loop variables [event_start], [event_type], [event_severity] and
    [event_description].  They are read only while [in_event] is true and
    are all assigned when it becomes true, so the flag and the four
    variables are one optional record: [Some] is [in_event = True]. *)
Record OpenEvent : Type := mkOpenEvent {
  event_start : Z;
  event_type : string;
  event_severity : string;
  event_description : Description
}.

Record LoopState : Type := mkLoopState {
  events : list Event;
  in_event : option OpenEvent
}.

(** The dict appended when an event ends inside the forecast window. *)
Definition ended_event (current_time : Z) (o : OpenEvent) (hour : Weather)
  : Event :=
  let eta := total_seconds (event_start o - current_time) / 3600 in
  let duration := total_seconds (timestamp hour - event_start o) / 3600 in
  {| e_type := event_type o;
     e_severity := event_severity o;
     start_time := event_start o;
     end_time := Some (timestamp hour);
     eta_hours := max0 eta;
     duration_hours := Some duration;
     e_description := event_description o;
     e_status := if Qltb 0 eta then "upcoming" else "current" |}.

(** The dict appended for an event that extends beyond the forecast. *)
Definition open_ended_event (current_time : Z) (o : OpenEvent) : Event :=
  let eta := total_seconds (event_start o - current_time) / 3600 in
  {| e_type := event_type o;
     e_severity := event_severity o;
     start_time := event_start o;
     end_time := None;
     eta_hours := max0 eta;
     duration_hours := None;
     e_description := event_description o;
     e_status := if Qltb 0 eta then "upcoming" else "current" |}.

(** One iteration of [for hour in forecast]. *)
Definition forecast_step (current_time : Z) (st : LoopState) (hour : Weather)
  : LoopState :=
  let hour_status := analyze_current_conditions hour in
  match in_event st, issues hour_status with
  | None, first :: _ =>
      (* start of impact event *)
      {| events := events st;
         in_event := Some {| event_start := timestamp hour;
                             event_type := i_type first;
                             event_severity := i_severity first;
                             event_description := i_description first |} |}
  | Some o, [] =>
      (* end of impact event *)
      {| events := events st ++ [ended_event current_time o hour];
         in_event := None |}
  | _, _ => st
  end.

(** [analyze_forecast]; the reference time is an explicit argument (its
    default reads the clock). *)
Definition analyze_forecast (forecast : list Weather) (current_time : Z)
  : list Event :=
  let st := fold_left (forecast_step current_time) forecast
                      {| events := []; in_event := None |} in
  match in_event st with
  | Some o => events st ++ [open_ended_event current_time o]
  | None => events st
  end.

(** The dict returned by [get_overall_status]. *)
Record Overall : Type := mkOverall {
  current : Status;
  upcoming_events : list Event;
  priority_color : string;
  priority_issue : option Issue
}.

(** The three-key issue dict built from an event. *)
Definition event_issue (event : Event) : Issue :=
  {| i_type := e_type event;
     i_severity := e_severity event;
     i_description := WithETA (e_description event) (eta_hours event);
     i_values := [] |}.

Definition set_priority (overall : Overall) (c : string) (event : Event)
  : Overall :=
  {| current := current overall;
     upcoming_events := upcoming_events overall;
     priority_color := c;
     priority_issue := Some (event_issue event) |}.

(** [for event in events] of [get_overall_status], with its [break]. *)
Fixpoint scan_events (evs : list Event) (overall : Overall) : Overall :=
  match evs with
  | [] => overall
  | event :: rest =>
      if String.eqb (e_severity event) "critical"
         && Qltb (eta_hours event) 24 then
        set_priority overall "red" event (* break *)
      else if String.eqb (e_severity event) "medium"
              && Qltb (eta_hours event) 12 then
        if negb (String.eqb (priority_color overall) "red") then
          scan_events rest (set_priority overall "orange" event)
        else scan_events rest overall
      else scan_events rest overall
  end.

(** [get_overall_status] *)
Definition get_overall_status (current_status : Status) (evs : list Event)
  : Overall :=
  let overall :=
    {| current := current_status;
       upcoming_events := evs;
       priority_color := color current_status;
       priority_issue := match issues current_status with
                         | first :: _ => Some first
                         | [] => None
                         end |} in
  scan_events evs overall.

End WindImpactAnalyzer.

(** * Weather front tracker *)

Module WeatherFrontTracker.
Import Doubles.

(** The [hourly] block of the weather service, stored under
    ['hourly_forecast']. *)
Record Hourly : Type := mkHourly {
  h_time : list string;
  h_temperature_2m : list Q;
  h_pressure_msl : list Q;
  h_wind_speed_10m : list Q;
  h_wind_direction_10m : list Q
}.

(** A grid point dict of [get_grid_weather].  The numbers are doubles;
    where the weather service sends an integer, Python computes with it
    exactly, as the rounding does on the integers up to 2^53. *)
Record GridPoint : Type := mkGridPoint {
  lat : Q;
  lon : Q;
  temperature : Q;
  pressure : Q;
  pressure_trend : Q;
  wind_speed : Q;
  wind_direction : Q;
  weather_code : Z;
  hourly_forecast : Hourly
}.

(** Python's [==] on lists, elementwise. *)
Fixpoint list_eqb {A : Type} (eqb : A -> A -> bool) (l1 l2 : list A) : bool :=
  match l1, l2 with
  | [], [] => true
  | x :: l1', y :: l2' => eqb x y && list_eqb eqb l1' l2'
  | _, _ => false
  end.

Definition hourly_eqb (h1 h2 : Hourly) : bool :=
  list_eqb String.eqb (h_time h1) (h_time h2)
  && list_eqb Qeq_bool (h_temperature_2m h1) (h_temperature_2m h2)
  && list_eqb Qeq_bool (h_pressure_msl h1) (h_pressure_msl h2)
  && list_eqb Qeq_bool (h_wind_speed_10m h1) (h_wind_speed_10m h2)
  && list_eqb Qeq_bool (h_wind_direction_10m h1) (h_wind_direction_10m h2).

(** Python's [==] on two grid point dicts: the same value under every
    key (numbers compared as numbers). *)
Definition gridpoint_eqb (p q : GridPoint) : bool :=
  Qeq_bool (lat p) (lat q)
  && Qeq_bool (lon p) (lon q)
  && Qeq_bool (temperature p) (temperature q)
  && Qeq_bool (pressure p) (pressure q)
  && Qeq_bool (pressure_trend p) (pressure_trend q)
  && Qeq_bool (wind_speed p) (wind_speed q)
  && Qeq_bool (wind_direction p) (wind_direction q)
  && Z.eqb (weather_code p) (weather_code q)
  && hourly_eqb (hourly_forecast p) (hourly_forecast q).

(** A pressure system dict. *)
Record PressureSystem : Type := mkPressureSystem {
  ps_type : string;
  ps_lat : Q;
  ps_lon : Q;
  ps_pressure : Q;
  ps_symbol : string
}.

Definition high_system (point : GridPoint) : PressureSystem :=
  {| ps_type := "high"; ps_lat := lat point; ps_lon := lon point;
     ps_pressure := pressure point; ps_symbol := "H" |}.

Definition low_system (point : GridPoint) : PressureSystem :=
  {| ps_type := "low"; ps_lat := lat point; ps_lon := lon point;
     ps_pressure := pressure point; ps_symbol := "L" |}.

Section PressureSystems.
Variable ops : FloatOps.

(** The list comprehension [nearby]; the two differences are the doubles
    that the subtractions give. *)
Definition nearby_points (grid_data : list GridPoint) (point : GridPoint)
  : list GridPoint :=
  filter (fun p =>
            Qltb (Qabs (fsub ops (lat p) (lat point))) 2
            && Qltb (Qabs (fsub ops (lon p) (lon point))) 2
            && negb (gridpoint_eqb p point))
         grid_data.

(** One iteration of [for point in grid_data]. *)
Definition systems_step (grid_data : list GridPoint)
  (systems : list PressureSystem) (point : GridPoint) : list PressureSystem :=
  let nearby := nearby_points grid_data point in
  match nearby with
  | [] => systems (* continue *)
  | _ :: _ =>
      if forallb (fun n => Qltb (pressure n) (pressure point)) nearby then
        if Qltb 1015 (pressure point) then systems ++ [high_system point]
        else systems
      else if forallb (fun n => Qltb (pressure point) (pressure n)) nearby then
        if Qltb (pressure point) 1010 then systems ++ [low_system point]
        else systems
      else systems
  end.

(** [detect_pressure_systems] *)
Definition detect_pressure_systems (grid_data : list GridPoint)
  : list PressureSystem :=
  if (List.length grid_data <? 9)%nat then []
  else fold_left (systems_step grid_data) grid_data [].

End PressureSystems.

(** A front dict. *)
Record Front : Type := mkFront {
  f_type : string;
  f_lat : Q;
  f_lon : Q;
  f_color : string;
  f_symbol : string;
  gradient : Q;
  temp_diff : Q
}.

(** [sorted(grid_data, key=lambda x: x['lat'])]: Python's sort is stable,
    so the result is the one list that is ordered by latitude and keeps
    points of equal latitude in their given order; insertion from the
    right, ahead of the first point that is not of lower latitude,
    builds that list. *)
Fixpoint insert_by_lat (x : GridPoint) (l : list GridPoint) : list GridPoint :=
  match l with
  | [] => [x]
  | y :: l' => if Qleb (lat x) (lat y) then x :: l
               else y :: insert_by_lat x l'
  end.

Definition sorted_by_lat (grid_data : list GridPoint) : list GridPoint :=
  fold_right insert_by_lat [] grid_data.

Section Fronts.
Variable ops : FloatOps.

(** The Euclidean distance in degree-space, as the source computes it:
    [((p2.lat - p1.lat)**2 + (p2.lon - p1.lon)**2)**0.5]. *)
Definition distance (p1 p2 : GridPoint) : Q :=
  pow ops (fadd ops (pow ops (fsub ops (lat p2) (lat p1)) 2)
                    (pow ops (fsub ops (lon p2) (lon p1)) 2))
      (1 # 2).

(** The body of the loop over adjacent pairs: what is appended to
    [fronts] for [p1 = sorted_data[i]] and [p2 = sorted_data[i + 1]]. *)
Definition front_of_pair (p1 p2 : GridPoint) : list Front :=
  let temp_diff := Qabs (fsub ops (temperature p2) (temperature p1)) in
  let distance := distance p1 p2 in
  if Qltb 0 distance then
    let gradient := fdiv ops temp_diff distance in
    if Qltb (15 # 10) gradient then
      let '(front_type, color, symbol) :=
        if Qltb (temperature p2) (temperature p1)
        then ("cold", "#0000FF", "▼")%string
        else ("warm", "#FF0000", "▲")%string in
      [ {| f_type := front_type;
           f_lat := fdiv ops (fadd ops (lat p1) (lat p2)) 2;
           f_lon := fdiv ops (fadd ops (lon p1) (lon p2)) 2;
           f_color := color;
           f_symbol := symbol;
           gradient := gradient;
           temp_diff := temp_diff |} ]
    else []
  else [].

(** One iteration of [for i in range(len(sorted_data) - 1)]. *)
Definition fronts_step (sorted_data : list GridPoint) (fronts : list Front)
  (i : nat) : list Front :=
  match nth_error sorted_data i, nth_error sorted_data (i + 1) with
  | Some p1, Some p2 => fronts ++ front_of_pair p1 p2
  | _, _ => fronts
  end.

(** [detect_fronts] *)
Definition detect_fronts (grid_data : list GridPoint) : list Front :=
  let sorted_data := sorted_by_lat grid_data in
  fold_left (fronts_step sorted_data)
            (seq 0 (List.length sorted_data - 1)) [].

End Fronts.

(** The adjacent pairs of a list, in order. *)
Fixpoint adjacent_pairs {A : Type} (l : list A) : list (A * A) :=
  match l with
  | x :: ((y :: _) as l') => (x, y) :: adjacent_pairs l'
  | _ => []
  end.

End WeatherFrontTracker.

(** * Vocabulary of the statements *)

Module Vocabulary.
Import WindImpactAnalyzer.

(** The wind-band issue types and the icing issue type. *)
Definition is_wind_issue (i : Issue) : bool :=
  String.eqb (i_type i) "cut_out"
  || String.eqb (i_type i) "cut_in"
  || String.eqb (i_type i) "sub_optimal".

Definition is_icing_issue (i : Issue) : bool := String.eqb (i_type i) "icing".

(** The icing conditions of the source. *)
Definition icing_conditions (w : Weather) : Prop :=
  temperature_c w <= ICING_TEMP /\ ICING_HUMIDITY <= humidity_pct w.

(** The cubic power curve between cut-in and rated speed. *)
Definition cubic_curve (s : Q) : Q := ((s - (35 # 10)) / 9) ^ 3.

(** The four wind bands, as conditions on the sample. *)
Inductive Band : Type := BandCutOut | BandIdle | BandSubOptimal | BandRated.

Definition band_of (w : Weather) : Band :=
  if Qleb CUT_OUT_SPEED (wind_gust_ms w) || Qleb CUT_OUT_SPEED (wind_speed_ms w)
  then BandCutOut
  else if Qltb (wind_speed_ms w) CUT_IN_SPEED then BandIdle
  else if Qltb (wind_speed_ms w) RATED_SPEED then BandSubOptimal
  else BandRated.

Definition icing_holds (w : Weather) : bool :=
  Qleb (temperature_c w) ICING_TEMP && Qleb ICING_HUMIDITY (humidity_pct w).

(** The sample of the boundary example: wind exactly at cut-in, gust
    below cut-out, -1 degrees and 85 % humidity. *)
Definition cut_in_icing_sample : Weather :=
  {| timestamp := 0; wind_speed_ms := 35 # 10; wind_gust_ms := 5;
     temperature_c := -1; humidity_pct := 85 |}.

(** One hour, in microseconds. *)
Definition hour_us : Z := 3600000000.

(** The hours of the four-sample example: 8 m/s and 30 m/s, mild and dry. *)
Definition ok_hour (t : Z) : Weather :=
  {| timestamp := t; wind_speed_ms := 8; wind_gust_ms := 8;
     temperature_c := 10; humidity_pct := 50 |}.

Definition bad_hour (t : Z) : Weather :=
  {| timestamp := t; wind_speed_ms := 30; wind_gust_ms := 30;
     temperature_c := 10; humidity_pct := 50 |}.

Definition four_hour_forecast : list Weather :=
  [ok_hour 0; bad_hour hour_us; bad_hour (2 * hour_us);
   ok_hour (3 * hour_us)].

(** An hour at rated speed, which raises no issue. *)
Definition rated_hour (t : Z) : Weather :=
  {| timestamp := t; wind_speed_ms := 15; wind_gust_ms := 15;
     temperature_c := 10; humidity_pct := 50 |}.

(** Strictly increasing timestamps. *)
Definition increasing_timestamps (forecast : list Weather) : Prop :=
  StronglySorted Z.lt (map timestamp forecast).

(** [e] is over, at the latest, when [e'] starts. *)
Definition closes_before (e e' : Event) : Prop :=
  exists t, end_time e = Some t /\
            (start_time e <= t)%Z /\ (t <= start_time e')%Z.

Definition starts_before (e e' : Event) : Prop :=
  (start_time e < start_time e')%Z.

(** The three parts of the event-list invariant. *)
Definition non_overlapping (evs : list Event) : Prop :=
  ForallOrdPairs closes_before evs.

Definition chronological (evs : list Event) : Prop :=
  ForallOrdPairs starts_before evs.

Definition only_last_open (evs : list Event) : Prop :=
  forall i e, nth_error evs i = Some e -> end_time e = None ->
              S i = List.length evs.

(** The relation kept by the extractor's loop: [e] ends strictly after it
    starts and strictly before [e'] starts. *)
Definition precedes (e e' : Event) : Prop :=
  exists t, end_time e = Some t /\
            (start_time e < t)%Z /\ (t < start_time e')%Z.

(** The loop invariant of [analyze_forecast], for the hours with
    timestamps below [b]. *)
Definition extractor_inv (b : Z) (st : LoopState) : Prop :=
  ForallOrdPairs precedes (events st) /\
  (forall e, In e (events st) ->
     exists t, end_time e = Some t /\ (start_time e < t)%Z /\ (t < b)%Z) /\
  (forall o, in_event st = Some o ->
     (event_start o < b)%Z /\
     forall e t, In e (events st) -> end_time e = Some t ->
                 (t < event_start o)%Z).

(** A sample that raises no issue: rated speed or above, below cut-out,
    and no icing conditions. *)
Definition raises_no_issue (w : Weather) : Prop :=
  RATED_SPEED <= wind_speed_ms w /\ wind_speed_ms w < CUT_OUT_SPEED /\
  wind_gust_ms w < CUT_OUT_SPEED /\ ~ icing_conditions w.

(** The two tests of the aggregator's scan. *)
Definition critical_match (e : Event) : bool :=
  String.eqb (e_severity e) "critical" && Qltb (eta_hours e) 24.

Definition medium_match (e : Event) : bool :=
  String.eqb (e_severity e) "medium" && Qltb (eta_hours e) 12.

Definition no_critical (evs : list Event) : Prop :=
  Forall (fun e => critical_match e = false) evs.

Definition no_medium (evs : list Event) : Prop :=
  Forall (fun e => medium_match e = false) evs.

(** Events for the examples: type, severity and eta in hours. *)
Definition sample_event (ty sev : string) (eta : Q) : Event :=
  {| e_type := ty; e_severity := sev; start_time := 0; end_time := None;
     eta_hours := eta; duration_hours := None;
     e_description := LowWind 0; e_status := "upcoming" |}.

End Vocabulary.

(** Vocabulary of the statements about the front tracker. *)
Module GridVocabulary.
Import Doubles WeatherFrontTracker.

(** Two grid points carry the same value under every key. *)
Definition same_hourly (h1 h2 : Hourly) : Prop :=
  Forall2 eq (h_time h1) (h_time h2) /\
  Forall2 Qeq (h_temperature_2m h1) (h_temperature_2m h2) /\
  Forall2 Qeq (h_pressure_msl h1) (h_pressure_msl h2) /\
  Forall2 Qeq (h_wind_speed_10m h1) (h_wind_speed_10m h2) /\
  Forall2 Qeq (h_wind_direction_10m h1) (h_wind_direction_10m h2).

Definition same_values (p q : GridPoint) : Prop :=
  lat p == lat q /\ lon p == lon q /\
  temperature p == temperature q /\ pressure p == pressure q /\
  pressure_trend p == pressure_trend q /\
  wind_speed p == wind_speed q /\ wind_direction p == wind_direction q /\
  weather_code p = weather_code q /\
  same_hourly (hourly_forecast p) (hourly_forecast q).

Section Neighbourhood.
Variable ops : FloatOps.

(** [n] is a neighbour of [point]: another point of the grid whose
    difference to [point] in latitude and in longitude, each as the double
    that the subtraction gives, is less than 2 degrees in absolute
    value. *)
Definition is_neighbor (grid : list GridPoint) (point n : GridPoint) : Prop :=
  In n grid /\
  Qabs (fsub ops (lat n) (lat point)) < 2 /\
  Qabs (fsub ops (lon n) (lon point)) < 2 /\
  ~ same_values n point.

Definition is_high (grid : list GridPoint) (point : GridPoint) : Prop :=
  (exists n, is_neighbor grid point n) /\
  (forall n, is_neighbor grid point n -> pressure n < pressure point) /\
  1015 < pressure point.

Definition is_low (grid : list GridPoint) (point : GridPoint) : Prop :=
  (exists n, is_neighbor grid point n) /\
  (forall n, is_neighbor grid point n -> pressure point < pressure n) /\
  pressure point < 1010.

(** What the loop of [detect_pressure_systems] appends for one point. *)
Definition report_of (grid : list GridPoint) (point : GridPoint)
  : list PressureSystem :=
  systems_step ops grid [] point.

End Neighbourhood.

(** [n] is within 2 degrees of [point] in latitude and in longitude, the
    differences being the exact ones. *)
Definition within_2_degrees (point n : GridPoint) : Prop :=
  Qabs (lat n - lat point) < 2 /\ Qabs (lon n - lon point) < 2.

(** Grid points for the examples: position, pressure and temperature. *)
Definition point_at (la lo pr te : Q) : GridPoint :=
  {| lat := la; lon := lo; temperature := te; pressure := pr;
     pressure_trend := 0; wind_speed := 5; wind_direction := 180;
     weather_code := 0;
     hourly_forecast := mkHourly [] [] [] [] [] |}.

(** The eight points around (1, 1) on a one-degree grid. *)
Definition ring8 (pr : Q) : list GridPoint :=
  [point_at 0 0 pr 10; point_at 0 1 pr 10; point_at 0 2 pr 10;
   point_at 1 0 pr 10; point_at 1 2 pr 10;
   point_at 2 0 pr 10; point_at 2 1 pr 10; point_at 2 2 pr 10].

Definition high_grid : list GridPoint := point_at 1 1 1020 10 :: ring8 1012.

Definition tie_grid : list GridPoint :=
  point_at 1 1 1020 10 :: point_at 0 0 1020 10 :: tl (ring8 1012).

Definition small_grid : list GridPoint :=
  point_at 1 1 1020 10 :: tl (ring8 1012).

(** Ordered by latitude, lowest first. *)
Definition lat_le (p q : GridPoint) : Prop := lat p <= lat q.

(** The gradient that the source computes for a pair. *)
Definition gradient_of (ops : FloatOps) (p1 p2 : GridPoint) : Q :=
  fdiv ops (Qabs (fsub ops (temperature p2) (temperature p1)))
       (distance ops p1 p2).

(** The front of a pair that passes the test. *)
Definition front_at (ops : FloatOps) (p1 p2 : GridPoint) : Front :=
  let cold := Qltb (temperature p2) (temperature p1) in
  {| f_type := if cold then "cold" else "warm";
     f_lat := fdiv ops (fadd ops (lat p1) (lat p2)) 2;
     f_lon := fdiv ops (fadd ops (lon p1) (lon p2)) 2;
     f_color := if cold then "#0000FF" else "#FF0000";
     f_symbol := if cold then "▼" else "▲";
     gradient := gradient_of ops p1 p2;
     temp_diff := Qabs (fsub ops (temperature p2) (temperature p1)) |}.

(** Nine points for the rounding of the latitude difference: the doubles
    0.15 and 2.15 are less than 2 apart, and their difference rounds to
    2.  The six other points are far from everything. *)
Definition south_point : GridPoint := point_at (literal (15 # 100)) 0 1020 10.
Definition north_point : GridPoint := point_at (literal (215 # 100)) 0 1025 10.
Definition side_point : GridPoint := point_at (literal (15 # 100)) 1 1012 10.

Definition rounding_grid : list GridPoint :=
  [south_point; north_point; side_point;
   point_at 10 10 1012 10; point_at 20 20 1012 10; point_at 30 30 1012 10;
   point_at 40 40 1012 10; point_at 50 50 1012 10; point_at 60 60 1012 10].

(** Two points one degree apart for the rounding of the temperature
    difference: the doubles 0.2 and -1.3 are more than 1.5 apart, and
    their difference rounds to 1.5. *)
Definition mild_point : GridPoint := point_at 50 0 1010 (literal (2 # 10)).
Definition cool_point : GridPoint := point_at 51 0 1010 (literal (-13 # 10)).

End GridVocabulary.

(** Vocabulary of the further statements about the analyzer. *)
Module AnalyzerVocabulary.
Import WindImpactAnalyzer Vocabulary.

(** The colour tiers, lowest first. *)
Definition color_rank (c : string) : nat :=
  if String.eqb c "red" then 3
  else if String.eqb c "orange" then 2
  else if String.eqb c "yellow" then 1
  else 0.

(** The hour raises at least one issue. *)
Definition impacted (w : Weather) : Prop :=
  issues (analyze_current_conditions w) <> [].

(** [e] is an event that opens at the impacted hour [h0] of the forecast:
    it carries the first issue of that hour and the ETA of its start. *)
Definition opened_at (now : Z) (h0 : Weather) (e : Event) : Prop :=
  exists first rest,
    issues (analyze_current_conditions h0) = first :: rest /\
    start_time e = timestamp h0 /\
    e_type e = i_type first /\
    e_severity e = i_severity first /\
    e_description e = i_description first /\
    eta_hours e = max0 (total_seconds (timestamp h0 - now) / 3600) /\
    e_status e = (if Qltb 0 (total_seconds (timestamp h0 - now) / 3600)
                  then "upcoming" else "current")%string.

(** [e] is closed by the issue-free hour [h1], or is still open. *)
Definition closed_at (h1 : Weather) (e : Event) : Prop :=
  issues (analyze_current_conditions h1) = [] /\
  end_time e = Some (timestamp h1) /\
  duration_hours e
  = Some (total_seconds (timestamp h1 - start_time e) / 3600).

Definition still_open (e : Event) : Prop :=
  end_time e = None /\ duration_hours e = None.

(** Where an event of the extractor comes from. *)
Definition event_from (forecast : list Weather) (now : Z) (e : Event) : Prop :=
  exists h0, In h0 forecast /\ opened_at now h0 e /\
             (still_open e \/ exists h1, In h1 forecast /\ closed_at h1 e).

(** The open event of the loop state, as the event it will become. *)
Definition open_from (forecast : list Weather) (now : Z) (o : OpenEvent)
  : Prop :=
  exists h0, In h0 forecast /\ opened_at now h0 (open_ended_event now o).

(** An event that passes one of the two tests of the aggregator. *)
Definition qualifies (e : Event) : bool := critical_match e || medium_match e.

(** The state of the loop after the hours [seen]. *)
Definition origin_inv (seen : list Weather) (now : Z) (st : LoopState) : Prop :=
  (forall e, In e (events st) ->
     event_from seen now e /\ end_time e <> None) /\
  (forall o, in_event st = Some o -> open_from seen now o).

(** The counting invariant of the loop: a closed event has used up two
    hours, an open one a single hour. *)
Definition hours_used (st : LoopState) : nat :=
  2 * List.length (events st)
  + match in_event st with Some _ => 1 | None => 0 end.

(** Two events that differ at most in their end. *)
Definition same_opening (e e' : Event) : Prop :=
  start_time e' = start_time e /\ e_type e' = e_type e /\
  e_severity e' = e_severity e /\ e_description e' = e_description e /\
  eta_hours e' = eta_hours e /\ e_status e' = e_status e.

End AnalyzerVocabulary.

(** * Weather front tracker: symbols, motion and the grid *)

Module FrontTrackerSymbols.
Import Doubles WeatherFrontTracker.

(** Standard meteorological symbols. *)
Definition SYMBOLS : list (string * string) :=
  [("sun", "☀"); ("cloud", "☁"); ("rain", "🌧"); ("snow", "❄");
   ("storm", "⛈"); ("wind", "💨"); ("fog", "🌫");
   ("high_pressure", "H"); ("low_pressure", "L");
   ("arrow_n", "↑"); ("arrow_ne", "↗"); ("arrow_e", "→");
   ("arrow_se", "↘"); ("arrow_s", "↓"); ("arrow_sw", "↙");
   ("arrow_w", "←"); ("arrow_nw", "↖")]%string.

(** [self.SYMBOLS[key]]; every key the code uses is in the table, the
    empty string stands for the [KeyError] of any other key. *)
Definition symbol (key : string) : string :=
  match find (fun kv => String.eqb (fst kv) key) SYMBOLS with
  | Some kv => snd kv
  | None => ""
  end.

(** [get_wind_arrow] *)
Definition get_wind_arrow (ops : FloatOps) (direction_deg : Q) : string :=
  let direction_deg := py_mod ops direction_deg 360 in
  if Qleb (3375 # 10) direction_deg || Qltb direction_deg (225 # 10)
  then symbol "arrow_n"
  else if Qleb (225 # 10) direction_deg && Qltb direction_deg (675 # 10)
  then symbol "arrow_ne"
  else if Qleb (675 # 10) direction_deg && Qltb direction_deg (1125 # 10)
  then symbol "arrow_e"
  else if Qleb (1125 # 10) direction_deg && Qltb direction_deg (1575 # 10)
  then symbol "arrow_se"
  else if Qleb (1575 # 10) direction_deg && Qltb direction_deg (2025 # 10)
  then symbol "arrow_s"
  else if Qleb (2025 # 10) direction_deg && Qltb direction_deg (2475 # 10)
  then symbol "arrow_sw"
  else if Qleb (2475 # 10) direction_deg && Qltb direction_deg (2925 # 10)
  then symbol "arrow_w"
  else symbol "arrow_nw".

(** [code in [...]] *)
Definition code_in (code : Z) (l : list Z) : bool := existsb (Z.eqb code) l.

(** [get_weather_symbol] *)
Definition get_weather_symbol (weather_code : Z) : string :=
  if Z.eqb weather_code 0 then symbol "sun"
  else if code_in weather_code [1; 2; 3]%Z then symbol "cloud"
  else if code_in weather_code [45; 48]%Z then symbol "fog"
  else if code_in weather_code [51; 53; 55; 61; 63; 65; 80; 81; 82]%Z
  then symbol "rain"
  else if code_in weather_code [71; 73; 75; 77; 85; 86]%Z then symbol "snow"
  else if code_in weather_code [95; 96; 99]%Z then symbol "storm"
  else symbol "cloud".

Section Motion.
Variable ops : FloatOps.

(** The sum of a float array as NumPy takes it (pairwise summation).
    Fewer than 8 values are added one after the other, starting from 0.
    Up to 128 values are added in eight lanes, the value at index [i] in
    lane [i mod 8], as far as the blocks of 8 go; the lanes are then
    added in pairs and the values left over are added one by one.  A
    longer array is cut in two near the middle, at a multiple of 8. *)
Definition lane (j : nat) (a : list Q) : list Q :=
  map snd (filter (fun ix => (fst ix mod 8 =? j)%nat)
                  (combine (seq 0 (List.length a)) a)).

Definition lane_sum (j : nat) (a : list Q) : Q :=
  match lane j a with
  | [] => 0
  | x :: rest => fold_left (fadd ops) rest x
  end.

Fixpoint pairwise_sum (fuel : nat) (a : list Q) : Q :=
  let n := List.length a in
  if (n <? 8)%nat then fold_left (fadd ops) a 0
  else if (n <=? 128)%nat then
    let blocks := (n - n mod 8)%nat in
    let r := fun j => lane_sum j (firstn blocks a) in
    let res := fadd ops (fadd ops (fadd ops (r 0%nat) (r 1%nat))
                                  (fadd ops (r 2%nat) (r 3%nat)))
                        (fadd ops (fadd ops (r 4%nat) (r 5%nat))
                                  (fadd ops (r 6%nat) (r 7%nat))) in
    fold_left (fadd ops) (skipn blocks a) res
  else
    match fuel with
    | O => 0
    | S fuel' =>
        let n2 := (n / 2)%nat in
        let n2 := (n2 - n2 mod 8)%nat in
        fadd ops (pairwise_sum fuel' (firstn n2 a))
                 (pairwise_sum fuel' (skipn n2 a))
    end.

(** [np.mean] of a list: the sum divided by the count (the reduction
    adds the sum to its initial 0, which changes nothing); NumPy gives
    nan for the empty list, which is [None] here. *)
Definition mean (l : list Q) : option Q :=
  match l with
  | [] => None
  | _ :: _ =>
      Some (fdiv ops (pairwise_sum (List.length l) l)
                 (inject_Z (Z.of_nat (List.length l))))
  end.

End Motion.

(** The dict returned by [calculate_front_velocity]. *)
Record FrontVelocity : Type := mkFrontVelocity {
  velocity_ms : Q;
  direction_deg : Q;
  fv_pressure_trend : Q
}.

(** [calculate_front_velocity]; [None] is the dict of three nan that the
    empty grid gives. *)
Definition calculate_front_velocity (ops : FloatOps)
  (grid_data : list GridPoint) : option FrontVelocity :=
  match mean ops (map pressure_trend grid_data),
        mean ops (map wind_speed grid_data),
        mean ops (map wind_direction grid_data) with
  | Some avg_pressure_trend, Some avg_wind_speed, Some avg_wind_dir =>
      Some {| velocity_ms := fmul ops avg_wind_speed (5 # 10);
              direction_deg := avg_wind_dir;
              fv_pressure_trend := avg_pressure_trend |}
  | _, _, _ => None
  end.

(** [np.linspace(start, stop, num)], as NumPy computes it: the indices
    0 .. num - 1 are multiplied by the step [(stop - start) / (num - 1)]
    (when the step has underflowed to 0, divided by [num - 1] and then
    multiplied by [stop - start]), [start] is added, and the last value is
    set to [stop]. *)
Definition linspace (ops : FloatOps) (start stop : Q) (num : nat) : list Q :=
  let div := (num - 1)%nat in
  let delta := fsub ops stop start in
  let y := map (fun i => inject_Z (Z.of_nat i)) (seq 0 num) in
  let y :=
    if (0 <? div)%nat then
      let step := fdiv ops delta (inject_Z (Z.of_nat div)) in
      if Qeq_bool step 0
      then map (fun yi => fmul ops (fdiv ops yi (inject_Z (Z.of_nat div)))
                               delta) y
      else map (fun yi => fmul ops yi step) y
    else map (fun yi => fmul ops yi delta) y in
  let y := map (fun yi => fadd ops yi start) y in
  if (1 <? num)%nat then removelast y ++ [stop] else y.

(** The bounds dict. *)
Record Bounds : Type := mkBounds {
  north : Q;
  south : Q;
  west : Q;
  east : Q
}.

(** The part of a weather service response that the grid uses: the
    [current] block and the [hourly] block. *)
Record Response : Type := mkResponse {
  c_temperature_2m : Q;
  c_pressure_msl : Q;
  c_wind_speed_10m : Q;
  c_wind_direction_10m : Q;
  c_weather_code : Z;
  r_hourly : Hourly
}.

(** The dict appended for one grid location. *)
Definition grid_point_of (ops : FloatOps) (lat lon : Q) (data : Response)
  : GridPoint :=
  let pressure_now := c_pressure_msl data in
  let pressure_future :=
    match nth_error (h_pressure_msl (r_hourly data)) 3 with
    | Some p => p
    | None => pressure_now
    end in
  let pressure_trend := fsub ops pressure_future pressure_now in
  {| lat := lat;
     lon := lon;
     temperature := c_temperature_2m data;
     pressure := pressure_now;
     pressure_trend := pressure_trend;
     wind_speed := c_wind_speed_10m data;
     wind_direction := c_wind_direction_10m data;
     weather_code := c_weather_code data;
     hourly_forecast := r_hourly data |}.

(** [get_grid_weather].  The request to the weather service is the
    function [fetch]: [None] is any exception raised inside the [try]
    (network error, bad status, missing key), after which the loop goes
    on with the next location.  Each location is requested once as long
    as the bounds differ, so a function of the location is all that the
    loop sees of the service. *)
Definition get_grid_weather (ops : FloatOps)
  (fetch : Q -> Q -> option Response)
  (bounds : Bounds) (grid_size : nat) : list GridPoint :=
  let lats := linspace ops (south bounds) (north bounds) grid_size in
  let lons := linspace ops (west bounds) (east bounds) grid_size in
  flat_map (fun lat =>
    flat_map (fun lon =>
      match fetch lat lon with
      | Some data => [grid_point_of ops lat lon data]
      | None => []
      end) lons) lats.

(** The bounds used by the map generator and by the tracker's [main]. *)
Definition uk_bounds : Bounds :=
  {| north := 59; south := 495 # 10; west := -8; east := 2 |}.

End FrontTrackerSymbols.

(** * Weather fetcher *)

Module WeatherFetcher.

(** The table of [_weather_code_description]. *)
Definition weather_codes : list (Z * string) :=
  [(0, "Clear sky"); (1, "Mainly clear"); (2, "Partly cloudy");
   (3, "Overcast"); (45, "Fog"); (48, "Rime fog");
   (51, "Light drizzle"); (53, "Moderate drizzle"); (55, "Dense drizzle");
   (61, "Slight rain"); (63, "Moderate rain"); (65, "Heavy rain");
   (71, "Slight snow"); (73, "Moderate snow"); (75, "Heavy snow");
   (77, "Snow grains");
   (80, "Slight rain showers"); (81, "Moderate rain showers");
   (82, "Violent rain showers");
   (85, "Slight snow showers"); (86, "Heavy snow showers");
   (95, "Thunderstorm"); (96, "Thunderstorm with slight hail");
   (99, "Thunderstorm with heavy hail")]%Z%string.

(** [dict.get(code)] *)
Definition codes_get (code : Z) : option string :=
  option_map snd (find (fun kv => Z.eqb (fst kv) code) weather_codes).

(** [_weather_code_description]: the table entry, or "Code n". *)
Definition _weather_code_description (code : Z) : string :=
  match codes_get code with
  | Some description => description
  | None => "Code " ++ NilZero.string_of_int (Z.to_int code)
  end.

End WeatherFetcher.

(** Vocabulary of the statements about symbols, motion and the grid. *)
Module TrackerVocabulary.
Import Doubles WeatherFrontTracker FrontTrackerSymbols.

(** The eight arrows, clockwise from north. *)
Definition compass : list string :=
  ["↑"; "↗"; "→"; "↘"; "↓"; "↙"; "←"; "↖"]%string.

(** The 45-degree sector of a direction, counted clockwise from the
    sector centred on north. *)
Definition sector (d : Q) : Z := (Qfloor ((d + (225 # 10)) / 45) mod 8)%Z.

Definition arrow_of_sector (k : Z) : string :=
  nth (Z.to_nat k) compass ""%string.

(** No two points of the grid are less than 2 degrees apart in both
    latitude and longitude, by the differences that the program computes,
    unless they carry the same values. *)
Definition sparse (ops : FloatOps) (grid : list GridPoint) : Prop :=
  forall p q, In p grid -> In q grid ->
    Qabs (fsub ops (lat q) (lat p)) < 2 ->
    Qabs (fsub ops (lon q) (lon p)) < 2 ->
    gridpoint_eqb q p = true.

(** Any two coordinates of the list, taken at different places, are at
    least 2 degrees apart: their difference, computed either way round,
    is 2 or more in absolute value. *)
Fixpoint apart (ops : FloatOps) (l : list Q) : bool :=
  match l with
  | [] => true
  | x :: l' =>
      forallb (fun y => Qleb 2 (Qabs (fsub ops y x))
                        && Qleb 2 (Qabs (fsub ops x y))) l'
      && apart ops l'
  end.

(** The coordinates of the list never decrease. *)
Fixpoint ascending (l : list Q) : bool :=
  match l with
  | [] => true
  | x :: l' => forallb (Qleb x) l' && ascending l'
  end.

(** A weather service that answers every request with the same calm
    weather. *)
Definition steady_fetch (la lo : Q) : option Response :=
  Some (mkResponse 10 1012 5 180 0 (mkHourly [] [] [] [] [])).

(** No two points of the grid share a latitude. *)
Definition distinct_lats (grid : list GridPoint) : Prop :=
  ForallOrdPairs (fun p q => ~ lat p == lat q) grid.

(** A value between the integers [lo] and [hi]. *)
Definition bounded (lo hi : Z) (x : Q) : Prop :=
  inject_Z lo <= x /\ x <= inject_Z hi.

(** A sum of [c] values that all lie between the integers [lo] and
    [hi] lies between [c * lo] and [c * hi]. *)
Definition between (lo hi : Z) (c : nat) (s : Q) : Prop :=
  inject_Z (Z.of_nat c * lo) <= s /\ s <= inject_Z (Z.of_nat c * hi).

End TrackerVocabulary.

(** * The impact summary and the fleet summary *)

Module ImpactReport.
Import WindImpactAnalyzer.

(** The wind farm dict read by [format_impact_summary]. *)
Record WindFarm : Type := mkWindFarm {
  wf_name : string;
  wf_capacity_mw : Q
}.

(** The lines of the summary, each with the values its text is
    formatted from; the returned string is these lines joined by
    newlines.  The status is printed in upper case. *)
Inductive Line : Type :=
| FarmLine (name : string) (capacity_mw : Q)
| StatusLine (status : string)
| CapacityLine (percent : Q)
| PriorityLine (description : Description)
| EventCountLine (n : nat)
| EventLine (type : string) (eta_hours : Q) (duration_hours : option Q).

(** Python's truth value of [event['duration_hours']]: [None] and 0 are
    false. *)
Definition truthy (duration : option Q) : bool :=
  match duration with
  | Some d => negb (Qeq_bool d 0)
  | None => false
  end.

(** One iteration of [for event in analysis['upcoming_events'][:3]]. *)
Definition event_line_step (lines : list Line) (event : Event) : list Line :=
  if Qltb 0 (eta_hours event) then
    lines ++ [if truthy (duration_hours event)
              then EventLine (e_type event) (eta_hours event)
                             (duration_hours event)
              else EventLine (e_type event) (eta_hours event) None]
  else lines.

(** [format_impact_summary], before the final join. *)
Definition format_impact_summary (wind_farm : WindFarm) (analysis : Overall)
  : list Line :=
  let lines :=
    [FarmLine (wf_name wind_farm) (wf_capacity_mw wind_farm);
     StatusLine (status (current analysis));
     CapacityLine (capacity_factor (current analysis) * 100)] in
  let lines :=
    match priority_issue analysis with
    | Some issue => lines ++ [PriorityLine (i_description issue)]
    | None => lines
    end in
  match upcoming_events analysis with
  | [] => lines
  | _ :: _ =>
      fold_left event_line_step (firstn 3 (upcoming_events analysis))
        (lines ++ [EventCountLine (List.length (upcoming_events analysis))])
  end.

End ImpactReport.

Module ImpactMap.
Import WindImpactAnalyzer.

(** Weather impact colors. *)
Definition IMPACT_COLORS : list (string * string) :=
  [("green", "#27ae60"); ("yellow", "#f39c12");
   ("orange", "#e67e22"); ("red", "#e74c3c")]%string.

(** [IMPACT_COLORS[key]]; [None] is the [KeyError]. *)
Definition impact_color (key : string) : option string :=
  option_map snd (find (fun kv => String.eqb (fst kv) key) IMPACT_COLORS).

(** The dict [status_counts] of [main], with its four keys. *)
Record Counts : Type := mkCounts {
  n_green : nat;
  n_yellow : nat;
  n_orange : nat;
  n_red : nat
}.

(** [status_counts[color] += 1]; [None] is the [KeyError]. *)
Definition bump (color : string) (k : Counts) : option Counts :=
  if String.eqb color "green"
  then Some (mkCounts (n_green k + 1) (n_yellow k) (n_orange k) (n_red k))
  else if String.eqb color "yellow"
  then Some (mkCounts (n_green k) (n_yellow k + 1) (n_orange k) (n_red k))
  else if String.eqb color "orange"
  then Some (mkCounts (n_green k) (n_yellow k) (n_orange k + 1) (n_red k))
  else if String.eqb color "red"
  then Some (mkCounts (n_green k) (n_yellow k) (n_orange k) (n_red k + 1))
  else None.

(** The name and capacity of a wind farm feature of the GeoJSON file. *)
Record Feature : Type := mkFeature {
  feat_name : string;
  feat_capacity_mw : Q
}.

(** The running totals of the summary loop. *)
Record Tally : Type := mkTally {
  status_counts : Counts;
  total_capacity : Q;
  total_output : Q
}.

(** One iteration of [for name, impact in impact_results.items()]: the
    count, then the first feature of that name (the inner loop with its
    [break]). *)
Definition tally_step (features : list Feature) (acc : option Tally)
  (entry : string * Overall) : option Tally :=
  match acc with
  | None => None
  | Some t =>
      let '(name, impact) := entry in
      match bump (priority_color impact) (status_counts t) with
      | None => None
      | Some counts =>
          match find (fun f => String.eqb (feat_name f) name) features with
          | Some f =>
              let capacity_mw := feat_capacity_mw f in
              Some {| status_counts := counts;
                      total_capacity := total_capacity t + capacity_mw;
                      total_output :=
                        total_output t
                        + capacity_mw * capacity_factor (current impact) |}
          | None =>
              Some {| status_counts := counts;
                      total_capacity := total_capacity t;
                      total_output := total_output t |}
          end
      end
  end.

(** How the summary of [main] ends: the totals are printed with the
    output as a percentage of the capacity, or an exception is raised. *)
Inductive Outcome : Type :=
| Printed (t : Tally) (percent : Q)
| KeyError
| ZeroDivisionError.

(** The summary part of [main]. *)
Definition fleet_summary (impact_results : list (string * Overall))
  (features : list Feature) : Outcome :=
  let start :=
    {| status_counts := mkCounts 0 0 0 0;
       total_capacity := 0; total_output := 0 |} in
  match fold_left (tally_step features) impact_results (Some start) with
  | None => KeyError
  | Some t =>
      if Qeq_bool (total_capacity t) 0 then ZeroDivisionError
      else Printed t (total_output t / total_capacity t * 100)
  end.

End ImpactMap.

(** Vocabulary of the statements about the summaries. *)
Module ReportVocabulary.
Import WindImpactAnalyzer ImpactReport ImpactMap.

(** An overall status that the analyzer produced for some sample and
    some events. *)
Definition analyzed (o : Overall) : Prop :=
  exists w evs, o = get_overall_status (analyze_current_conditions w) evs.

Definition is_event_line (l : Line) : bool :=
  match l with EventLine _ _ _ => true | _ => false end.

Definition counted (k : Counts) : nat :=
  (n_green k + n_yellow k + n_orange k + n_red k)%nat.

(** The loop invariant of the fleet summary. *)
Definition tally_inv (n : nat) (t : Tally) : Prop :=
  counted (status_counts t) = n /\
  0 <= total_output t /\ total_output t <= total_capacity t.

End ReportVocabulary.

(** * Properties *)

(** ** Comparisons *)

Lemma Qleb_le (x y : Q) : Qleb x y = true <-> x <= y.
Proof. apply Qle_bool_iff. Qed.

Lemma Qleb_gt (x y : Q) : Qleb x y = false <-> y < x.
Proof.
  unfold Qleb. split; intro H.
  - apply Qnot_le_lt. intro Hle. apply Qle_bool_iff in Hle. congruence.
  - destruct (Qle_bool x y) eqn:E; [|reflexivity].
    apply Qle_bool_iff in E. exfalso. revert E. apply Qlt_not_le, H.
Qed.

Lemma Qltb_lt (x y : Q) : Qltb x y = true <-> x < y.
Proof.
  unfold Qltb. rewrite negb_true_iff. apply (Qleb_gt y x).
Qed.

Lemma Qltb_ge (x y : Q) : Qltb x y = false <-> y <= x.
Proof.
  unfold Qltb. rewrite negb_false_iff. apply Qle_bool_iff.
Qed.

(** Turn every boolean comparison in the context into its proposition. *)
Ltac reflect_cmp :=
  repeat match goal with
  | H : (_ || _) = true |- _ => apply orb_true_iff in H
  | H : (_ || _) = false |- _ => apply orb_false_iff in H; destruct H
  | H : (_ && _) = true |- _ => apply andb_true_iff in H; destruct H
  | H : (_ && _) = false |- _ => apply andb_false_iff in H
  | H : Qleb _ _ = true |- _ => apply Qleb_le in H
  | H : Qleb _ _ = false |- _ => apply Qleb_gt in H
  | H : Qltb _ _ = true |- _ => apply Qltb_lt in H
  | H : Qltb _ _ = false |- _ => apply Qltb_ge in H
  end.

(** ** Doubles *)

Module DoubleFacts.
Import Doubles.

Lemma Qred_inject_Z (z : Z) : Qred (inject_Z z) = inject_Z z.
Proof.
  unfold Qred, inject_Z.
  pose proof (Z.ggcd_gcd z 1) as Hg.
  pose proof (Z.ggcd_correct_divisors z 1) as Hd.
  destruct (Z.ggcd z 1) as [g [a b]]. cbn [fst snd] in *.
  rewrite Z.gcd_1_r in Hg. subst g. destruct Hd as [Ha Hb].
  rewrite Z.mul_1_l in Ha, Hb. now subst a b.
Qed.

Lemma round_half_even_compat (x y : Q) :
  x == y -> round_half_even x = round_half_even y.
Proof.
  intro E. unfold round_half_even.
  rewrite (Qfloor_comp _ _ E).
  assert (E' : x - inject_Z (Qfloor y) == y - inject_Z (Qfloor y))
    by (rewrite E; reflexivity).
  now rewrite (Qcompare_comp _ _ E' _ _ (Qeq_refl (1 # 2))).
Qed.

Lemma round_half_even_Z (m : Z) : round_half_even (inject_Z m) = m.
Proof.
  unfold round_half_even. rewrite Qfloor_Z.
  assert (E : inject_Z m - inject_Z m == 0) by ring.
  now rewrite (Qcompare_comp _ _ E _ _ (Qeq_refl (1 # 2))).
Qed.

Lemma two_power_pos (e : Z) : 0 < 2 ^ e.
Proof. apply Qpower_0_lt. reflexivity. Qed.

Lemma two_power_nonneg (e : Z) :
  (0 <= e)%Z -> (2 : Q) ^ e == inject_Z (2 ^ e).
Proof. intro H. now rewrite Zpower_Qpower. Qed.

(** The exponent of a positive integer is its binary logarithm. *)
Lemma exponent_Z (z : Z) : (0 < z)%Z -> exponent (inject_Z z) = Z.log2 z.
Proof.
  intro Hz. unfold exponent, inject_Z. cbn [Qnum Qden].
  change (Z.log2 1) with 0%Z. rewrite Z.sub_0_r.
  assert (H : Qle_bool (2 ^ Z.log2 z) (z # 1) = true).
  { apply Qle_bool_iff. rewrite two_power_nonneg by apply Z.log2_nonneg.
    change (z # 1) with (inject_Z z). rewrite <- Zle_Qle.
    apply Z.log2_spec, Hz. }
  now rewrite H.
Qed.

(** A positive integer of at most 53 bits is a whole number of units in
    the last place. *)
Lemma round_pos_Z (z : Z) :
  (0 < z <= 2 ^ 53)%Z -> round_pos (inject_Z z) == inject_Z z.
Proof.
  intros [Hz Hmax]. unfold round_pos. rewrite (exponent_Z z Hz).
  pose proof (Z.log2_nonneg z) as He0.
  assert (He1 : (Z.log2 z <= 53)%Z).
  { change 53%Z with (Z.log2 (2 ^ 53)). now apply Z.log2_le_mono. }
  rewrite Z.max_l by lia.
  set (e := Z.log2 z) in *.
  assert (Hint : exists m, inject_Z z / 2 ^ (e - 52) == inject_Z m).
  { destruct (Z.le_gt_cases e 52) as [Hle | Hgt].
    - exists (z * 2 ^ (52 - e))%Z.
      rewrite inject_Z_mult, <- two_power_nonneg by lia.
      replace (e - 52)%Z with (- (52 - e))%Z by lia.
      rewrite Qpower_opp. field.
      apply Qpower_not_0. discriminate.
    - assert (e = 53%Z) by lia.
      assert (Hz' : z = (2 ^ 53)%Z).
      { apply Z.le_antisymm; [exact Hmax|].
        replace 53%Z with e by assumption. apply Z.log2_spec, Hz. }
      exists (2 ^ 52)%Z. subst z. replace e with 53%Z by (symmetry; assumption).
      reflexivity. }
  destruct Hint as [m Hm].
  rewrite (round_half_even_compat _ _ Hm), round_half_even_Z, <- Hm.
  field. apply Qpower_not_0. discriminate.
Qed.

Lemma binary64_pos (x : Q) : 0 < x -> binary64 x == round_pos (Qred x).
Proof.
  intro H. unfold binary64.
  assert (E : (Qred x ?= 0) = Gt).
  { apply Qgt_alt. now rewrite Qred_correct. }
  rewrite E. apply Qred_correct.
Qed.

Lemma binary64_zero (x : Q) : x == 0 -> binary64 x = 0.
Proof.
  intro H. unfold binary64.
  assert (E : (Qred x ?= 0) = Eq).
  { apply Qeq_alt. now rewrite Qred_correct. }
  now rewrite E.
Qed.

Lemma Qopp_opp_eq (x : Q) : - - x = x.
Proof. destruct x as [n d]. unfold Qopp. cbn. now rewrite Z.opp_involutive. Qed.

Lemma binary64_compat (x y : Q) : x == y -> binary64 x == binary64 y.
Proof.
  intro E. unfold binary64. rewrite (Qred_complete _ _ E). reflexivity.
Qed.

Lemma binary64_opp (x : Q) : binary64 (- x) == - binary64 x.
Proof.
  unfold binary64. rewrite Qred_opp.
  set (y := Qred x). clearbody y.
  destruct (Qcompare y 0) eqn:E.
  - apply Qeq_alt in E.
    assert (E' : (- y ?= 0) = Eq) by (apply Qeq_alt; rewrite E; reflexivity).
    rewrite E'. reflexivity.
  - apply Qlt_alt in E.
    assert (E' : (- y ?= 0) = Gt). { apply (proj1 (Qgt_alt _ _)). lra. }
    rewrite E'. rewrite !Qred_correct. ring.
  - apply Qgt_alt in E.
    assert (E' : (- y ?= 0) = Lt). { apply (proj1 (Qlt_alt _ _)). lra. }
    rewrite E'. rewrite Qopp_opp_eq, !Qred_correct. reflexivity.
Qed.

Lemma binary64_int (z : Z) :
  (Z.abs z <= 2 ^ 53)%Z -> binary64 (inject_Z z) == inject_Z z.
Proof.
  intro Hz. destruct (Z.lt_trichotomy z 0) as [Hneg | [-> | Hpos]].
  - assert (E : inject_Z z == - inject_Z (- z))
      by (rewrite inject_Z_opp; ring).
    rewrite (binary64_compat _ _ E), binary64_opp.
    rewrite binary64_pos, Qred_inject_Z, round_pos_Z; [symmetry; exact E|lia|].
    change 0 with (inject_Z 0). rewrite <- Zlt_Qlt. lia.
  - reflexivity.
  - rewrite binary64_pos, Qred_inject_Z, round_pos_Z; [reflexivity|lia|].
    change 0 with (inject_Z 0). now rewrite <- Zlt_Qlt.
Qed.

Lemma sqrt64_compat (x y : Q) : x == y -> sqrt64 x == sqrt64 y.
Proof.
  intro E. unfold sqrt64. rewrite (Qred_complete _ _ E). reflexivity.
Qed.

Lemma pow64_compat (x y z : Q) : x == y -> pow64 x z == pow64 y z.
Proof.
  intro E. unfold pow64.
  destruct (Qeq_bool z 2).
  - apply binary64_compat. now rewrite E.
  - destruct (Qeq_bool z (1 # 2)); [now apply sqrt64_compat | reflexivity].
Qed.

Lemma round_half_even_nonneg (q : Q) : 0 <= q -> (0 <= round_half_even q)%Z.
Proof.
  intro H. unfold round_half_even.
  assert (Hf : (0 <= Qfloor q)%Z).
  { change 0%Z with (Qfloor 0). now apply Qfloor_resp_le. }
  destruct (Qcompare _ _); [destruct (Z.even _)| |]; lia.
Qed.

Lemma binary64_nonneg (x : Q) : 0 <= x -> 0 <= binary64 x.
Proof.
  intro H. apply Qle_lteq in H as [H | H].
  - rewrite (binary64_pos x H). unfold round_pos.
    apply Qmult_le_0_compat; [|apply Qlt_le_weak, two_power_pos].
    change 0 with (inject_Z 0). rewrite <- Zle_Qle.
    apply round_half_even_nonneg.
    apply Qle_shift_div_l; [apply two_power_pos|].
    rewrite Qmult_0_l, Qred_correct. now apply Qlt_le_weak.
  - rewrite (binary64_zero x); [apply Qle_refl | now symmetry].
Qed.

Lemma sqrt64_nonneg (x : Q) : 0 <= sqrt64 x.
Proof.
  unfold sqrt64. destruct (Qcompare (Qred x) 0) eqn:E; try apply Qle_refl.
  apply binary64_nonneg.
  apply Qle_shift_div_l.
  - change 0 with (inject_Z 0). rewrite <- Zlt_Qlt.
    apply Z.pow_pos_nonneg; [lia|].
    pose proof (Z.log2_nonneg (Zpos (Qden (Qred x)))). lia.
  - rewrite Qmult_0_l. change 0 with (inject_Z 0). rewrite <- Zle_Qle.
    pose proof (Z.sqrt_nonneg
                  (Qnum (Qred x) * 4 ^ (60 + Z.log2 (Zpos (Qden (Qred x))))
                   / Zpos (Qden (Qred x)))).
    destruct (_ =? _)%Z; lia.
Qed.

(** *** The exponent *)

Lemma two_power_Z (a : Z) : (0 <= a)%Z -> (2 : Q) ^ a == inject_Z (2 ^ a).
Proof. intro H. now rewrite Zpower_Qpower. Qed.

Lemma two_power_succ (e : Z) : (2 : Q) ^ (e + 1) == 2 * 2 ^ e.
Proof. rewrite Qpower_plus by discriminate. ring. Qed.

Lemma two_power_le (a b : Z) : (a <= b)%Z -> (2 : Q) ^ a <= 2 ^ b.
Proof. intro H. apply Qpower_le_compat_l; [exact H | discriminate]. Qed.

Lemma two_power_lt_inv (a b : Z) : (2 : Q) ^ a < 2 ^ b -> (a < b)%Z.
Proof.
  intro H. destruct (Z.lt_ge_cases a b) as [Hlt | Hge]; [exact Hlt|].
  pose proof (two_power_le b a Hge). lra.
Qed.

Lemma exponent_spec (x : Q) :
  0 < x -> 2 ^ exponent x <= x /\ x < 2 ^ (exponent x + 1).
Proof.
  intro Hx. destruct x as [n d]. unfold exponent. cbn [Qnum Qden].
  assert (Hn : (0 < n)%Z).
  { unfold Qlt in Hx. cbn in Hx. lia. }
  pose proof (Z.log2_spec n Hn) as [Na Nb].
  pose proof (Z.log2_spec (Zpos d) (Pos2Z.is_pos d)) as [Da Db].
  pose proof (Z.log2_nonneg n) as Ha.
  pose proof (Z.log2_nonneg (Zpos d)) as Hb.
  set (a := Z.log2 n) in *. set (b := Z.log2 (Zpos d)) in *.
  assert (Hd : 0 < inject_Z (Zpos d)) by reflexivity.
  assert (Ex : n # d == inject_Z n / inject_Z (Zpos d)) by apply Qmake_Qdiv.
  assert (Pa : (2 : Q) ^ a == inject_Z (2 ^ a)) by now apply two_power_Z.
  assert (Pb : (2 : Q) ^ b == inject_Z (2 ^ b)) by now apply two_power_Z.
  assert (Pab : (2 : Q) ^ (a - b) == 2 ^ a / 2 ^ b)
    by (apply Qpower_minus; discriminate).
  assert (Hpb : 0 < (2 : Q) ^ b) by apply two_power_pos.
  assert (Hpa : 0 < (2 : Q) ^ a) by apply two_power_pos.
  assert (Na' : 2 ^ a <= inject_Z n) by (rewrite Pa, <- Zle_Qle; exact Na).
  assert (Nb' : inject_Z n < 2 * 2 ^ a).
  { rewrite <- two_power_succ, (two_power_Z (a + 1)) by lia.
    rewrite <- Zlt_Qlt. replace (a + 1)%Z with (Z.succ a) by lia. exact Nb. }
  assert (Da' : 2 ^ b <= inject_Z (Zpos d))
    by (rewrite Pb, <- Zle_Qle; exact Da).
  assert (Db' : inject_Z (Zpos d) < 2 * 2 ^ b).
  { rewrite <- two_power_succ, (two_power_Z (b + 1)) by lia.
    rewrite <- Zlt_Qlt. replace (b + 1)%Z with (Z.succ b) by lia. exact Db. }
  set (qn := inject_Z n) in *. set (qd := inject_Z (Zpos d)) in *.
  set (pa := (2 : Q) ^ a) in *. set (pb := (2 : Q) ^ b) in *.
  assert (Hr : 2 ^ a / 2 ^ b * pb == pa).
  { unfold pa, pb. field. apply Qpower_not_0. discriminate. }
  assert (Hr0 : 0 < 2 ^ a / 2 ^ b).
  { apply Qlt_shift_div_l; [exact Hpb | rewrite Qmult_0_l; exact Hpa]. }
  fold pa pb in Pab, Hr, Hr0. set (r := pa / pb) in *.
  destruct (Qle_bool (2 ^ (a - b)) (n # d)) eqn:E.
  - apply Qle_bool_iff in E. split; [exact E|].
    rewrite two_power_succ, Pab, Ex.
    apply Qlt_shift_div_r; [exact Hd|].
    clearbody qn qd pa pb r.
    assert (0 <= r * (qd - pb)) by (apply Qmult_le_0_compat; lra).
    nra.
  - assert (E' : n # d < 2 ^ (a - b)).
    { apply Qnot_le_lt. intro H. apply Qle_bool_iff in H. congruence. }
    replace (a - b - 1 + 1)%Z with (a - b)%Z by lia.
    split; [|exact E'].
    assert (P1 : (2 : Q) ^ (a - b - 1) == r / 2).
    { replace (a - b - 1)%Z with (a - b + - (1))%Z by lia.
      rewrite Qpower_plus by discriminate. rewrite Pab. reflexivity. }
    rewrite P1, Ex.
    apply Qle_shift_div_l; [exact Hd|].
    clearbody qn qd pa pb r.
    assert (0 <= r * (2 * pb - qd)) by (apply Qmult_le_0_compat; lra).
    unfold Qdiv. change (/ 2) with (1 # 2). nra.
Qed.

(** *** Rounding to the nearest integer *)

Lemma round_half_even_bounds (q : Q) :
  (Qfloor q <= round_half_even q <= Qfloor q + 1)%Z.
Proof.
  unfold round_half_even.
  destruct (Qcompare _ _); [destruct (Z.even _)| |]; lia.
Qed.

Lemma round_half_even_error (q : Q) :
  q - (1 # 2) <= inject_Z (round_half_even q) /\
  inject_Z (round_half_even q) <= q + (1 # 2).
Proof.
  unfold round_half_even.
  pose proof (Qfloor_le q) as Fl. pose proof (Qlt_floor q) as Fh.
  rewrite inject_Z_plus in Fh. change (inject_Z 1) with 1 in Fh.
  destruct (Qcompare_spec (q - inject_Z (Qfloor q)) (1 # 2)) as [E | E | E].
  - destruct (Z.even (Qfloor q)); rewrite ?inject_Z_plus;
      change (inject_Z 1) with 1;
      set (f := inject_Z (Qfloor q)) in *; clearbody f; split; lra.
  - set (f := inject_Z (Qfloor q)) in *; clearbody f; split; lra.
  - rewrite inject_Z_plus. change (inject_Z 1) with 1.
    set (f := inject_Z (Qfloor q)) in *; clearbody f; split; lra.
Qed.

Lemma round_half_even_mono (x y : Q) :
  x <= y -> (round_half_even x <= round_half_even y)%Z.
Proof.
  intro H. pose proof (Qfloor_resp_le _ _ H) as Hf.
  destruct (Z.eq_dec (Qfloor x) (Qfloor y)) as [Ef | Nf].
  - unfold round_half_even. rewrite <- Ef.
    set (f := Qfloor x) in *.
    destruct (Qcompare_spec (x - inject_Z f) (1 # 2)) as [Ex | Ex | Ex];
      destruct (Qcompare_spec (y - inject_Z f) (1 # 2)) as [Ey | Ey | Ey];
      try (destruct (Z.even f)); try lia;
      set (q := inject_Z f) in *; clearbody q; exfalso; lra.
  - pose proof (round_half_even_bounds x).
    pose proof (round_half_even_bounds y). lia.
Qed.

(** *** Rounding is monotone *)

Lemma two_power_shift (e : Z) : (2 : Q) ^ (e + 1) == 2 ^ 53 * 2 ^ (e - 52).
Proof.
  rewrite <- Qpower_plus by discriminate.
  now replace (53 + (e - 52))%Z with (e + 1)%Z by lia.
Qed.

Lemma two_power_shift' (e : Z) : (2 : Q) ^ e == 2 ^ 52 * 2 ^ (e - 52).
Proof.
  rewrite <- Qpower_plus by discriminate.
  now replace (52 + (e - 52))%Z with e by lia.
Qed.

(** A positive value below 2^(e+1) rounds, in units of 2^(e-52), to at
    most 2^(e+1); a value of at least 2^e rounds to at least 2^e. *)
Lemma round_units_upper (x : Q) (e : Z) :
  x <= 2 ^ (e + 1) ->
  inject_Z (round_half_even (x / 2 ^ (e - 52))) * 2 ^ (e - 52) <= 2 ^ (e + 1).
Proof.
  intro H. pose proof (two_power_pos (e - 52)) as Hu.
  rewrite (two_power_shift e) in *.
  apply Qmult_le_compat_r; [|now apply Qlt_le_weak].
  change ((2 : Q) ^ 53) with (inject_Z (2 ^ 53)). rewrite <- Zle_Qle.
  rewrite <- (round_half_even_Z (2 ^ 53)).
  apply round_half_even_mono. apply Qle_shift_div_r; [exact Hu | exact H].
Qed.

Lemma round_units_lower (x : Q) (e : Z) :
  2 ^ e <= x ->
  2 ^ e <= inject_Z (round_half_even (x / 2 ^ (e - 52))) * 2 ^ (e - 52).
Proof.
  intro H. pose proof (two_power_pos (e - 52)) as Hu.
  rewrite (two_power_shift' e) in *.
  apply Qmult_le_compat_r; [|now apply Qlt_le_weak].
  change ((2 : Q) ^ 52) with (inject_Z (2 ^ 52)). rewrite <- Zle_Qle.
  rewrite <- (round_half_even_Z (2 ^ 52)) at 1.
  apply round_half_even_mono. apply Qle_shift_div_l; [exact Hu | exact H].
Qed.

Lemma exponent_mono (x y : Q) :
  0 < x -> x <= y -> (exponent x <= exponent y)%Z.
Proof.
  intros Hx Hxy.
  destruct (exponent_spec x Hx) as [Lx _].
  destruct (exponent_spec y) as [_ Uy]; [lra|].
  assert (H : (exponent x < exponent y + 1)%Z)
    by (apply two_power_lt_inv; lra).
  lia.
Qed.

Lemma round_pos_mono (x y : Q) :
  0 < x -> x <= y -> round_pos x <= round_pos y.
Proof.
  intros Hx Hxy. assert (Hy : 0 < y) by lra.
  pose proof (exponent_mono x y Hx Hxy) as He.
  destruct (exponent_spec x Hx) as [Lx Ux].
  destruct (exponent_spec y Hy) as [Ly Uy].
  unfold round_pos.
  set (ex := Z.max (exponent x) (-1022)).
  set (ey := Z.max (exponent y) (-1022)).
  assert (Hexy : (ex <= ey)%Z) by (unfold ex, ey; lia).
  destruct (Z.eq_dec ex ey) as [E | N].
  - rewrite <- E. pose proof (two_power_pos (ex - 52)) as Hu.
    apply Qmult_le_compat_r; [|now apply Qlt_le_weak].
    rewrite <- Zle_Qle. apply round_half_even_mono.
    apply Qmult_le_compat_r; [exact Hxy|].
    now apply Qlt_le_weak, Qinv_lt_0_compat.
  - assert (Hlt : (ex < ey)%Z) by lia.
    assert (Eey : ey = exponent y) by (unfold ex, ey in *; lia).
    apply Qle_trans with (2 ^ (ex + 1)).
    + apply round_units_upper.
      apply Qle_trans with (2 ^ (exponent x + 1)); [now apply Qlt_le_weak|].
      apply two_power_le. unfold ex. lia.
    + apply Qle_trans with (2 ^ ey); [apply two_power_le; lia|].
      apply round_units_lower. now rewrite Eey.
Qed.

Lemma round_pos_nonneg (x : Q) : 0 <= x -> 0 <= round_pos x.
Proof.
  intro H. unfold round_pos.
  apply Qmult_le_0_compat; [|apply Qlt_le_weak, two_power_pos].
  change 0 with (inject_Z 0). rewrite <- Zle_Qle.
  apply round_half_even_nonneg.
  apply Qle_shift_div_l; [apply two_power_pos|].
  now rewrite Qmult_0_l.
Qed.

Lemma binary64_neg (x : Q) : x < 0 -> binary64 x == - round_pos (- Qred x).
Proof.
  intro H. unfold binary64.
  assert (E : (Qred x ?= 0) = Lt).
  { apply (proj1 (Qlt_alt _ _)). now rewrite Qred_correct. }
  rewrite E. apply Qred_correct.
Qed.

Lemma binary64_mono (x y : Q) : x <= y -> binary64 x <= binary64 y.
Proof.
  intro H.
  destruct (Q_dec x 0) as [[Hx | Hx] | Hx];
    destruct (Q_dec y 0) as [[Hy | Hy] | Hy].
  - rewrite (binary64_neg x Hx), (binary64_neg y Hy).
    apply Qopp_le_compat. apply round_pos_mono.
    + rewrite Qred_correct. lra.
    + rewrite !Qred_correct. lra.
  - rewrite (binary64_neg x Hx), (binary64_pos y Hy).
    assert (H1 : 0 <= round_pos (- Qred x))
      by (apply round_pos_nonneg; rewrite Qred_correct; lra).
    assert (H2 : 0 <= round_pos (Qred y))
      by (apply round_pos_nonneg; rewrite Qred_correct; lra).
    lra.
  - rewrite (binary64_neg x Hx), (binary64_zero y Hy).
    assert (H1 : 0 <= round_pos (- Qred x))
      by (apply round_pos_nonneg; rewrite Qred_correct; lra).
    lra.
  - lra.
  - rewrite (binary64_pos x Hx), (binary64_pos y Hy).
    apply round_pos_mono; rewrite ?Qred_correct; assumption.
  - lra.
  - lra.
  - rewrite (binary64_zero x Hx), (binary64_pos y Hy).
    apply round_pos_nonneg. rewrite Qred_correct. lra.
  - rewrite (binary64_zero x Hx), (binary64_zero y Hy). apply Qle_refl.
Qed.

(** *** The relative error of rounding in the normal range *)

Lemma round_pos_error (x : Q) :
  2 ^ (-1022) <= x ->
  x * (1 - 2 ^ (-53)) <= round_pos x /\ round_pos x <= x * (1 + 2 ^ (-53)).
Proof.
  intro Hn. assert (Hx : 0 < x).
  { pose proof (two_power_pos (-1022)). lra. }
  destruct (exponent_spec x Hx) as [Lx Ux].
  assert (He : (-1022 <= exponent x)%Z).
  { assert ((-1022 < exponent x + 1)%Z) by (apply two_power_lt_inv; lra).
    lia. }
  unfold round_pos. rewrite Z.max_l by lia.
  set (e := exponent x) in *.
  pose proof (two_power_pos (e - 52)) as Hu.
  destruct (round_half_even_error (x / 2 ^ (e - 52))) as [R1 R2].
  assert (Eu : 2 ^ (e - 52) == 2 * (2 ^ e * 2 ^ (-53))).
  { rewrite <- Qpower_plus by discriminate.
    replace (e - 52)%Z with ((e + -53) + 1)%Z by lia.
    now rewrite two_power_succ. }
  assert (Ex : x / 2 ^ (e - 52) * 2 ^ (e - 52) == x) by (field; lra).
  set (m := x / 2 ^ (e - 52)) in *.
  set (r := inject_Z (round_half_even m)) in *.
  set (u := (2 : Q) ^ (e - 52)) in *.
  assert (H53 : 0 < (2 : Q) ^ (-53)) by apply two_power_pos.
  set (c := (2 : Q) ^ (-53)) in *. set (pe := (2 : Q) ^ e) in *.
  clearbody m r u c pe.
  assert (H1 : (r - m + (1 # 2)) * u >= 0) by (apply Qmult_le_0_compat; lra).
  assert (H2 : (m + (1 # 2) - r) * u >= 0) by (apply Qmult_le_0_compat; lra).
  assert (H3 : (x - pe) * c >= 0) by (apply Qmult_le_0_compat; lra).
  split; nra.
Qed.

Lemma binary64_error (x : Q) :
  2 ^ (-1022) <= x ->
  x * (1 - 2 ^ (-53)) <= binary64 x /\ binary64 x <= x * (1 + 2 ^ (-53)).
Proof.
  intro Hn. assert (Hx : 0 < x).
  { pose proof (two_power_pos (-1022)). lra. }
  rewrite (binary64_pos x Hx).
  destruct (round_pos_error (Qred x)) as [H1 H2];
    [now rewrite Qred_correct|].
  rewrite Qred_correct in H1 at 1. rewrite Qred_correct in H2 at 2.
  split; assumption.
Qed.

(** *** Halves of integers *)

Lemma exponent_unique (x : Q) (e : Z) :
  2 ^ e <= x -> x < 2 ^ (e + 1) -> exponent x = e.
Proof.
  intros L U.
  assert (Hx : 0 < x) by (pose proof (two_power_pos e); lra).
  destruct (exponent_spec x Hx) as [L' U'].
  assert ((e < exponent x + 1)%Z) by (apply two_power_lt_inv; lra).
  assert ((exponent x < e + 1)%Z) by (apply two_power_lt_inv; lra).
  lia.
Qed.

Lemma round_pos_compat (x y : Q) :
  x == y -> 0 < x -> round_pos x == round_pos y.
Proof.
  intros E Hx.
  destruct (exponent_spec x Hx) as [L U].
  assert (Ee : exponent y = exponent x) by (apply exponent_unique; lra).
  unfold round_pos. rewrite Ee.
  set (c := (2 : Q) ^ (Z.max (exponent x) (-1022) - 52)).
  assert (E' : x / c == y / c) by (rewrite E; reflexivity).
  now rewrite (round_half_even_compat _ _ E').
Qed.

(** Half of a positive integer of at most 53 bits is a whole number of
    units in the last place. *)
Lemma round_pos_half (z : Z) :
  (0 < z < 2 ^ 53)%Z ->
  round_pos (inject_Z z * (1 # 2)) == inject_Z z * (1 # 2).
Proof.
  intros [Hz Hmax].
  pose proof (Z.log2_spec z Hz) as [La Lb].
  pose proof (Z.log2_nonneg z) as Ha.
  assert (Ha' : (Z.log2 z < 53)%Z).
  { apply Z.log2_lt_pow2; [exact Hz | exact Hmax]. }
  set (a := Z.log2 z) in *.
  assert (Pa : (2 : Q) ^ a == inject_Z (2 ^ a)) by now apply two_power_Z.
  assert (La' : 2 ^ a <= inject_Z z) by (rewrite Pa, <- Zle_Qle; exact La).
  assert (Lb' : inject_Z z < 2 * 2 ^ a).
  { rewrite <- two_power_succ, (two_power_Z (a + 1)) by lia.
    rewrite <- Zlt_Qlt. replace (a + 1)%Z with (Z.succ a) by lia. exact Lb. }
  assert (P1 : (2 : Q) ^ a == 2 * 2 ^ (a - 1)).
  { rewrite <- two_power_succ. now replace (a - 1 + 1)%Z with a by lia. }
  assert (Ee : exponent (inject_Z z * (1 # 2)) = (a - 1)%Z).
  { apply exponent_unique.
    - lra.
    - replace (a - 1 + 1)%Z with a by lia. lra. }
  unfold round_pos. rewrite Ee, Z.max_l by lia.
  assert (Hm : inject_Z z * (1 # 2) / 2 ^ (a - 1 - 52)
               == inject_Z (z * 2 ^ (52 - a))).
  { rewrite inject_Z_mult, <- two_power_Z by lia.
    replace (a - 1 - 52)%Z with (- (52 - a) + - (1))%Z by lia.
    rewrite Qpower_plus by discriminate. rewrite Qpower_opp.
    change ((2 : Q) ^ (- (1))) with (1 # 2).
    field. apply Qpower_not_0. discriminate. }
  rewrite (round_half_even_compat _ _ Hm), round_half_even_Z, <- Hm.
  field. apply Qpower_not_0. discriminate.
Qed.

Lemma binary64_half (z : Z) :
  (Z.abs z <= 2 ^ 53)%Z ->
  binary64 (inject_Z z * (1 # 2)) == inject_Z z * (1 # 2).
Proof.
  assert (Hpos : forall z, (0 < z <= 2 ^ 53)%Z ->
            binary64 (inject_Z z * (1 # 2)) == inject_Z z * (1 # 2)).
  { intros w [Hw Hmax].
    destruct (Z.eq_dec w (2 ^ 53)) as [-> | Hne].
    - vm_compute. reflexivity.
    - assert (Hx : 0 < inject_Z w * (1 # 2)).
      { assert (0 < inject_Z w)
          by (change 0 with (inject_Z 0); rewrite <- Zlt_Qlt; exact Hw).
        lra. }
      rewrite (binary64_pos _ Hx).
      rewrite (round_pos_compat _ (inject_Z w * (1 # 2)));
        [apply round_pos_half; lia | apply Qred_correct |].
      now rewrite Qred_correct. }
  intro Hz. destruct (Z.lt_trichotomy z 0) as [Hneg | [-> | Hp]].
  - assert (E : inject_Z z * (1 # 2) == - (inject_Z (- z) * (1 # 2)))
      by (rewrite inject_Z_opp; ring).
    rewrite (binary64_compat _ _ E), binary64_opp, Hpos by lia.
    symmetry. exact E.
  - reflexivity.
  - apply Hpos. lia.
Qed.

(** Rounding leaves a small integer as it is. *)
Lemma fl_exact (ops : FloatOps) (x : Q) (z : Z) :
  ieee ops -> (Z.abs z <= 2 ^ 53)%Z -> x == inject_Z z ->
  fl ops x == inject_Z z.
Proof.
  intros Hops Hz E.
  rewrite (fl_compat ops Hops _ _ E). now apply (fl_int ops Hops).
Qed.

(** The binary64 format has the properties used of IEEE 754. *)
Lemma binary64_ieee : ieee binary64_ops.
Proof.
  constructor; cbn [fl pow binary64_ops].
  - apply binary64_compat.
  - apply binary64_opp.
  - apply binary64_mono.
  - apply binary64_int.
  - apply binary64_error.
  - apply pow64_compat.
  - reflexivity.
  - reflexivity.
  - reflexivity.
  - intro x. apply sqrt64_nonneg.
Qed.

Lemma binary64_exact_halves : exact_halves binary64_ops.
Proof. exact binary64_half. Qed.

End DoubleFacts.

(** ** The classifier *)

Module ClassifierFacts.
Import WindImpactAnalyzer Vocabulary.

Lemma icing_holds_iff (w : Weather) :
  icing_holds w = true <-> icing_conditions w.
Proof.
  unfold icing_holds, icing_conditions.
  rewrite andb_true_iff, !Qleb_le. tauto.
Qed.

(** The result of the classifier, band by band. *)
Lemma classify_normal_form (w : Weather) :
  let s := wind_speed_ms w in
  let g := wind_gust_ms w in
  let ice := if icing_holds w
             then [icing_issue (temperature_c w) (humidity_pct w)] else [] in
  analyze_current_conditions w =
  match band_of w with
  | BandCutOut =>
      mkStatus (timestamp w) false 0 "shutdown" "red"
               (cut_out_issue s g :: ice)
  | BandIdle =>
      mkStatus (timestamp w) true 0 "idle" "yellow" (cut_in_issue s :: ice)
  | BandSubOptimal =>
      mkStatus (timestamp w) true (_estimate_capacity_factor s)
               "sub_optimal" "yellow"
               (sub_optimal_issue s (_estimate_capacity_factor s) :: ice)
  | BandRated =>
      if icing_holds w
      then mkStatus (timestamp w) true 1 "icing_risk" "orange" ice
      else mkStatus (timestamp w) true 1 "normal" "green" []
  end.
Proof.
  unfold analyze_current_conditions, wind_band, icing_check, band_of,
    icing_holds.
  destruct (Qleb CUT_OUT_SPEED (wind_gust_ms w)
            || Qleb CUT_OUT_SPEED (wind_speed_ms w));
    [| destruct (Qltb (wind_speed_ms w) CUT_IN_SPEED);
       [| destruct (Qltb (wind_speed_ms w) RATED_SPEED)]];
    destruct (Qleb (temperature_c w) ICING_TEMP
              && Qleb ICING_HUMIDITY (humidity_pct w));
    reflexivity.
Qed.

Lemma band_of_spec (w : Weather) :
  match band_of w with
  | BandCutOut =>
      CUT_OUT_SPEED <= wind_gust_ms w \/ CUT_OUT_SPEED <= wind_speed_ms w
  | BandIdle =>
      wind_gust_ms w < CUT_OUT_SPEED /\ wind_speed_ms w < CUT_IN_SPEED
  | BandSubOptimal =>
      wind_gust_ms w < CUT_OUT_SPEED /\
      CUT_IN_SPEED <= wind_speed_ms w /\ wind_speed_ms w < RATED_SPEED
  | BandRated =>
      wind_gust_ms w < CUT_OUT_SPEED /\
      RATED_SPEED <= wind_speed_ms w /\ wind_speed_ms w < CUT_OUT_SPEED
  end.
Proof.
  unfold band_of.
  destruct (Qleb CUT_OUT_SPEED (wind_gust_ms w)
            || Qleb CUT_OUT_SPEED (wind_speed_ms w)) eqn:E1;
    [| destruct (Qltb (wind_speed_ms w) CUT_IN_SPEED) eqn:E2;
       [| destruct (Qltb (wind_speed_ms w) RATED_SPEED) eqn:E3]];
    reflect_cmp; try tauto.
  rewrite !Qleb_le in E1. exact E1.
Qed.

(** Each band is decided by the sample's speeds. *)
Lemma band_cut_out (w : Weather) :
  CUT_OUT_SPEED <= wind_speed_ms w \/ CUT_OUT_SPEED <= wind_gust_ms w ->
  band_of w = BandCutOut.
Proof.
  intro H. pose proof (band_of_spec w) as B. unfold CUT_OUT_SPEED,
    CUT_IN_SPEED, RATED_SPEED in *.
  destruct (band_of w); [reflexivity | exfalso; lra ..].
Qed.

Lemma band_idle (w : Weather) :
  wind_gust_ms w < CUT_OUT_SPEED -> wind_speed_ms w < CUT_IN_SPEED ->
  band_of w = BandIdle.
Proof.
  intros Hg Hs. pose proof (band_of_spec w) as B. unfold CUT_OUT_SPEED,
    CUT_IN_SPEED, RATED_SPEED in *.
  destruct (band_of w); [exfalso; lra | reflexivity | exfalso; lra ..].
Qed.

Lemma band_sub_optimal (w : Weather) :
  wind_gust_ms w < CUT_OUT_SPEED ->
  CUT_IN_SPEED <= wind_speed_ms w -> wind_speed_ms w < RATED_SPEED ->
  band_of w = BandSubOptimal.
Proof.
  intros Hg Hs Hr. pose proof (band_of_spec w) as B. unfold CUT_OUT_SPEED,
    CUT_IN_SPEED, RATED_SPEED in *.
  destruct (band_of w);
    [exfalso; lra | exfalso; lra | reflexivity | exfalso; lra].
Qed.

Lemma band_rated (w : Weather) :
  wind_gust_ms w < CUT_OUT_SPEED ->
  RATED_SPEED <= wind_speed_ms w -> wind_speed_ms w < CUT_OUT_SPEED ->
  band_of w = BandRated.
Proof.
  intros Hg Hs Hr. pose proof (band_of_spec w) as B. unfold CUT_OUT_SPEED,
    CUT_IN_SPEED, RATED_SPEED in *.
  destruct (band_of w); [exfalso; lra .. | reflexivity].
Qed.

(** The capacity factor inside the band is the cubic curve. *)
Lemma estimate_in_band (s : Q) :
  CUT_IN_SPEED <= s -> s < RATED_SPEED ->
  _estimate_capacity_factor s == cubic_curve s.
Proof.
  intros Hlo Hhi. unfold _estimate_capacity_factor.
  destruct (Qltb s CUT_IN_SPEED) eqn:E1; reflect_cmp; [lra|].
  destruct (Qleb RATED_SPEED s) eqn:E2; reflect_cmp; [lra|].
  unfold cubic_curve, CUT_IN_SPEED, RATED_SPEED.
  apply Qpower_comp; [|reflexivity]. field.
Qed.

Lemma cube_increasing (x y : Q) : 0 <= x -> x < y -> x ^ 3 < y ^ 3.
Proof.
  intros Hx Hxy. simpl.
  assert (Hy : 0 < y) by lra.
  assert (H1 : 0 <= x * x) by nra.
  assert (H2 : 0 < y * y) by nra.
  assert (H3 : 0 <= x * y) by nra.
  assert (H4 : 0 < (y - x) * (x * x + x * y + y * y))
    by (apply Qmult_lt_0_compat; lra).
  nra.
Qed.

Lemma cubic_curve_increasing (a b : Q) :
  35 # 10 <= a -> a < b -> cubic_curve a < cubic_curve b.
Proof.
  intros Ha Hab. unfold cubic_curve. apply cube_increasing.
  - unfold Qdiv. change (/ 9) with (1 # 9). lra.
  - unfold Qdiv. change (/ 9) with (1 # 9). lra.
Qed.

Lemma cubic_curve_bounds (s : Q) :
  35 # 10 <= s -> s < 125 # 10 -> 0 <= cubic_curve s /\ cubic_curve s < 1.
Proof.
  intros Hlo Hhi. split.
  - destruct (Qlt_le_dec (35 # 10) s) as [Hlt | Hge].
    + apply Qlt_le_weak.
      apply (Qle_lt_trans _ (cubic_curve (35 # 10))); [discriminate|].
      now apply cubic_curve_increasing; [apply Qle_refl|].
    + assert (E : s == 35 # 10) by lra.
      unfold cubic_curve. rewrite E. discriminate.
  - apply (Qlt_le_trans _ (cubic_curve (125 # 10))).
    + now apply cubic_curve_increasing.
    + discriminate.
Qed.

(** C4.  A sample whose sustained speed or gust reaches the cut-out speed
    (25 m/s) is classified as shutdown: capacity factor 0, not operational,
    colour red, whatever the other fields are.  The issue list starts with
    the cut_out issue, of severity critical, and that is its only wind-band
    issue: the idle and sub-optimal branches are not taken. *)
Theorem cut_out_shutdown (w : Weather)
  (H : CUT_OUT_SPEED <= wind_speed_ms w \/ CUT_OUT_SPEED <= wind_gust_ms w) :
  let st := analyze_current_conditions w in
  let i := cut_out_issue (wind_speed_ms w) (wind_gust_ms w) in
  status st = "shutdown"%string /\
  capacity_factor st = 0 /\
  operational st = false /\
  color st = "red"%string /\
  hd_error (issues st) = Some i /\
  filter is_wind_issue (issues st) = [i] /\
  i_type i = "cut_out"%string /\ i_severity i = "critical"%string /\
  (forall j, In j (issues st) ->
     i_type j <> "cut_in"%string /\ i_type j <> "sub_optimal"%string).
Proof.
  intros st i. subst st i.
  rewrite classify_normal_form, (band_cut_out w H).
  cbn [status capacity_factor operational color issues hd_error].
  do 5 (split; [reflexivity|]).
  split; [destruct (icing_holds w); reflexivity|].
  do 2 (split; [reflexivity|]).
  intros j [<- | Hj]; [split; discriminate|].
  destruct (icing_holds w); [|contradiction].
  destruct Hj as [<- | []]. split; discriminate.
Qed.

Lemma cut_out_shutdown_witness :
  status (analyze_current_conditions (mkWeather 0 30 12 (-5) 90))
  = "shutdown"%string.
Proof.
  refine (proj1 (cut_out_shutdown (mkWeather 0 30 12 (-5) 90) _)).
  left. unfold CUT_OUT_SPEED. simpl. lra.
Defined.



(** C1, the claim as stated fails.  At wind speed exactly 3.5 m/s, -1
    degrees and 85 % humidity the icing conditions hold and both issues
    are listed, but colour and status stay those of the sub-optimal band:
    the icing check escalates only a status that is still green. *)
Lemma icing_escalation_counterexample :
  icing_conditions cut_in_icing_sample /\
  wind_speed_ms cut_in_icing_sample == 35 # 10 /\
  wind_gust_ms cut_in_icing_sample < CUT_OUT_SPEED /\
  map i_type (issues (analyze_current_conditions cut_in_icing_sample))
  = ["sub_optimal"; "icing"]%string /\
  color (analyze_current_conditions cut_in_icing_sample) = "yellow"%string /\
  status (analyze_current_conditions cut_in_icing_sample)
  = "sub_optimal"%string /\
  ~ (color (analyze_current_conditions cut_in_icing_sample) = "orange"%string
     /\ status (analyze_current_conditions cut_in_icing_sample)
        = "icing_risk"%string).
Proof.
  repeat split; try reflexivity; try discriminate.
  intros [H _]. vm_compute in H. discriminate.
Qed.

(** C1, amended.  Whenever temperature <= 0 and humidity >= 80 the icing
    issue (severity medium) is appended as the last issue.  Colour and
    status become orange / icing_risk exactly when no wind-band issue was
    raised (rated speed and above, below cut-out); a yellow idle or
    sub-optimal status and a red shutdown status are kept.  At speed 3.5
    with gust below cut-out the result is the sub-optimal band with
    capacity factor 0, colour yellow, and both issues. *)
Theorem icing_check_escalation (w : Weather) (Hice : icing_conditions w) :
  let st := analyze_current_conditions w in
  let s := wind_speed_ms w in
  let g := wind_gust_ms w in
  let ice := icing_issue (temperature_c w) (humidity_pct w) in
  (exists wind, issues st = wind ++ [ice] /\
                forallb is_wind_issue wind = true) /\
  i_type ice = "icing"%string /\ i_severity ice = "medium"%string /\
  (g < 25 -> 125 # 10 <= s -> s < 25 ->
   color st = "orange"%string /\ status st = "icing_risk"%string /\
   issues st = [ice]) /\
  (g < 25 -> 35 # 10 <= s -> s < 125 # 10 ->
   color st = "yellow"%string /\ status st = "sub_optimal"%string) /\
  (g < 25 -> s < 35 # 10 ->
   color st = "yellow"%string /\ status st = "idle"%string) /\
  (25 <= s \/ 25 <= g ->
   color st = "red"%string /\ status st = "shutdown"%string) /\
  (g < 25 -> s == 35 # 10 ->
   capacity_factor st == 0 /\
   map i_type (issues st) = ["sub_optimal"; "icing"]%string).
Proof.
  intros st s g ice. subst st s g ice.
  apply icing_holds_iff in Hice.
  rewrite classify_normal_form, Hice.
  split; [|split; [reflexivity | split; [reflexivity|]]].
  - destruct (band_of w); cbn [issues].
    + now exists [cut_out_issue (wind_speed_ms w) (wind_gust_ms w)].
    + now exists [cut_in_issue (wind_speed_ms w)].
    + now eexists [sub_optimal_issue _ _].
    + now exists [].
  - repeat match goal with |- _ /\ _ => split end.
    + intros Hg Hlo Hhi. now rewrite (band_rated w Hg Hlo Hhi).
    + intros Hg Hlo Hhi. now rewrite (band_sub_optimal w Hg Hlo Hhi).
    + intros Hg Hhi. now rewrite (band_idle w Hg Hhi).
    + intros H. now rewrite (band_cut_out w H).
    + intros Hg Heq.
      assert (Hlo : CUT_IN_SPEED <= wind_speed_ms w)
        by (unfold CUT_IN_SPEED; lra).
      assert (Hhi : wind_speed_ms w < RATED_SPEED)
        by (unfold RATED_SPEED; lra).
      rewrite (band_sub_optimal w Hg Hlo Hhi).
      cbn [capacity_factor issues map]. split; [|reflexivity].
      rewrite (estimate_in_band _ Hlo Hhi). unfold cubic_curve.
      rewrite Heq. reflexivity.
Qed.

Lemma icing_check_escalation_witness :
  color (analyze_current_conditions (mkWeather 0 15 18 (-2) 95))
  = "orange"%string.
Proof.
  refine (proj1 (proj1 (proj2 (proj2 (proj2
    (icing_check_escalation (mkWeather 0 15 18 (-2) 95) _)))) _ _ _));
    try (simpl; lra).
  split; unfold ICING_TEMP, ICING_HUMIDITY; simpl; lra.
Defined.

(** C10.  The issue list of every classification is at most one wind-band
    issue (cut_out, cut_in or sub_optimal) followed by at most one icing
    issue, so it has at most two entries; it is empty exactly when the
    status is normal, and the status is normal exactly when the colour is
    green. *)
Theorem issues_shape (w : Weather) :
  let st := analyze_current_conditions w in
  (exists wind ice,
     issues st = wind ++ ice /\
     (List.length wind <= 1)%nat /\ (List.length ice <= 1)%nat /\
     forallb is_wind_issue wind = true /\
     forallb is_icing_issue ice = true) /\
  (List.length (issues st) <= 2)%nat /\
  (issues st = [] <-> status st = "normal"%string) /\
  (status st = "normal"%string <-> color st = "green"%string).
Proof.
  intro st. subst st. rewrite classify_normal_form.
  assert (Hsplit : forall wind ice : list Issue,
            (List.length wind <= 1)%nat -> (List.length ice <= 1)%nat ->
            forallb is_wind_issue wind = true ->
            forallb is_icing_issue ice = true ->
            exists wind' ice',
              wind ++ ice = wind' ++ ice' /\
              (List.length wind' <= 1)%nat /\ (List.length ice' <= 1)%nat /\
              forallb is_wind_issue wind' = true /\
              forallb is_icing_issue ice' = true)
    by (intros wind ice; exists wind, ice; auto).
  destruct (band_of w), (icing_holds w); cbn [issues status color].
  all: split;
    [| split; [simpl; lia | split; split; (reflexivity || discriminate)] ].
  - apply (Hsplit [_] [_]); simpl; auto.
  - apply (Hsplit [_] []); simpl; auto.
  - apply (Hsplit [_] [_]); simpl; auto.
  - apply (Hsplit [_] []); simpl; auto.
  - apply (Hsplit [_] [_]); simpl; auto.
  - apply (Hsplit [_] []); simpl; auto.
  - apply (Hsplit [] [_]); simpl; auto.
  - apply (Hsplit [] []); simpl; auto.
Qed.

End ClassifierFacts.

(** ** The event extractor *)

Module ExtractorFacts.
Import WindImpactAnalyzer Vocabulary ClassifierFacts.

Lemma issue_free_iff (w : Weather) :
  issues (analyze_current_conditions w) = [] <->
  band_of w = BandRated /\ icing_holds w = false.
Proof.
  rewrite classify_normal_form.
  destruct (band_of w), (icing_holds w); cbn [issues];
    split; try discriminate; try (intros [? ?]; discriminate);
    intuition congruence.
Qed.

Lemma cut_out_has_issue (w : Weather) :
  CUT_OUT_SPEED <= wind_speed_ms w ->
  exists rest, issues (analyze_current_conditions w)
               = cut_out_issue (wind_speed_ms w) (wind_gust_ms w) :: rest.
Proof.
  intro H. rewrite classify_normal_form, (band_cut_out w (or_introl H)).
  cbn [issues]. eauto.
Qed.

(** The three transitions of the loop body. *)
Lemma step_start (now : Z) (st : LoopState) (hour : Weather) first rest :
  in_event st = None ->
  issues (analyze_current_conditions hour) = first :: rest ->
  forecast_step now st hour =
  {| events := events st;
     in_event := Some (mkOpenEvent (timestamp hour) (i_type first)
                         (i_severity first) (i_description first)) |}.
Proof. intros Hin His. unfold forecast_step. now rewrite Hin, His. Qed.

Lemma step_end (now : Z) (st : LoopState) (hour : Weather) o :
  in_event st = Some o ->
  issues (analyze_current_conditions hour) = [] ->
  forecast_step now st hour =
  {| events := events st ++ [ended_event now o hour]; in_event := None |}.
Proof. intros Hin His. unfold forecast_step. now rewrite Hin, His. Qed.

Lemma step_stay (now : Z) (st : LoopState) (hour : Weather) :
  (in_event st = None /\ issues (analyze_current_conditions hour) = []) \/
  (in_event st <> None /\ issues (analyze_current_conditions hour) <> []) ->
  forecast_step now st hour = st.
Proof.
  unfold forecast_step.
  destruct (in_event st), (issues (analyze_current_conditions hour));
    intros [[? ?] | [? ?]]; congruence.
Qed.

Lemma raises_no_issue_issues (w : Weather) :
  raises_no_issue w -> issues (analyze_current_conditions w) = [].
Proof.
  intros (Hlo & Hhi & Hg & Hice). apply issue_free_iff. split.
  - now apply band_rated.
  - destruct (icing_holds w) eqn:E; [|reflexivity].
    apply icing_holds_iff in E. contradiction.
Qed.

(** C2, the claim as stated fails.  An hour at 8 m/s is below rated speed
    and raises a sub_optimal issue itself, so on [ok, bad, bad, ok] with
    hourly timestamps the single event starts at the first hour, is of
    type sub_optimal and is still open at the end of the forecast. *)
Lemma four_hour_counterexample :
  increasing_timestamps four_hour_forecast /\
  map e_type (analyze_forecast four_hour_forecast 0) = ["sub_optimal"%string]
  /\ map start_time (analyze_forecast four_hour_forecast 0) = [0%Z] /\
  map end_time (analyze_forecast four_hour_forecast 0) = [None] /\
  ~ (exists e d,
       analyze_forecast four_hour_forecast 0 = [e] /\
       start_time e = hour_us /\
       end_time e = Some (3 * hour_us)%Z /\
       duration_hours e = Some d /\ d == 1).
Proof.
  split; [|split; [|split; [|split]]].
  - unfold increasing_timestamps. cbn.
    repeat (constructor; [| repeat (constructor; [reflexivity|]);
                             constructor ]).
    constructor.
  - reflexivity.
  - reflexivity.
  - reflexivity.
  - intros (e & d & He & Hs & _).
    assert (Hm : map start_time (analyze_forecast four_hour_forecast 0)
                 = [hour_us]) by (rewrite He; cbn; now rewrite Hs).
    vm_compute in Hm. discriminate.
Qed.

(** C2, amended.  When the two ok hours raise no issue (rated speed or
    above and below cut-out, no icing; 15 m/s for instance) and the two bad
    hours are at 30 m/s, the hourly forecast [ok, bad, bad, ok] yields
    exactly one event: a cut_out event that starts at the first bad hour
    and ends at the ok hour after the run, with duration_hours = (end_time
    - start_time) in hours, which is 2. *)
Theorem one_event_between_ok_hours (ok1 bad1 bad2 ok2 : Weather) (now : Z)
  (Hok1 : raises_no_issue ok1) (Hok2 : raises_no_issue ok2)
  (Hbad1 : wind_speed_ms bad1 == 30) (Hbad2 : wind_speed_ms bad2 == 30)
  (Ht1 : timestamp bad1 = (timestamp ok1 + hour_us)%Z)
  (Ht2 : timestamp bad2 = (timestamp bad1 + hour_us)%Z)
  (Ht3 : timestamp ok2 = (timestamp bad2 + hour_us)%Z) :
  exists e d,
    analyze_forecast [ok1; bad1; bad2; ok2] now = [e] /\
    e_type e = "cut_out"%string /\
    start_time e = timestamp bad1 /\
    end_time e = Some (timestamp ok2) /\
    duration_hours e = Some d /\
    d = total_seconds (timestamp ok2 - timestamp bad1) / 3600 /\
    d == 2.
Proof.
  assert (Hc1 : CUT_OUT_SPEED <= wind_speed_ms bad1)
    by (unfold CUT_OUT_SPEED; lra).
  assert (Hc2 : CUT_OUT_SPEED <= wind_speed_ms bad2)
    by (unfold CUT_OUT_SPEED; lra).
  destruct (cut_out_has_issue bad1 Hc1) as [r1 Hi1].
  destruct (cut_out_has_issue bad2 Hc2) as [r2 Hi2].
  pose proof (raises_no_issue_issues ok1 Hok1) as Hn1.
  pose proof (raises_no_issue_issues ok2 Hok2) as Hn2.
  unfold analyze_forecast. cbn [fold_left].
  rewrite (step_stay now _ ok1) by (left; split; [reflexivity | exact Hn1]).
  rewrite (step_start now (mkLoopState [] None) bad1 _ _ eq_refl Hi1).
  rewrite (step_stay now _ bad2)
    by (right; cbn [in_event]; split; [discriminate | now rewrite Hi2]).
  erewrite (step_end now _ ok2) by (cbn [in_event]; eauto).
  cbn [in_event events app].
  eexists. eexists. split; [reflexivity|].
  cbn [ended_event e_type start_time end_time duration_hours event_type
       event_start i_type cut_out_issue].
  repeat split.
  replace (timestamp ok2 - timestamp bad1)%Z with (2 * hour_us)%Z by lia.
  reflexivity.
Qed.

Lemma one_event_between_ok_hours_witness :
  exists e d,
    analyze_forecast
      [rated_hour 0; bad_hour hour_us; bad_hour (2 * hour_us);
       rated_hour (3 * hour_us)] 0 = [e] /\
    e_type e = "cut_out"%string /\
    start_time e = hour_us /\
    end_time e = Some (3 * hour_us)%Z /\
    duration_hours e = Some d /\
    d = total_seconds (3 * hour_us - hour_us) / 3600 /\
    d == 2.
Proof.
  apply (one_event_between_ok_hours
           (rated_hour 0) (bad_hour hour_us) (bad_hour (2 * hour_us))
           (rated_hour (3 * hour_us)) 0).
  - repeat split; try (vm_compute; congruence).
    intros [H _]. vm_compute in H. congruence.
  - repeat split; try (vm_compute; congruence).
    intros [H _]. vm_compute in H. congruence.
  - reflexivity.
  - reflexivity.
  - reflexivity.
  - reflexivity.
  - reflexivity.
Defined.

(** *** The loop invariant *)

Lemma ForallOrdPairs_snoc {A : Type} (R : A -> A -> Prop) (l : list A) (y : A) :
  ForallOrdPairs R l -> (forall x, In x l -> R x y) ->
  ForallOrdPairs R (l ++ [y]).
Proof.
  induction 1 as [| a l Ha Hl IH]; intro Hy; cbn.
  - constructor; constructor.
  - constructor.
    + apply Forall_app. split; [exact Ha|].
      constructor; [|constructor]. apply Hy. now left.
    + apply IH. intros x Hx. apply Hy. now right.
Qed.

Lemma ForallOrdPairs_impl {A : Type} (R R' : A -> A -> Prop) (l : list A) :
  (forall x y, R x y -> R' x y) ->
  ForallOrdPairs R l -> ForallOrdPairs R' l.
Proof.
  intros HR. induction 1 as [| a l Ha Hl IH]; constructor; [|exact IH].
  eapply Forall_impl; [|exact Ha]. apply HR.
Qed.

Lemma inv_init (b : Z) : extractor_inv b {| events := []; in_event := None |}.
Proof.
  repeat split; cbn; try constructor; try contradiction; discriminate.
Qed.

(** One hour at or after the bound keeps the invariant, with the bound
    moved past that hour. *)
Lemma inv_step (now b : Z) (st : LoopState) (hour : Weather) :
  extractor_inv b st -> (b <= timestamp hour)%Z ->
  extractor_inv (timestamp hour + 1) (forecast_step now st hour).
Proof.
  intros (Hord & Hclosed & Hopen) Hb.
  unfold forecast_step.
  destruct (in_event st) as [o|] eqn:Hin;
    destruct (issues (analyze_current_conditions hour)) as [| first rest].
  - (* an event ends at this hour *)
    destruct (Hopen o eq_refl) as [Hstart Hbefore].
    repeat split; cbn [events in_event].
    + apply ForallOrdPairs_snoc; [exact Hord|].
      intros e He. destruct (Hclosed e He) as (t & Ht & Hlt & _).
      exists t. cbn. repeat split; eauto.
    + intros e He. apply in_app_or in He. destruct He as [He | [<- | []]].
      * destruct (Hclosed e He) as (t & Ht & Hlt & Htb).
        exists t. repeat split; auto; lia.
      * exists (timestamp hour). cbn. repeat split; lia.
    + discriminate.
    + discriminate.
  - (* the event goes on *)
    repeat split; try exact Hord.
    + intros e He. destruct (Hclosed e He) as (t & Ht & Hlt & Htb).
      exists t. repeat split; auto; lia.
    + rewrite Hin in H. injection H as <-.
      destruct (Hopen o eq_refl). lia.
    + rewrite Hin in H. injection H as <-.
      destruct (Hopen o eq_refl) as [_ Hbefore]. eauto.
  - (* no event, no issue *)
    repeat split; try exact Hord.
    + intros e He. destruct (Hclosed e He) as (t & Ht & Hlt & Htb).
      exists t. repeat split; auto; lia.
    + congruence.
    + congruence.
  - (* an event starts at this hour *)
    repeat split; cbn [events in_event]; try exact Hord.
    + intros e He. destruct (Hclosed e He) as (t & Ht & Hlt & Htb).
      exists t. repeat split; auto; lia.
    + injection H as <-. cbn. lia.
    + injection H as <-. cbn.
      intros e t He Ht. destruct (Hclosed e He) as (t' & Ht' & _ & Htb).
      assert (t = t') by congruence. lia.
Qed.

Lemma inv_fold (now : Z) (forecast : list Weather) :
  forall (b : Z) (st : LoopState),
    extractor_inv b st ->
    increasing_timestamps forecast ->
    (forall h, In h forecast -> (b <= timestamp h)%Z) ->
    exists b', extractor_inv b' (fold_left (forecast_step now) forecast st).
Proof.
  unfold increasing_timestamps.
  induction forecast as [| hour rest IH]; intros b st Hinv Hinc Hb; cbn.
  - now exists b.
  - cbn in Hinc. apply StronglySorted_inv in Hinc as [Hrest Hall].
    apply (IH (timestamp hour + 1)%Z).
    + apply (inv_step now b); [exact Hinv|]. apply Hb. now left.
    + exact Hrest.
    + intros h Hh. rewrite Forall_forall in Hall.
      assert (timestamp hour < timestamp h)%Z
        by (apply Hall, in_map, Hh).
      lia.
Qed.

Lemma inv_run (now : Z) (forecast : list Weather) :
  increasing_timestamps forecast ->
  exists b, extractor_inv b
              (fold_left (forecast_step now) forecast
                         {| events := []; in_event := None |}).
Proof.
  intro Hinc. destruct forecast as [| h0 rest].
  - exists 0%Z. apply inv_init.
  - apply (inv_fold now (h0 :: rest) (timestamp h0));
      [apply inv_init | exact Hinc |].
    intros h [<- | Hh]; [lia|].
    unfold increasing_timestamps in Hinc. cbn in Hinc.
    apply StronglySorted_inv in Hinc as [_ Hall].
    rewrite Forall_forall in Hall.
    assert (timestamp h0 < timestamp h)%Z by (apply Hall, in_map, Hh).
    lia.
Qed.

(** The returned list is ordered by [precedes], and only its last event
    can be open. *)
Lemma analyze_forecast_precedes (forecast : list Weather) (now : Z) :
  increasing_timestamps forecast ->
  ForallOrdPairs precedes (analyze_forecast forecast now) /\
  only_last_open (analyze_forecast forecast now).
Proof.
  intro Hinc. unfold analyze_forecast.
  destruct (inv_run now forecast Hinc) as (b & Hord & Hclosed & Hopen).
  set (st := fold_left (forecast_step now) forecast _) in *.
  destruct (in_event st) as [o|] eqn:Hin.
  - destruct (Hopen o eq_refl) as [_ Hbefore]. split.
    + apply ForallOrdPairs_snoc; [exact Hord|].
      intros e He. destruct (Hclosed e He) as (t & Ht & Hlt & _).
      exists t. cbn. repeat split; eauto.
    + intros i e Hnth Hnone. rewrite length_app. cbn.
      destruct (Nat.lt_ge_cases i (List.length (events st))) as [Hi | Hi].
      * rewrite nth_error_app1 in Hnth by exact Hi.
        apply nth_error_In in Hnth.
        destruct (Hclosed e Hnth) as (t & Ht & _). congruence.
      * assert (i < List.length (events st ++ [open_ended_event now o]))%nat
          by (apply nth_error_Some; congruence).
        rewrite length_app in H. cbn in H. lia.
  - split; [exact Hord|].
    intros i e Hnth Hnone. apply nth_error_In in Hnth.
    destruct (Hclosed e Hnth) as (t & Ht & _). congruence.
Qed.

(** C9.  On a forecast with strictly increasing timestamps the events
    returned by the extractor do not overlap (each is over when the next
    ones start), come in chronological order of start_time, and only the
    last one can have no end_time; the empty forecast gives the empty
    list. *)
Theorem events_disjoint_chronological (forecast : list Weather) (now : Z)
  (Hinc : increasing_timestamps forecast) :
  non_overlapping (analyze_forecast forecast now) /\
  chronological (analyze_forecast forecast now) /\
  only_last_open (analyze_forecast forecast now) /\
  analyze_forecast [] now = [].
Proof.
  destruct (analyze_forecast_precedes forecast now Hinc) as [Hord Hlast].
  repeat split.
  - revert Hord. apply ForallOrdPairs_impl.
    intros e e' (t & Ht & Hlt & Hlt'). exists t. repeat split; auto; lia.
  - revert Hord. apply ForallOrdPairs_impl.
    intros e e' (t & Ht & Hlt & Hlt'). unfold starts_before. lia.
  - exact Hlast.
Qed.

Lemma events_disjoint_chronological_witness :
  non_overlapping
    (analyze_forecast
       [bad_hour 0; rated_hour hour_us; bad_hour (2 * hour_us)] 0) /\
  List.length
    (analyze_forecast
       [bad_hour 0; rated_hour hour_us; bad_hour (2 * hour_us)] 0) = 2%nat.
Proof.
  split; [|reflexivity].
  refine (proj1 (events_disjoint_chronological
                   [bad_hour 0; rated_hour hour_us; bad_hour (2 * hour_us)]
                   0 _)).
  unfold increasing_timestamps. cbn.
  repeat (constructor; [| repeat (constructor; [reflexivity|]);
                           constructor ]).
  constructor.
Defined.

End ExtractorFacts.

(** ** The status aggregator *)

Module AggregatorFacts.
Import WindImpactAnalyzer Vocabulary.

(** The scan writes the two priority fields only. *)
Lemma scan_events_frame (evs : list Event) :
  forall o, current (scan_events evs o) = current o /\
            upcoming_events (scan_events evs o) = upcoming_events o.
Proof.
  induction evs as [| e rest IH]; intro o; cbn; [now split|].
  destruct (_ && _); [now split|].
  destruct (_ && _); [destruct (negb _)|]; rewrite ?(proj1 (IH _)),
    ?(proj2 (IH _)); now split.
Qed.

(** Nothing changes when no event passes either test. *)
Lemma scan_events_no_match (evs : list Event) :
  forall o, no_critical evs -> no_medium evs -> scan_events evs o = o.
Proof.
  induction evs as [| e rest IH]; intros o Hc Hm; cbn; [reflexivity|].
  apply Forall_cons_iff in Hc as [Hc Hcs].
  apply Forall_cons_iff in Hm as [Hm Hms].
  fold (critical_match e). fold (medium_match e). rewrite Hc, Hm.
  now apply IH.
Qed.

(** A red priority survives any scan that meets no critical match. *)
Lemma scan_events_red (evs : list Event) :
  forall o, priority_color o = "red"%string -> no_critical evs ->
            scan_events evs o = o.
Proof.
  induction evs as [| e rest IH]; intros o Hred Hc; cbn; [reflexivity|].
  apply Forall_cons_iff in Hc as [Hc Hcs].
  fold (critical_match e). fold (medium_match e). rewrite Hc, Hred. cbn.
  destruct (medium_match e); now apply IH.
Qed.

(** The first critical match decides, whatever comes before or after. *)
Lemma scan_events_first_critical (pre : list Event) :
  forall o e post,
    no_critical pre -> critical_match e = true ->
    scan_events (pre ++ e :: post) o
    = {| current := current o; upcoming_events := upcoming_events o;
         priority_color := "red"; priority_issue := Some (event_issue e) |}.
Proof.
  induction pre as [| x pre IH]; intros o e post Hpre He; cbn.
  - fold (critical_match e). now rewrite He.
  - apply Forall_cons_iff in Hpre as [Hx Hpre].
    fold (critical_match x). fold (medium_match x). rewrite Hx.
    destruct (medium_match x); [destruct (negb _)|];
      now rewrite (IH _ e post Hpre He).
Qed.

(** Without a critical match and from a colour other than red, the last
    medium match decides. *)
Lemma scan_events_last_medium (pre : list Event) :
  forall o e post,
    priority_color o <> "red"%string ->
    no_critical (pre ++ e :: post) -> medium_match e = true ->
    no_medium post ->
    scan_events (pre ++ e :: post) o
    = {| current := current o; upcoming_events := upcoming_events o;
         priority_color := "orange"; priority_issue := Some (event_issue e) |}.
Proof.
  induction pre as [| x pre IH]; intros o e post Hred Hc He Hpost; cbn.
  - apply Forall_cons_iff in Hc as [Hce Hc].
    fold (critical_match e). fold (medium_match e). rewrite Hce, He.
    apply String.eqb_neq in Hred. rewrite Hred. cbn.
    now apply scan_events_no_match.
  - cbn in Hc. apply Forall_cons_iff in Hc as [Hx Hc].
    fold (critical_match x). fold (medium_match x). rewrite Hx.
    pose proof Hred as Hred'. apply String.eqb_neq in Hred'. rewrite Hred'.
    cbn. destruct (medium_match x).
    + rewrite (IH _ e post); [reflexivity | cbn; discriminate | auto ..].
    + now apply IH.
Qed.

Lemma initial_priority_issue (cur : Status) :
  match issues cur with first :: _ => Some first | [] => None end
  = hd_error (issues cur).
Proof. now destruct (issues cur). Qed.

(** C3.  The aggregator keeps the current status and the event list, and
    scans the events in order.  The first event with severity critical and
    eta_hours < 24 makes the priority colour red and the priority issue
    the one built from that event, whatever events follow it: the issue
    has the type and the severity of the event, and the description of
    the event followed by its ETA, and no other key.  When there
    is no such event: if the current colour is not red, the last event
    with severity medium and eta_hours < 12 makes the priority colour
    orange and gives the priority issue, built in the same way; if the
    current colour is red, colour and issue stay those of the current
    status; and with no qualifying event at all they stay those of the
    current status. *)
Theorem aggregate_scan (cur : Status) (evs : list Event) :
  let o := get_overall_status cur evs in
  current o = cur /\ upcoming_events o = evs /\
  (forall pre e post,
     evs = pre ++ e :: post -> no_critical pre -> critical_match e = true ->
     priority_color o = "red"%string /\
     priority_issue o
     = Some {| i_type := e_type e;
               i_severity := e_severity e;
               i_description := WithETA (e_description e) (eta_hours e);
               i_values := [] |}) /\
  (no_critical evs -> color cur <> "red"%string ->
   forall pre e post,
     evs = pre ++ e :: post -> medium_match e = true -> no_medium post ->
     priority_color o = "orange"%string /\
     priority_issue o
     = Some {| i_type := e_type e;
               i_severity := e_severity e;
               i_description := WithETA (e_description e) (eta_hours e);
               i_values := [] |}) /\
  (no_critical evs -> color cur = "red"%string ->
   priority_color o = "red"%string /\
   priority_issue o = hd_error (issues cur)) /\
  (no_critical evs -> no_medium evs ->
   priority_color o = color cur /\
   priority_issue o = hd_error (issues cur)).
Proof.
  intro o. subst o. unfold get_overall_status.
  rewrite initial_priority_issue.
  set (o0 := {| current := cur; upcoming_events := evs;
                priority_color := color cur;
                priority_issue := hd_error (issues cur) |}).
  split; [apply (scan_events_frame evs o0)|].
  split; [apply (scan_events_frame evs o0)|].
  split; [|split; [|split]].
  - intros pre e post -> Hpre He.
    now rewrite (scan_events_first_critical pre o0 e post Hpre He).
  - intros Hc Hred pre e post -> He Hpost.
    now rewrite (scan_events_last_medium pre o0 e post Hred Hc He Hpost).
  - intros Hc Hred.
    rewrite (scan_events_red evs o0 Hred Hc). cbn. now split.
  - intros Hc Hm. now rewrite (scan_events_no_match evs o0 Hc Hm).
Qed.

Lemma aggregate_scan_witness :
  priority_issue
    (get_overall_status
       (analyze_current_conditions (rated_hour 0))
       [sample_event "icing" "medium" 5;
        sample_event "cut_out" "critical" 10;
        sample_event "cut_out" "critical" 2])
  = Some {| i_type := "cut_out"; i_severity := "critical";
            i_description := WithETA (LowWind 0) 10; i_values := [] |}.
Proof.
  refine (proj2 (proj1 (proj2 (proj2
    (aggregate_scan (analyze_current_conditions (rated_hour 0)) _)))
    [sample_event "icing" "medium" 5]
    (sample_event "cut_out" "critical" 10)
    [sample_event "cut_out" "critical" 2] eq_refl _ eq_refl)).
  repeat constructor.
Defined.

End AggregatorFacts.

(** ** Pressure systems *)

Module PressureFacts.
Import Doubles WeatherFrontTracker GridVocabulary.

Lemma list_eqb_Forall2 {A : Type} (eqb : A -> A -> bool) (R : A -> A -> Prop) :
  (forall x y, eqb x y = true <-> R x y) ->
  forall l1 l2, list_eqb eqb l1 l2 = true <-> Forall2 R l1 l2.
Proof.
  intros Heqb. induction l1 as [| x l1 IH]; destruct l2 as [| y l2]; cbn.
  - split; [constructor | reflexivity].
  - split; [discriminate | inversion 1].
  - split; [discriminate | inversion 1].
  - rewrite andb_true_iff, Heqb, IH. split.
    + intros [? ?]. now constructor.
    + inversion 1; subst. now split.
Qed.

Lemma hourly_eqb_same (h1 h2 : Hourly) :
  hourly_eqb h1 h2 = true <-> same_hourly h1 h2.
Proof.
  unfold hourly_eqb, same_hourly.
  rewrite !andb_true_iff.
  rewrite (list_eqb_Forall2 String.eqb eq String.eqb_eq).
  rewrite !(list_eqb_Forall2 Qeq_bool Qeq Qeq_bool_iff).
  tauto.
Qed.

Lemma gridpoint_eqb_same (p q : GridPoint) :
  gridpoint_eqb p q = true <-> same_values p q.
Proof.
  unfold gridpoint_eqb, same_values.
  rewrite !andb_true_iff, !Qeq_bool_iff, Z.eqb_eq, hourly_eqb_same.
  tauto.
Qed.

(** The comprehension [nearby] holds exactly the neighbours. *)
Lemma nearby_points_In (ops : FloatOps) (grid : list GridPoint)
  (point n : GridPoint) :
  In n (nearby_points ops grid point) <-> is_neighbor ops grid point n.
Proof.
  unfold nearby_points, is_neighbor.
  rewrite filter_In, !andb_true_iff, !Qltb_lt, negb_true_iff.
  rewrite <- gridpoint_eqb_same, not_true_iff_false. tauto.
Qed.

Lemma forallb_lt_iff (l : list GridPoint) (f g : GridPoint -> Q) :
  forallb (fun n => Qltb (f n) (g n)) l = true <->
  forall n, In n l -> f n < g n.
Proof.
  rewrite forallb_forall. split; intros H n Hn; apply Qltb_lt, H, Hn.
Qed.

(** Each iteration appends the point's own report. *)
Lemma systems_step_app (ops : FloatOps) (grid : list GridPoint) systems
  (point : GridPoint) :
  systems_step ops grid systems point = systems ++ report_of ops grid point.
Proof.
  unfold report_of, systems_step.
  destruct (nearby_points ops grid point); [now rewrite app_nil_r|].
  repeat match goal with
         | |- context [if ?c then _ else _] => destruct c
         end; now rewrite ?app_nil_r.
Qed.

Lemma fold_systems_step (ops : FloatOps) (grid l : list GridPoint) :
  forall systems,
    fold_left (systems_step ops grid) l systems
    = systems ++ flat_map (report_of ops grid) l.
Proof.
  induction l as [| point l IH]; intro systems; cbn.
  - now rewrite app_nil_r.
  - now rewrite IH, systems_step_app, <- app_assoc.
Qed.

(** The report of a point is its high system, its low system, or nothing,
    as the point is a high, a low or neither. *)
Lemma report_of_cases (ops : FloatOps) (grid : list GridPoint)
  (point : GridPoint) :
  (is_high ops grid point /\ ~ is_low ops grid point /\
   report_of ops grid point = [high_system point]) \/
  (is_low ops grid point /\ ~ is_high ops grid point /\
   report_of ops grid point = [low_system point]) \/
  (~ is_high ops grid point /\ ~ is_low ops grid point /\
   report_of ops grid point = []).
Proof.
  unfold report_of, systems_step.
  pose proof (nearby_points_In ops grid point) as Hnear.
  destruct (nearby_points ops grid point) as [| n0 near] eqn:Enear.
  - right; right. repeat split; try reflexivity;
      intros [[n Hn] _]; apply Hnear in Hn; contradiction.
  - assert (Hn0 : is_neighbor ops grid point n0) by (apply Hnear; now left).
    set (nearby := n0 :: near) in *.
    destruct (forallb (fun n => Qltb (pressure n) (pressure point)) nearby)
      eqn:Egt.
    + pose proof (proj1 (forallb_lt_iff nearby pressure
                           (fun _ => pressure point)) Egt) as Hgt.
      assert (Hnotlow : ~ is_low ops grid point).
      { intros (_ & Hlt & _). specialize (Hlt n0 Hn0).
        specialize (Hgt n0 (or_introl eq_refl)). cbn in Hgt. lra. }
      destruct (Qltb 1015 (pressure point)) eqn:E15; reflect_cmp.
      * left. repeat split; eauto.
        intros n Hn. apply (Hgt n), Hnear, Hn.
      * right; right. repeat split; auto.
        intros (_ & _ & H15). lra.
    + assert (Hnothigh : ~ is_high ops grid point).
      { intros (_ & Hgt & _).
        assert (forallb (fun n => Qltb (pressure n) (pressure point)) nearby
                = true); [|congruence].
        apply (forallb_lt_iff nearby pressure (fun _ => pressure point)).
        intros n Hn. apply Hgt, Hnear, Hn. }
      destruct (forallb (fun n => Qltb (pressure point) (pressure n)) nearby)
        eqn:Elt.
      * pose proof (proj1 (forallb_lt_iff nearby (fun _ => pressure point)
                             pressure) Elt) as Hlt.
        destruct (Qltb (pressure point) 1010) eqn:E10; reflect_cmp.
        -- right; left. repeat split; eauto.
           intros n Hn. apply (Hlt n), Hnear, Hn.
        -- right; right. repeat split; auto.
           intros (_ & _ & H10). lra.
      * right; right. repeat split; auto.
        intros (_ & Hlt & _).
        assert (forallb (fun n => Qltb (pressure point) (pressure n)) nearby
                = true); [|congruence].
        apply (forallb_lt_iff nearby (fun _ => pressure point) pressure).
        intros n Hn. apply Hlt, Hnear, Hn.
Qed.

(** C6, amended.  On a grid of at least 9 points the result lists, in
    grid order, the report of every point.  A neighbour of a point is
    another point for which the latitude difference and the longitude
    difference, each as the double that the program computes, are less
    than 2 degrees in absolute value.  A point is reported as a high,
    with its own position and pressure and the symbol H, exactly when it
    has a neighbour, its pressure is strictly above every neighbour's and
    above 1015; as a low, with the symbol L, exactly when it has a
    neighbour, its pressure is strictly below every neighbour's and below
    1010.  A point without neighbours is skipped, and a point whose
    pressure equals a neighbour's is reported as neither. *)
Theorem detect_systems_extrema (ops : FloatOps) (grid : list GridPoint)
  (Hlen : (9 <= List.length grid)%nat) :
  detect_pressure_systems ops grid = flat_map (report_of ops grid) grid /\
  (forall s, In s (detect_pressure_systems ops grid) <->
     exists point, In point grid /\
       ((is_high ops grid point /\
         s = {| ps_type := "high"; ps_lat := lat point; ps_lon := lon point;
                ps_pressure := pressure point; ps_symbol := "H" |}) \/
        (is_low ops grid point /\
         s = {| ps_type := "low"; ps_lat := lat point; ps_lon := lon point;
                ps_pressure := pressure point; ps_symbol := "L" |}))) /\
  (forall point,
     (report_of ops grid point
      = [ {| ps_type := "high"; ps_lat := lat point; ps_lon := lon point;
             ps_pressure := pressure point; ps_symbol := "H" |} ]
      <-> is_high ops grid point) /\
     (report_of ops grid point
      = [ {| ps_type := "low"; ps_lat := lat point; ps_lon := lon point;
             ps_pressure := pressure point; ps_symbol := "L" |} ]
      <-> is_low ops grid point) /\
     (~ is_high ops grid point -> ~ is_low ops grid point ->
      report_of ops grid point = []) /\
     ((forall n, ~ is_neighbor ops grid point n) ->
      report_of ops grid point = []) /\
     (forall n, is_neighbor ops grid point n ->
                pressure n == pressure point ->
                report_of ops grid point = [])).
Proof.
  assert (Hdet : detect_pressure_systems ops grid
                 = flat_map (report_of ops grid) grid).
  { unfold detect_pressure_systems.
    apply Nat.ltb_ge in Hlen. rewrite Hlen.
    now rewrite fold_systems_step. }
  assert (Hneither : forall point,
             ~ is_high ops grid point -> ~ is_low ops grid point ->
             report_of ops grid point = []).
  { intros point Hh Hl.
    destruct (report_of_cases ops grid point)
      as [(? & _) | [(? & _) | (_ & _ & E)]]; tauto. }
  split; [exact Hdet|]. split.
  - intro s. rewrite Hdet, in_flat_map. split.
    + intros (point & Hin & Hs). exists point. split; [exact Hin|].
      destruct (report_of_cases ops grid point)
        as [(Hh & _ & E) | [(Hl & _ & E) | (_ & _ & E)]];
        rewrite E in Hs; cbn in Hs.
      * left. destruct Hs as [<- | []]. now split.
      * right. destruct Hs as [<- | []]. now split.
      * contradiction.
    + intros (point & Hin & [[Hh ->] | [Hl ->]]); exists point;
        (split; [exact Hin|]);
        destruct (report_of_cases ops grid point)
          as [(? & ? & E) | [(? & ? & E) | (? & ? & E)]];
        rewrite E; cbn; tauto.
  - intro point.
    split; [split | split; [split | split; [|split]]].
    + intro E'. destruct (report_of_cases ops grid point)
        as [(? & ? & E) | [(? & ? & E) | (? & ? & E)]];
        [assumption | rewrite E in E'; discriminate ..].
    + intro Hh. destruct (report_of_cases ops grid point)
        as [(? & ? & E) | [(? & ? & E) | (? & ? & E)]];
        [assumption | contradiction ..].
    + intro E'. destruct (report_of_cases ops grid point)
        as [(? & ? & E) | [(? & ? & E) | (? & ? & E)]];
        [rewrite E in E'; discriminate | assumption
         | rewrite E in E'; discriminate].
    + intro Hl. destruct (report_of_cases ops grid point)
        as [(? & ? & E) | [(? & ? & E) | (? & ? & E)]];
        [contradiction | assumption | contradiction].
    + apply Hneither.
    + intro Hnone. apply Hneither; intros [[n Hn] _]; exact (Hnone n Hn).
    + intros n Hn Htie. apply Hneither.
      * intros (_ & Hgt & _). specialize (Hgt n Hn). lra.
      * intros (_ & Hlt & _). specialize (Hlt n Hn). lra.
Qed.

Lemma detect_systems_extrema_witness :
  detect_pressure_systems binary64_ops high_grid
  = flat_map (report_of binary64_ops high_grid) high_grid.
Proof.
  refine (proj1 (detect_systems_extrema binary64_ops high_grid _)).
  cbn. lia.
Defined.

(** The two grids of the strict-inequality example: a 1020 hPa point among
    eight lower neighbours is a high; with one neighbour at 1020 hPa too,
    nothing is reported. *)
Example detect_high_grid :
  detect_pressure_systems binary64_ops high_grid
  = [ {| ps_type := "high"; ps_lat := 1; ps_lon := 1;
         ps_pressure := 1020; ps_symbol := "H" |} ].
Proof. vm_compute. reflexivity. Qed.

Example detect_tie_grid : detect_pressure_systems binary64_ops tie_grid = [].
Proof. vm_compute. reflexivity. Qed.

(** C6, the claim as stated fails.  The doubles 0.15 and 2.15 are less
    than 2 apart, but their difference rounds to 2: the point at 2.15 is
    within 2 degrees of the point at 0.15 and has the higher pressure,
    and yet the point at 0.15 is reported as a high, the only one; the
    point at 2.15, above 1015 and above every other point within 2
    degrees of it, is not reported. *)
Lemma rounded_difference_counterexample :
  detect_pressure_systems binary64_ops rounding_grid
  = [ {| ps_type := "high"; ps_lat := lat south_point;
         ps_lon := lon south_point; ps_pressure := pressure south_point;
         ps_symbol := "H" |} ] /\
  In north_point rounding_grid /\
  within_2_degrees south_point north_point /\
  ~ same_values north_point south_point /\
  pressure south_point < pressure north_point /\
  1015 < pressure north_point /\
  (forall n, In n rounding_grid -> within_2_degrees north_point n ->
             ~ same_values n north_point ->
             pressure n < pressure north_point).
Proof.
  split; [vm_compute; reflexivity|].
  split; [right; now left|].
  split; [split; vm_compute; reflexivity|].
  split; [intros (H & _); vm_compute in H; discriminate|].
  split; [reflexivity|]. split; [reflexivity|].
  intros n Hn _ Hne.
  repeat (destruct Hn as [<- | Hn]; [try reflexivity|]);
    try contradiction.
  exfalso. apply Hne. apply gridpoint_eqb_same. vm_compute. reflexivity.
Qed.

(** C7.  A grid of fewer than 9 points gives the empty list, whatever its
    pressures are; the function has no failing case. *)
Theorem detect_systems_floor (ops : FloatOps) (grid : list GridPoint)
  (Hlen : (List.length grid < 9)%nat) :
  detect_pressure_systems ops grid = [].
Proof.
  unfold detect_pressure_systems.
  apply Nat.ltb_lt in Hlen. now rewrite Hlen.
Qed.

Lemma detect_systems_floor_witness :
  report_of binary64_ops small_grid (point_at 1 1 1020 10)
  = [high_system (point_at 1 1 1020 10)] /\
  detect_pressure_systems binary64_ops small_grid = [].
Proof.
  split; [vm_compute; reflexivity|].
  apply (detect_systems_floor binary64_ops small_grid). cbn. lia.
Defined.

End PressureFacts.

(** ** Fronts *)

Module FrontFacts.
Import Doubles DoubleFacts WeatherFrontTracker GridVocabulary.

(** *** Sorting by latitude *)

Lemma insert_by_lat_perm (x : GridPoint) (l : list GridPoint) :
  Permutation (insert_by_lat x l) (x :: l).
Proof.
  induction l as [| y l IH]; cbn; [reflexivity|].
  destruct (Qleb (lat x) (lat y)); [reflexivity|].
  rewrite IH. apply perm_swap.
Qed.

Lemma sorted_by_lat_perm (grid : list GridPoint) :
  Permutation (sorted_by_lat grid) grid.
Proof.
  induction grid as [| x grid IH]; cbn; [reflexivity|].
  rewrite insert_by_lat_perm. now constructor.
Qed.

Lemma insert_by_lat_sorted (x : GridPoint) (l : list GridPoint) :
  StronglySorted lat_le l -> StronglySorted lat_le (insert_by_lat x l).
Proof.
  induction 1 as [| y l Hl IH Hy]; cbn.
  - repeat constructor.
  - destruct (Qleb (lat x) (lat y)) eqn:E; reflect_cmp.
    + constructor; [now constructor|].
      constructor; [exact E|].
      eapply Forall_impl; [|exact Hy].
      intros z Hz. unfold lat_le in *. lra.
    + constructor; [exact IH|].
      rewrite (insert_by_lat_perm x l).
      constructor; [unfold lat_le; lra | exact Hy].
Qed.

Lemma sorted_by_lat_sorted (grid : list GridPoint) :
  StronglySorted lat_le (sorted_by_lat grid).
Proof.
  induction grid as [| x grid IH]; cbn; [constructor|].
  now apply insert_by_lat_sorted.
Qed.

(** In an ordered list the second point of every adjacent pair is the
    one of higher, or equal, latitude. *)
Lemma adjacent_pairs_sorted (l : list GridPoint) :
  StronglySorted lat_le l ->
  forall p1 p2, In (p1, p2) (adjacent_pairs l) -> lat p1 <= lat p2.
Proof.
  induction 1 as [| x l Hl IH Hx]; intros p1 p2 Hin; [contradiction|].
  destruct l as [| y l]; [contradiction|].
  destruct Hin as [E | Hin]; [|now apply IH].
  injection E as <- <-. apply (Forall_inv Hx).
Qed.

(** The sort is stable: the points of any one latitude keep the order
    they have in the grid. *)
Lemma insert_by_lat_stable (v : Q) (x : GridPoint) (l : list GridPoint) :
  filter (fun p => Qeq_bool (lat p) v) (insert_by_lat x l)
  = filter (fun p => Qeq_bool (lat p) v) (x :: l).
Proof.
  induction l as [| y l IH]; [reflexivity|].
  cbn [insert_by_lat].
  destruct (Qleb (lat x) (lat y)) eqn:E; [reflexivity|].
  reflect_cmp. cbn [filter] in *. rewrite IH.
  destruct (Qeq_bool (lat x) v) eqn:Ex; [|reflexivity].
  destruct (Qeq_bool (lat y) v) eqn:Ey; [|reflexivity].
  apply Qeq_bool_iff in Ex, Ey. lra.
Qed.

Lemma sorted_by_lat_stable (v : Q) (grid : list GridPoint) :
  filter (fun p => Qeq_bool (lat p) v) (sorted_by_lat grid)
  = filter (fun p => Qeq_bool (lat p) v) grid.
Proof.
  induction grid as [| x grid IH]; [reflexivity|].
  cbn [sorted_by_lat fold_right]. rewrite insert_by_lat_stable.
  cbn [filter]. fold (sorted_by_lat grid). now rewrite IH.
Qed.

(** *** The loop over adjacent pairs *)

Lemma fronts_step_app (ops : FloatOps) (l : list GridPoint)
  (fronts : list Front) (i : nat) :
  fronts_step ops l fronts i = fronts ++ fronts_step ops l [] i.
Proof.
  unfold fronts_step.
  destruct (nth_error l i), (nth_error l (i + 1)); cbn;
    now rewrite ?app_nil_r.
Qed.

Lemma fold_fronts_step (ops : FloatOps) (l : list GridPoint)
  (idx : list nat) :
  forall fronts,
    fold_left (fronts_step ops l) idx fronts
    = fronts ++ flat_map (fronts_step ops l []) idx.
Proof.
  induction idx as [| i idx IH]; intro fronts; cbn.
  - now rewrite app_nil_r.
  - now rewrite IH, (fronts_step_app ops l fronts i), <- app_assoc.
Qed.

Lemma index_scan_pairs (ops : FloatOps) (l : list GridPoint) :
  forall pre,
    flat_map (fronts_step ops (pre ++ l) [])
             (seq (List.length pre) (List.length l - 1))
    = flat_map (fun pq => front_of_pair ops (fst pq) (snd pq))
               (adjacent_pairs l).
Proof.
  induction l as [| x l IH]; intro pre; [reflexivity|].
  destruct l as [| y l]; [reflexivity|].
  change (List.length (x :: y :: l) - 1)%nat with (S (List.length l)).
  cbn [seq flat_map adjacent_pairs fst snd]. f_equal.
  - unfold fronts_step.
    rewrite nth_error_app2 by lia. rewrite Nat.sub_diag. cbn [nth_error].
    rewrite nth_error_app2 by lia.
    replace (List.length pre + 1 - List.length pre)%nat with 1%nat by lia.
    reflexivity.
  - specialize (IH (pre ++ [x])).
    rewrite <- app_assoc, length_app in IH. cbn [app List.length] in IH.
    rewrite Nat.add_1_r in IH.
    replace (S (List.length l) - 1)%nat with (List.length l) in IH by lia.
    exact IH.
Qed.

Lemma detect_fronts_pairs (ops : FloatOps) (grid : list GridPoint) :
  detect_fronts ops grid
  = flat_map (fun pq => front_of_pair ops (fst pq) (snd pq))
             (adjacent_pairs (sorted_by_lat grid)).
Proof.
  unfold detect_fronts. rewrite fold_fronts_step. cbn [app].
  apply (index_scan_pairs ops (sorted_by_lat grid) []).
Qed.

(** *** One pair *)

Lemma front_of_pair_emit (ops : FloatOps) (p1 p2 : GridPoint) :
  0 < distance ops p1 p2 -> 15 # 10 < gradient_of ops p1 p2 ->
  front_of_pair ops p1 p2 = [front_at ops p1 p2].
Proof.
  intros Hd Hg. unfold front_of_pair.
  apply Qltb_lt in Hd. rewrite Hd.
  fold (gradient_of ops p1 p2).
  apply Qltb_lt in Hg. rewrite Hg.
  unfold front_at. now destruct (Qltb (temperature p2) (temperature p1)).
Qed.

Lemma front_of_pair_skip (ops : FloatOps) (p1 p2 : GridPoint) :
  ~ 0 < distance ops p1 p2 \/ ~ 15 # 10 < gradient_of ops p1 p2 ->
  front_of_pair ops p1 p2 = [].
Proof.
  intros H. unfold front_of_pair.
  destruct (Qltb 0 (distance ops p1 p2)) eqn:Hd; [|reflexivity].
  fold (gradient_of ops p1 p2).
  destruct (Qltb (15 # 10) (gradient_of ops p1 p2)) eqn:Hg; [|reflexivity].
  apply Qltb_lt in Hd, Hg. tauto.
Qed.

Lemma distance_nonneg (ops : FloatOps) (p1 p2 : GridPoint) :
  ieee ops -> 0 <= distance ops p1 p2.
Proof. intro Hops. unfold distance. apply (pow_half_nonneg ops Hops). Qed.

(** *** Two points one degree apart in latitude *)

Lemma sorted_pair (p1 p2 : GridPoint) (grid : list GridPoint) :
  lat p2 == lat p1 + 1 -> grid = [p1; p2] \/ grid = [p2; p1] ->
  sorted_by_lat grid = [p1; p2].
Proof.
  intros Hlat [-> | ->]; cbn.
  - destruct (Qleb (lat p1) (lat p2)) eqn:E; reflect_cmp;
      [reflexivity | lra].
  - destruct (Qleb (lat p2) (lat p1)) eqn:E; reflect_cmp;
      [lra | reflexivity].
Qed.

Lemma distance_one_degree (ops : FloatOps) (p1 p2 : GridPoint) :
  ieee ops -> lat p2 == lat p1 + 1 -> lon p2 == lon p1 ->
  distance ops p1 p2 == 1.
Proof.
  intros Hops Hlat Hlon. unfold distance, fadd, fsub.
  assert (E1 : fl ops (lat p2 - lat p1) == 1).
  { apply (fl_exact ops _ 1 Hops); [lia|]. rewrite Hlat. cbn. ring. }
  assert (E0 : fl ops (lon p2 - lon p1) == 0).
  { apply (fl_exact ops _ 0 Hops); [lia|]. rewrite Hlon. cbn. ring. }
  assert (P1 : pow ops (fl ops (lat p2 - lat p1)) 2 == 1).
  { rewrite (pow_compat ops Hops _ _ 2 E1). apply (pow_one_2 ops Hops). }
  assert (P0 : pow ops (fl ops (lon p2 - lon p1)) 2 == 0).
  { rewrite (pow_compat ops Hops _ _ 2 E0). apply (pow_zero_2 ops Hops). }
  assert (S1 : fl ops (pow ops (fl ops (lat p2 - lat p1)) 2
                       + pow ops (fl ops (lon p2 - lon p1)) 2) == 1).
  { apply (fl_exact ops _ 1 Hops); [lia|]. rewrite P1, P0. reflexivity. }
  rewrite (pow_compat ops Hops _ _ (1 # 2) S1).
  apply (pow_one_half ops Hops).
Qed.

Lemma gradient_one_degree (ops : FloatOps) (p1 p2 : GridPoint) (d : Z) :
  ieee ops -> (0 <= d <= 2 ^ 53)%Z ->
  lat p2 == lat p1 + 1 -> lon p2 == lon p1 ->
  Qabs (temperature p2 - temperature p1) == inject_Z d ->
  gradient_of ops p1 p2 == inject_Z d.
Proof.
  intros Hops Hd Hlat Hlon Ht. unfold gradient_of, fdiv, fsub.
  assert (Et : Qabs (fl ops (temperature p2 - temperature p1))
               == inject_Z d).
  { revert Ht. apply Qabs_case; intros Hs Ht.
    - rewrite (fl_exact ops _ d Hops) by (lia || exact Ht).
      apply Qabs_pos. now rewrite <- Ht.
    - assert (E : temperature p2 - temperature p1 == inject_Z (- d)).
      { rewrite inject_Z_opp, <- Ht. ring. }
      rewrite (fl_exact ops _ (- d) Hops) by (lia || exact E).
      rewrite inject_Z_opp, Qabs_opp. apply Qabs_pos.
      change 0 with (inject_Z 0). rewrite <- Zle_Qle. lia. }
  apply (fl_exact ops _ d Hops); [lia|].
  rewrite Et, (distance_one_degree ops p1 p2 Hops Hlat Hlon).
  field.
Qed.

(** C8, amended.  [detect_fronts] orders the grid points by latitude,
    lowest first (the ordered list is a rearrangement of the grid in
    which points of equal latitude keep their order), and goes through
    the adjacent pairs of that order.  Distance and gradient are the
    doubles that the program computes: the distance is the power 0.5 of
    the rounded sum of the squares of the rounded differences, and the
    gradient is the rounded quotient of the absolute value of the rounded
    temperature difference by the distance.  A pair whose distance is not
    above 0 gives nothing, and the distance is never below 0; any other
    pair gives exactly one front when the gradient is above 1.5 and
    nothing otherwise.  The front lies at the midpoint of the pair,
    records gradient and temperature difference, and is cold when the
    second point of the pair, the one of higher latitude (of equal
    latitude at most, then the later one of the grid), is colder than the
    first, warm otherwise.  Two points one degree apart give a front, of
    gradient 2, when they differ by 2 degrees of temperature and none
    when they differ by 1. *)
Theorem detect_fronts_scan (ops : FloatOps) (grid : list GridPoint) :
  Permutation (sorted_by_lat grid) grid /\
  StronglySorted lat_le (sorted_by_lat grid) /\
  (forall v, filter (fun p => Qeq_bool (lat p) v) (sorted_by_lat grid)
             = filter (fun p => Qeq_bool (lat p) v) grid) /\
  (forall p1 p2, In (p1, p2) (adjacent_pairs (sorted_by_lat grid)) ->
                 lat p1 <= lat p2) /\
  detect_fronts ops grid
  = flat_map (fun pq => front_of_pair ops (fst pq) (snd pq))
             (adjacent_pairs (sorted_by_lat grid)) /\
  (forall p1 p2,
     let temp_diff := Qabs (fsub ops (temperature p2) (temperature p1)) in
     let distance :=
       pow ops (fadd ops (pow ops (fsub ops (lat p2) (lat p1)) 2)
                         (pow ops (fsub ops (lon p2) (lon p1)) 2))
           (1 # 2) in
     let gradient := fdiv ops temp_diff distance in
     (ieee ops -> 0 <= distance) /\
     (distance == 0 -> front_of_pair ops p1 p2 = []) /\
     (~ 0 < distance -> front_of_pair ops p1 p2 = []) /\
     (0 < distance -> 15 # 10 < gradient ->
      exists f,
        front_of_pair ops p1 p2 = [f] /\
        f_lat f = fdiv ops (fadd ops (lat p1) (lat p2)) 2 /\
        f_lon f = fdiv ops (fadd ops (lon p1) (lon p2)) 2 /\
        WeatherFrontTracker.gradient f = gradient /\
        WeatherFrontTracker.temp_diff f = temp_diff /\
        (temperature p2 < temperature p1 ->
         f_type f = "cold"%string /\ f_color f = "#0000FF"%string /\
         f_symbol f = "▼"%string) /\
        (~ temperature p2 < temperature p1 ->
         f_type f = "warm"%string /\ f_color f = "#FF0000"%string /\
         f_symbol f = "▲"%string)) /\
     (0 < distance -> ~ 15 # 10 < gradient ->
      front_of_pair ops p1 p2 = [])) /\
  (ieee ops ->
   forall p1 p2,
     lat p2 == lat p1 + 1 -> lon p2 == lon p1 ->
     grid = [p1; p2] \/ grid = [p2; p1] ->
     (Qabs (temperature p2 - temperature p1) == 2 ->
      exists f, detect_fronts ops grid = [f] /\
                WeatherFrontTracker.gradient f == 2 /\
                f_lat f = fdiv ops (fadd ops (lat p1) (lat p2)) 2) /\
     (Qabs (temperature p2 - temperature p1) == 1 ->
      detect_fronts ops grid = [])).
Proof.
  split; [apply sorted_by_lat_perm|].
  split; [apply sorted_by_lat_sorted|].
  split; [intro v; apply sorted_by_lat_stable|].
  split; [apply adjacent_pairs_sorted, sorted_by_lat_sorted|].
  split; [apply detect_fronts_pairs|].
  split.
  - intros p1 p2. cbv zeta.
    fold (distance ops p1 p2). fold (gradient_of ops p1 p2).
    split; [intro Hops; now apply distance_nonneg|].
    split; [|split; [|split]].
    + intro H0. apply front_of_pair_skip. left. rewrite H0. discriminate.
    + intro H0. apply front_of_pair_skip. now left.
    + intros Hd Hg. exists (front_at ops p1 p2).
      split; [now apply front_of_pair_emit|].
      cbn [f_lat f_lon gradient temp_diff f_type f_color f_symbol front_at].
      repeat (split; [reflexivity|]). split.
      * intro Hlt. apply Qltb_lt in Hlt. now rewrite Hlt.
      * intro Hge.
        destruct (Qltb (temperature p2) (temperature p1)) eqn:E;
          [|now repeat split].
        apply Qltb_lt in E. contradiction.
    + intros _ Hg. apply front_of_pair_skip. now right.
  - intros Hops p1 p2 Hlat Hlon Hgrid.
    rewrite detect_fronts_pairs, (sorted_pair p1 p2 grid Hlat Hgrid).
    cbn [adjacent_pairs flat_map fst snd]. rewrite app_nil_r.
    pose proof (distance_one_degree ops p1 p2 Hops Hlat Hlon) as Hd.
    split; intro Ht.
    + pose proof (gradient_one_degree ops p1 p2 2 Hops ltac:(lia)
                    Hlat Hlon Ht) as Hg.
      exists (front_at ops p1 p2). split; [|split].
      * apply front_of_pair_emit; [rewrite Hd | rewrite Hg]; reflexivity.
      * exact Hg.
      * reflexivity.
    + pose proof (gradient_one_degree ops p1 p2 1 Hops ltac:(lia)
                    Hlat Hlon Ht) as Hg.
      apply front_of_pair_skip. right. rewrite Hg. discriminate.
Qed.

Lemma detect_fronts_scan_witness :
  exists f,
    detect_fronts binary64_ops [point_at 51 0 1010 8; point_at 50 0 1010 10]
    = [f] /\
    gradient f == 2 /\
    f_lat f = fdiv binary64_ops (fadd binary64_ops 50 51) 2.
Proof.
  refine (proj1 (proj2 (proj2 (proj2 (proj2 (proj2 (proj2
    (detect_fronts_scan binary64_ops
       [point_at 51 0 1010 8; point_at 50 0 1010 10]))))))
    DoubleFacts.binary64_ieee
    (point_at 50 0 1010 10) (point_at 51 0 1010 8) _ _ _) _).
  - reflexivity.
  - reflexivity.
  - now right.
  - reflexivity.
Defined.

(** C8, the claim as stated fails.  The doubles 0.2 and -1.3 are more
    than 1.5 apart, but their difference rounds to 1.5: for two points
    one degree apart with these temperatures the distance is 1 and the
    temperature difference over the distance is above 1.5, and yet no
    front is found. *)
Lemma rounded_gradient_counterexample :
  (lat cool_point - lat mild_point) ^ 2
  + (lon cool_point - lon mild_point) ^ 2 == 1 /\
  15 # 10 < Qabs (temperature cool_point - temperature mild_point) / 1 /\
  detect_fronts binary64_ops [mild_point; cool_point] = [] /\
  detect_fronts binary64_ops [cool_point; mild_point] = [].
Proof.
  split; [reflexivity|]. split; [reflexivity|].
  split; vm_compute; reflexivity.
Qed.

End FrontFacts.

(** * Further properties of the analyzer *)

Module ClassifierExtras.
Import WindImpactAnalyzer Vocabulary AnalyzerVocabulary ClassifierFacts.

Lemma estimate_below_cut_in (s : Q) :
  s < CUT_IN_SPEED -> _estimate_capacity_factor s = 0.
Proof.
  intro H. unfold _estimate_capacity_factor.
  apply Qltb_lt in H. now rewrite H.
Qed.

Lemma estimate_at_rated (s : Q) :
  RATED_SPEED <= s -> _estimate_capacity_factor s = 1.
Proof.
  intro H. unfold _estimate_capacity_factor.
  destruct (Qltb s CUT_IN_SPEED) eqn:E; reflect_cmp.
  - unfold CUT_IN_SPEED, RATED_SPEED in *. lra.
  - apply Qleb_le in H. now rewrite H.
Qed.

Lemma estimate_range (s : Q) :
  0 <= _estimate_capacity_factor s /\ _estimate_capacity_factor s <= 1.
Proof.
  destruct (Qlt_le_dec s CUT_IN_SPEED) as [Hlo | Hlo].
  - rewrite (estimate_below_cut_in s Hlo). split; discriminate.
  - destruct (Qlt_le_dec s RATED_SPEED) as [Hhi | Hhi].
    + rewrite (estimate_in_band s Hlo Hhi).
      destruct (cubic_curve_bounds s Hlo Hhi) as [B0 B1].
      split; [exact B0 | apply Qlt_le_weak, B1].
    + rewrite (estimate_at_rated s Hhi). split; discriminate.
Qed.

(** X1.  [_estimate_capacity_factor] is defined for every wind speed,
    stays within [0, 1] and never decreases when the speed grows: it is 0
    below cut-in, follows the cubic curve up to rated speed and is 1 from
    there on. *)
Theorem estimate_capacity_factor_monotone (a b : Q) (Hab : a <= b) :
  0 <= _estimate_capacity_factor a /\
  _estimate_capacity_factor a <= _estimate_capacity_factor b /\
  _estimate_capacity_factor b <= 1.
Proof.
  split; [apply estimate_range|]. split; [|apply estimate_range].
  destruct (Qlt_le_dec a CUT_IN_SPEED) as [Ha | Ha].
  - rewrite (estimate_below_cut_in a Ha). apply estimate_range.
  - destruct (Qlt_le_dec b RATED_SPEED) as [Hb | Hb].
    + assert (Ha' : a < RATED_SPEED) by lra.
      assert (Hb' : CUT_IN_SPEED <= b) by lra.
      rewrite (estimate_in_band a Ha Ha'), (estimate_in_band b Hb' Hb).
      destruct (Qlt_le_dec a b) as [Hlt | Hge].
      * apply Qlt_le_weak. now apply cubic_curve_increasing.
      * assert (E : a == b) by lra.
        unfold cubic_curve. rewrite E. apply Qle_refl.
    + rewrite (estimate_at_rated b Hb). apply estimate_range.
Qed.

Lemma estimate_capacity_factor_monotone_witness :
  _estimate_capacity_factor 2 <= _estimate_capacity_factor 8 /\
  _estimate_capacity_factor 8 <= _estimate_capacity_factor 40.
Proof.
  split.
  - refine (proj1 (proj2 (estimate_capacity_factor_monotone 2 8 _))).
    discriminate.
  - refine (proj1 (proj2 (estimate_capacity_factor_monotone 8 40 _))).
    discriminate.
Defined.

(** X2.  The capacity factor of every classification lies in [0, 1].
    Below the cut-out speed (speed and gust) it is the value of
    [_estimate_capacity_factor] at the sample's speed, so the constants
    written in the branches agree with the helper; at or above cut-out it
    is 0 although the helper gives 1 for such a speed. *)
Theorem classify_capacity_factor (w : Weather) :
  let st := analyze_current_conditions w in
  0 <= capacity_factor st /\ capacity_factor st <= 1 /\
  (wind_speed_ms w < CUT_OUT_SPEED -> wind_gust_ms w < CUT_OUT_SPEED ->
   capacity_factor st = _estimate_capacity_factor (wind_speed_ms w)) /\
  (CUT_OUT_SPEED <= wind_speed_ms w ->
   capacity_factor st = 0 /\ _estimate_capacity_factor (wind_speed_ms w) = 1).
Proof.
  intro st. subst st.
  pose proof (band_of_spec w) as B.
  pose proof (estimate_range (wind_speed_ms w)) as [R0 R1].
  assert (Hcf : capacity_factor (analyze_current_conditions w)
                = match band_of w with
                  | BandCutOut | BandIdle => 0
                  | BandSubOptimal => _estimate_capacity_factor (wind_speed_ms w)
                  | BandRated => 1
                  end).
  { rewrite classify_normal_form.
    destruct (band_of w), (icing_holds w); reflexivity. }
  rewrite Hcf. unfold CUT_IN_SPEED, RATED_SPEED, CUT_OUT_SPEED in B.
  split; [destruct (band_of w); (exact R0 || discriminate)|].
  split; [destruct (band_of w); (exact R1 || discriminate)|].
  split.
  - intros Hs Hg. unfold CUT_OUT_SPEED in Hs, Hg.
    destruct (band_of w).
    + exfalso. destruct B; lra.
    + symmetry. apply estimate_below_cut_in. unfold CUT_IN_SPEED. tauto.
    + reflexivity.
    + symmetry. apply estimate_at_rated. unfold RATED_SPEED. tauto.
  - intro Hs. unfold CUT_OUT_SPEED in Hs. split.
    + destruct (band_of w); [reflexivity | exfalso; lra ..].
    + apply estimate_at_rated. unfold RATED_SPEED. lra.
Qed.

(** X3.  Status label, colour and the operational flag of a
    classification go together: red is shutdown and is the only case that
    is not operational, orange is icing_risk and then the icing issue is
    the only issue, green is normal, and yellow is idle or sub_optimal.
    The colour is always one of these four. *)
Theorem classify_status_color (w : Weather) :
  let st := analyze_current_conditions w in
  (color st = "red"%string <-> status st = "shutdown"%string) /\
  (status st = "shutdown"%string <-> operational st = false) /\
  (color st = "orange"%string <-> status st = "icing_risk"%string) /\
  (status st = "icing_risk"%string ->
   issues st = [icing_issue (temperature_c w) (humidity_pct w)]) /\
  (color st = "yellow"%string <->
   status st = "idle"%string \/ status st = "sub_optimal"%string) /\
  In (color st) ["green"; "yellow"; "orange"; "red"]%string /\
  In (status st)
     ["normal"; "idle"; "sub_optimal"; "icing_risk"; "shutdown"]%string.
Proof.
  intro st. subst st. rewrite classify_normal_form.
  destruct (band_of w), (icing_holds w);
    cbn [status color operational issues];
    (split; [split; (reflexivity || discriminate)|]);
    (split; [split; (reflexivity || discriminate)|]);
    (split; [split; (reflexivity || discriminate)|]);
    (split; [(reflexivity || discriminate)|]);
    (split; [split; [ (discriminate || (intros _; auto))
                    | intros [H | H]; (reflexivity || discriminate) ]|]);
    split; cbn; tauto.
Qed.

End ClassifierExtras.

Module ExtractorExtras.
Import WindImpactAnalyzer Vocabulary AnalyzerVocabulary.
Import ClassifierFacts ExtractorFacts.

(** *** Where events come from *)

Lemma opened_at_ended (now : Z) (h0 hour : Weather) (o : OpenEvent) :
  opened_at now h0 (open_ended_event now o) ->
  opened_at now h0 (ended_event now o hour).
Proof. intros (first & rest & H). exists first, rest. exact H. Qed.

Lemma event_from_incl (l l' : list Weather) (now : Z) (e : Event) :
  incl l l' -> event_from l now e -> event_from l' now e.
Proof.
  intros Hincl (h0 & Hin & Hopen & Hend).
  exists h0. split; [apply Hincl, Hin|]. split; [exact Hopen|].
  destruct Hend as [Hend | (h1 & Hin1 & Hclosed)]; [now left|].
  right. exists h1. split; [apply Hincl, Hin1 | exact Hclosed].
Qed.

Lemma open_from_incl (l l' : list Weather) (now : Z) (o : OpenEvent) :
  incl l l' -> open_from l now o -> open_from l' now o.
Proof.
  intros Hincl (h0 & Hin & Hopen). exists h0.
  split; [apply Hincl, Hin | exact Hopen].
Qed.

Lemma origin_step (seen : list Weather) (now : Z) (st : LoopState)
  (hour : Weather) :
  origin_inv seen now st ->
  origin_inv (seen ++ [hour]) now (forecast_step now st hour).
Proof.
  intros [Hev Hop].
  assert (Hincl : incl seen (seen ++ [hour])) by (apply incl_appl, incl_refl).
  assert (Hhour : In hour (seen ++ [hour]))
    by (apply in_or_app; right; now left).
  unfold forecast_step.
  destruct (in_event st) as [o|] eqn:Hin;
    destruct (issues (analyze_current_conditions hour)) as [| first rest]
      eqn:His.
  - split; cbn [events in_event]; [|discriminate].
    intros e He. apply in_app_or in He. destruct He as [He | [<- | []]].
    + destruct (Hev e He) as [Hfrom Hend].
      split; [now apply (event_from_incl seen) | exact Hend].
    + destruct (Hop o eq_refl) as (h0 & Hin0 & Hopen). split; [|discriminate].
      exists h0. split; [apply Hincl, Hin0|].
      split; [now apply opened_at_ended|].
      right. exists hour. split; [exact Hhour|]. now split.
  - split.
    + intros e He. destruct (Hev e He) as [Hfrom Hend].
      split; [now apply (event_from_incl seen) | exact Hend].
    + intros o' Ho'. rewrite Hin in Ho'.
      apply (open_from_incl seen); [exact Hincl | now apply Hop].
  - split.
    + intros e He. destruct (Hev e He) as [Hfrom Hend].
      split; [now apply (event_from_incl seen) | exact Hend].
    + intros o' Ho'. rewrite Hin in Ho'. discriminate.
  - split; cbn [events in_event].
    + intros e He. destruct (Hev e He) as [Hfrom Hend].
      split; [now apply (event_from_incl seen) | exact Hend].
    + intros o' Ho'. injection Ho' as <-.
      exists hour. split; [exact Hhour|].
      exists first, rest. repeat split; try reflexivity. exact His.
Qed.

Lemma origin_fold (now : Z) (forecast : list Weather) :
  forall seen st,
    origin_inv seen now st ->
    origin_inv (seen ++ forecast) now
               (fold_left (forecast_step now) forecast st).
Proof.
  induction forecast as [| hour rest IH]; intros seen st Hinv; cbn.
  - now rewrite app_nil_r.
  - replace (seen ++ hour :: rest) with ((seen ++ [hour]) ++ rest)
      by (now rewrite <- app_assoc).
    apply IH. now apply origin_step.
Qed.

(** Every returned event opens at an impacted hour of the forecast and
    is either still open or closed by an issue-free hour of it. *)
Lemma analyze_forecast_origin (forecast : list Weather) (now : Z) (e : Event) :
  In e (analyze_forecast forecast now) -> event_from forecast now e.
Proof.
  unfold analyze_forecast.
  pose proof (origin_fold now forecast [] (mkLoopState [] None)) as Hinv.
  cbn [app] in Hinv.
  destruct Hinv as [Hev Hop].
  { split; cbn; [contradiction | discriminate]. }
  set (st := fold_left (forecast_step now) forecast _) in *.
  destruct (in_event st) as [o|] eqn:Hin.
  - intro He. apply in_app_or in He. destruct He as [He | [<- | []]].
    + apply Hev, He.
    + destruct (Hop o eq_refl) as (h0 & Hin0 & Hopen).
      exists h0. split; [exact Hin0|]. split; [exact Hopen|].
      left. now split.
  - intro He. apply Hev, He.
Qed.

Lemma max0_nonneg (eta : Q) : 0 <= max0 eta.
Proof.
  unfold max0. destruct (Qltb 0 eta) eqn:E; reflect_cmp; lra.
Qed.

(** Closed events end after they start when timestamps increase. *)
Lemma analyze_forecast_closed_later (forecast : list Weather) (now : Z) :
  increasing_timestamps forecast ->
  forall e t, In e (analyze_forecast forecast now) ->
              end_time e = Some t -> (start_time e < t)%Z.
Proof.
  intros Hinc e t. unfold analyze_forecast.
  destruct (inv_run now forecast Hinc) as (b & _ & Hclosed & _).
  set (st := fold_left (forecast_step now) forecast _) in *.
  assert (Hev : In e (events st) -> end_time e = Some t ->
                (start_time e < t)%Z).
  { intros He Ht. destruct (Hclosed e He) as (t' & Ht' & Hlt & _).
    congruence. }
  destruct (in_event st); [|exact Hev].
  intros He Ht. apply in_app_or in He. destruct He as [He | [<- | []]];
    [now apply Hev | discriminate].
Qed.

Lemma total_seconds_hours_pos (d : Z) :
  0 < total_seconds d / 3600 <-> (0 < d)%Z.
Proof.
  unfold total_seconds, Qdiv, Qlt, Qmult, Qinv, inject_Z. cbn. lia.
Qed.

(** X4.  Every event returned by [analyze_forecast] starts at the
    timestamp of a forecast hour that raises an issue and takes its type,
    severity and description from the first issue of that hour.  It has
    an end_time exactly when it has a duration; the end_time is then the
    timestamp of a forecast hour without issues and the duration is the
    time from start to end in hours. *)
Theorem event_provenance (forecast : list Weather) (now : Z) (e : Event)
  (He : In e (analyze_forecast forecast now)) :
  (exists h0 first rest,
     In h0 forecast /\
     issues (analyze_current_conditions h0) = first :: rest /\
     start_time e = timestamp h0 /\
     e_type e = i_type first /\ e_severity e = i_severity first /\
     e_description e = i_description first) /\
  (end_time e = None <-> duration_hours e = None) /\
  (forall t, end_time e = Some t ->
     exists h1, In h1 forecast /\ timestamp h1 = t /\
                issues (analyze_current_conditions h1) = [] /\
                duration_hours e
                = Some (total_seconds (t - start_time e) / 3600)).
Proof.
  destruct (analyze_forecast_origin forecast now e He)
    as (h0 & Hin0 & (first & rest & His & Hs & Hty & Hsev & Hd & _) & Hend).
  split; [exists h0, first, rest; repeat split; assumption|].
  destruct Hend as [[Hn Hdn] | (h1 & Hin1 & Hc & Het & Hdur)].
  - split; [now rewrite Hn, Hdn|]. intros t Ht. congruence.
  - split; [rewrite Het, Hdur; split; discriminate|].
    intros t Ht. exists h1. rewrite Het in Ht. injection Ht as <-.
    repeat split; assumption.
Qed.

Lemma event_provenance_witness :
  exists h1, In h1 [rated_hour 0; bad_hour hour_us; rated_hour (2 * hour_us)]
             /\ timestamp h1 = (2 * hour_us)%Z.
Proof.
  destruct (proj2 (proj2
    (event_provenance
       [rated_hour 0; bad_hour hour_us; rated_hour (2 * hour_us)] 0
       (ended_event 0 (mkOpenEvent hour_us "cut_out" "critical"
                         (HighWinds 30 30))
          (rated_hour (2 * hour_us)))
       (or_introl eq_refl))) (2 * hour_us)%Z eq_refl)
    as (h1 & Hin & Ht & _).
  exists h1. split; assumption.
Defined.

(** X5.  The ETA of every returned event is never negative, and the
    event is marked current exactly when its ETA is 0, that is when it
    starts at or before the reference time; otherwise it is marked
    upcoming and the ETA is the time to its start in hours. *)
Theorem event_eta_status (forecast : list Weather) (now : Z) (e : Event)
  (He : In e (analyze_forecast forecast now)) :
  0 <= eta_hours e /\
  (e_status e = "current"%string \/ e_status e = "upcoming"%string) /\
  (e_status e = "current"%string <-> (start_time e <= now)%Z) /\
  (e_status e = "current"%string <-> eta_hours e == 0) /\
  (e_status e = "upcoming"%string ->
   eta_hours e = total_seconds (start_time e - now) / 3600).
Proof.
  destruct (analyze_forecast_origin forecast now e He)
    as (h0 & _ & (first & rest & _ & Hs & _ & _ & _ & Heta & Hst) & _).
  rewrite Heta, Hst, Hs. unfold max0.
  pose proof (total_seconds_hours_pos (timestamp h0 - now)) as Hpos.
  destruct (Qltb 0 (total_seconds (timestamp h0 - now) / 3600)) eqn:E;
    reflect_cmp.
  - apply Hpos in E as E'. split; [lra|]. split; [now right|].
    split; [split; [discriminate | lia]|].
    split; [split; [discriminate | lra]|]. reflexivity.
  - split; [lra|]. split; [now left|].
    split; [split; [|reflexivity]|].
    + intros _.
      destruct (Z_le_gt_dec (timestamp h0) now) as [Hle | Hgt]; [exact Hle|].
      assert (0 < timestamp h0 - now)%Z as Hd by lia.
      apply Hpos in Hd. lra.
    + split; [split; reflexivity | discriminate].
Qed.

Lemma event_eta_status_witness :
  0 <= eta_hours (open_ended_event 0 (mkOpenEvent hour_us "cut_out"
                                        "critical" (HighWinds 30 30))).
Proof.
  refine (proj1 (event_eta_status [rated_hour 0; bad_hour hour_us] 0 _ _)).
  now left.
Defined.

(** X6.  On a forecast with strictly increasing timestamps every closed
    event lasts a positive time: its end_time is after its start_time and
    its duration_hours is positive. *)
Theorem closed_event_duration_positive (forecast : list Weather) (now : Z)
  (Hinc : increasing_timestamps forecast) (e : Event) (t : Z)
  (He : In e (analyze_forecast forecast now)) (Ht : end_time e = Some t) :
  (start_time e < t)%Z /\
  exists d, duration_hours e = Some d /\ 0 < d.
Proof.
  pose proof (analyze_forecast_closed_later forecast now Hinc e t He Ht)
    as Hlt.
  split; [exact Hlt|].
  destruct (analyze_forecast_origin forecast now e He)
    as (h0 & _ & _ & [[Hn _] | (h1 & _ & _ & Het & Hdur)]); [congruence|].
  eexists. split; [exact Hdur|].
  apply total_seconds_hours_pos. rewrite Het in Ht. injection Ht as <-. lia.
Qed.

Lemma closed_event_duration_positive_witness :
  exists d,
    duration_hours
      (ended_event 0 (mkOpenEvent hour_us "cut_out" "critical"
                        (HighWinds 30 30))
         (rated_hour (2 * hour_us))) = Some d /\ 0 < d.
Proof.
  refine (proj2 (closed_event_duration_positive
    [rated_hour 0; bad_hour hour_us; rated_hour (2 * hour_us)] 0 _ _
    (2 * hour_us)%Z (or_introl eq_refl) eq_refl)).
  unfold increasing_timestamps. cbn.
  repeat (constructor; [| repeat (constructor; [reflexivity|]);
                           constructor ]).
  constructor.
Defined.

(** *** Counting *)

Lemma hours_used_step (now : Z) (st : LoopState) (hour : Weather) :
  (hours_used (forecast_step now st hour) <= S (hours_used st))%nat.
Proof.
  unfold forecast_step, hours_used.
  destruct (in_event st) eqn:E, (issues (analyze_current_conditions hour));
    cbn [events in_event]; rewrite ?E, ?length_app; cbn [List.length]; lia.
Qed.

Lemma hours_used_fold (now : Z) (forecast : list Weather) :
  forall st,
    (hours_used (fold_left (forecast_step now) forecast st)
     <= hours_used st + List.length forecast)%nat.
Proof.
  induction forecast as [| hour rest IH]; intro st;
    cbn [fold_left List.length]; [lia|].
  specialize (IH (forecast_step now st hour)).
  pose proof (hours_used_step now st hour). lia.
Qed.

(** X7.  A forecast of n hours gives at most (n + 1) / 2 events: every
    closed event needs an impacted hour and an issue-free hour after it,
    and only the last event can do with a single hour. *)
Theorem event_count_bound (forecast : list Weather) (now : Z) :
  (2 * List.length (analyze_forecast forecast now)
   <= List.length forecast + 1)%nat.
Proof.
  unfold analyze_forecast.
  pose proof (hours_used_fold now forecast (mkLoopState [] None)) as H.
  unfold hours_used in H. cbn [events in_event List.length] in H.
  destruct (in_event (fold_left (forecast_step now) forecast _));
    rewrite ?length_app; cbn [List.length]; lia.
Qed.

(** *** Forecasts without a clean hour, and without an impacted hour *)

Lemma fold_stay_open (now : Z) (rest : list Weather) :
  forall st o,
    in_event st = Some o -> Forall impacted rest ->
    fold_left (forecast_step now) rest st = st.
Proof.
  induction rest as [| hour rest IH]; intros st o Hin Hall; [reflexivity|].
  apply Forall_cons_iff in Hall as [Hh Hall]. cbn.
  rewrite (step_stay now st hour)
    by (right; split; [congruence | exact Hh]).
  now apply (IH st o).
Qed.

Lemma fold_stay_idle (now : Z) (forecast : list Weather) :
  forall st,
    in_event st = None ->
    Forall (fun h => issues (analyze_current_conditions h) = []) forecast ->
    fold_left (forecast_step now) forecast st = st.
Proof.
  induction forecast as [| hour rest IH]; intros st Hin Hall; [reflexivity|].
  apply Forall_cons_iff in Hall as [Hh Hall]. cbn.
  rewrite (step_stay now st hour) by (left; now split).
  now apply IH.
Qed.

Lemma step_nonempty (now : Z) (st : LoopState) (hour : Weather) :
  events st <> [] \/ in_event st <> None ->
  events (forecast_step now st hour) <> [] \/
  in_event (forecast_step now st hour) <> None.
Proof.
  unfold forecast_step.
  destruct (in_event st) eqn:E,
    (issues (analyze_current_conditions hour));
    cbn [events in_event]; rewrite ?E; intros H.
  - left. intro Hnil. apply app_eq_nil in Hnil as [_ Hnil]. discriminate.
  - right. discriminate.
  - exact H.
  - right. discriminate.
Qed.

Lemma fold_nonempty (now : Z) (forecast : list Weather) :
  forall st,
    events st <> [] \/ in_event st <> None ->
    events (fold_left (forecast_step now) forecast st) <> [] \/
    in_event (fold_left (forecast_step now) forecast st) <> None.
Proof.
  induction forecast as [| hour rest IH]; intros st H; [exact H|].
  cbn. apply IH. now apply step_nonempty.
Qed.

Lemma all_impacted_result (h0 : Weather) (rest : list Weather) (now : Z)
  (first : Issue) (more : list Issue) :
  issues (analyze_current_conditions h0) = first :: more ->
  Forall impacted rest ->
  analyze_forecast (h0 :: rest) now
  = [open_ended_event now
       (mkOpenEvent (timestamp h0) (i_type first) (i_severity first)
          (i_description first))].
Proof.
  intros His Hrest. unfold analyze_forecast. cbn [fold_left].
  rewrite (step_start now (mkLoopState [] None) h0 first more eq_refl His).
  erewrite fold_stay_open; [| reflexivity | exact Hrest].
  reflexivity.
Qed.

(** X8.  When every hour of a non-empty forecast raises an issue, the
    result is exactly one event: it starts at the first hour, carries the
    first issue of that hour whatever the later hours bring, and has
    neither end_time nor duration. *)
Theorem all_impacted_one_open_event (h0 : Weather) (rest : list Weather)
  (now : Z) (H0 : impacted h0) (Hrest : Forall impacted rest) :
  exists e first more,
    analyze_forecast (h0 :: rest) now = [e] /\
    issues (analyze_current_conditions h0) = first :: more /\
    start_time e = timestamp h0 /\
    e_type e = i_type first /\ e_severity e = i_severity first /\
    end_time e = None /\ duration_hours e = None.
Proof.
  unfold impacted in H0.
  destruct (issues (analyze_current_conditions h0)) as [| first more] eqn:His;
    [contradiction|].
  rewrite (all_impacted_result h0 rest now first more His Hrest).
  eexists. exists first, more. repeat split.
Qed.

Lemma all_impacted_one_open_event_witness :
  exists e,
    analyze_forecast [ok_hour 0; bad_hour hour_us; bad_hour (2 * hour_us)] 0
    = [e] /\ e_severity e = "low"%string.
Proof.
  destruct (all_impacted_one_open_event (ok_hour 0)
              [bad_hour hour_us; bad_hour (2 * hour_us)] 0)
    as (e & first & more & He & His & _ & _ & Hsev & _).
  - discriminate.
  - repeat constructor; discriminate.
  - exists e. split; [exact He|].
    rewrite Hsev. vm_compute in His. injection His as <- _. reflexivity.
Defined.

(** X9.  The result is empty exactly when no hour of the forecast raises
    an issue. *)
Theorem no_event_iff_no_issue (forecast : list Weather) (now : Z) :
  analyze_forecast forecast now = [] <->
  Forall (fun h => issues (analyze_current_conditions h) = []) forecast.
Proof.
  split.
  - intro Hnil.
    induction forecast as [| hour rest IH]; [constructor|].
    destruct (issues (analyze_current_conditions hour)) as [| first more]
      eqn:His.
    + constructor; [exact His|]. apply IH.
      unfold analyze_forecast in *. cbn [fold_left] in Hnil.
      rewrite (step_stay now _ hour) in Hnil by (left; now split).
      exact Hnil.
    + exfalso. unfold analyze_forecast in Hnil. cbn [fold_left] in Hnil.
      rewrite (step_start now (mkLoopState [] None) hour first more
                 eq_refl His) in Hnil.
      destruct (fold_nonempty now rest
                  {| events := [];
                     in_event := Some (mkOpenEvent (timestamp hour)
                                         (i_type first) (i_severity first)
                                         (i_description first)) |})
        as [Hne | Hne]; [right; discriminate | |].
      * destruct (in_event (fold_left _ rest _)).
        -- apply app_eq_nil in Hnil as [_ E]. discriminate.
        -- contradiction.
      * destruct (in_event (fold_left _ rest _)).
        -- apply app_eq_nil in Hnil as [_ E]. discriminate.
        -- contradiction.
  - intro Hall. unfold analyze_forecast.
    now rewrite (fold_stay_idle now forecast (mkLoopState [] None)
                   eq_refl Hall).
Qed.

(** *** Extending the forecast *)

Lemma step_events_prefix (now : Z) (st : LoopState) (hour : Weather) :
  exists tail, events (forecast_step now st hour) = events st ++ tail.
Proof.
  unfold forecast_step.
  destruct (in_event st), (issues (analyze_current_conditions hour));
    cbn [events]; eauto using app_nil_r.
  all: exists []; now rewrite app_nil_r.
Qed.

Lemma fold_events_prefix (now : Z) (forecast : list Weather) :
  forall st, exists tail,
    events (fold_left (forecast_step now) forecast st) = events st ++ tail.
Proof.
  induction forecast as [| hour rest IH]; intro st; cbn [fold_left].
  - exists []. now rewrite app_nil_r.
  - destruct (IH (forecast_step now st hour)) as [tail Htail].
    destruct (step_events_prefix now st hour) as [tail0 Htail0].
    exists (tail0 ++ tail). now rewrite Htail, Htail0, app_assoc.
Qed.

(** What becomes of an open event over further hours: it stays as it is,
    or it is the first event to be closed. *)
Lemma fold_open_fate (now : Z) (forecast : list Weather) :
  forall st o,
    in_event st = Some o ->
    (in_event (fold_left (forecast_step now) forecast st) = Some o /\
     events (fold_left (forecast_step now) forecast st) = events st) \/
    (exists hour tail,
       In hour forecast /\
       events (fold_left (forecast_step now) forecast st)
       = events st ++ ended_event now o hour :: tail).
Proof.
  induction forecast as [| hour rest IH]; intros st o Hin; cbn [fold_left].
  - left. now split.
  - destruct (issues (analyze_current_conditions hour)) as [| first more]
      eqn:His.
    + right. rewrite (step_end now st hour o Hin His).
      destruct (fold_events_prefix now rest
                  {| events := events st ++ [ended_event now o hour];
                     in_event := None |}) as [tail Htail].
      exists hour, tail. split; [now left|].
      rewrite Htail. cbn [events]. now rewrite <- app_assoc.
    + rewrite (step_stay now st hour)
        by (right; split; [congruence | rewrite His; discriminate]).
      destruct (IH st o Hin) as [H | (h & tail & Hh & Hev)]; [now left|].
      right. exists h, tail. split; [now right | exact Hev].
Qed.

Lemma fold_closed_events (now : Z) (forecast : list Weather) :
  Forall (fun e => end_time e <> None)
    (events (fold_left (forecast_step now) forecast
                       {| events := []; in_event := None |})).
Proof.
  pose proof (origin_fold now forecast [] (mkLoopState [] None)) as Hinv.
  destruct Hinv as [Hev _].
  { split; cbn; [contradiction | discriminate]. }
  apply Forall_forall. intros e He. apply (Hev e He).
Qed.

(** X10.  Extending a forecast by further hours keeps, in place, every
    closed event found on the shorter forecast.  An event that was still
    open at the end of the shorter forecast comes next in the longer
    result with the same start, type, severity, description, ETA and
    status; only its end can have been filled in. *)
Theorem forecast_extension (f1 f2 : list Weather) (now : Z) :
  exists closed tail,
    analyze_forecast (f1 ++ f2) now = closed ++ tail /\
    Forall (fun e => end_time e <> None) closed /\
    (analyze_forecast f1 now = closed \/
     exists e e',
       analyze_forecast f1 now = closed ++ [e] /\ end_time e = None /\
       hd_error tail = Some e' /\ same_opening e e').
Proof.
  unfold analyze_forecast. rewrite fold_left_app.
  pose proof (fold_closed_events now f1) as Hclosed.
  set (st1 := fold_left (forecast_step now) f1 _) in *.
  exists (events st1).
  destruct (in_event st1) as [o|] eqn:Hin1.
  - destruct (fold_open_fate now f2 st1 o Hin1)
      as [[Hin2 Hev2] | (hour & tail & Hh & Hev2)].
    + exists [open_ended_event now o].
      rewrite Hin2, Hev2. split; [reflexivity|]. split; [exact Hclosed|].
      right. exists (open_ended_event now o), (open_ended_event now o).
      repeat split.
    + exists (ended_event now o hour :: tail
              ++ match in_event (fold_left (forecast_step now) f2 st1) with
                 | Some o' => [open_ended_event now o']
                 | None => []
                 end).
      split.
      * rewrite Hev2.
        destruct (in_event (fold_left (forecast_step now) f2 st1));
          now rewrite <- ?app_assoc, ?app_nil_r.
      * split; [exact Hclosed|]. right.
        exists (open_ended_event now o), (ended_event now o hour).
        repeat split.
  - destruct (fold_events_prefix now f2 st1) as [tail Htail].
    exists (tail
            ++ match in_event (fold_left (forecast_step now) f2 st1) with
               | Some o' => [open_ended_event now o']
               | None => []
               end).
    split.
    + rewrite Htail.
      destruct (in_event (fold_left (forecast_step now) f2 st1));
        now rewrite <- ?app_assoc, ?app_nil_r.
    + split; [exact Hclosed | now left].
Qed.

End ExtractorExtras.

Module AggregatorExtras.
Import WindImpactAnalyzer Vocabulary AnalyzerVocabulary.
Import ClassifierFacts ExtractorFacts AggregatorFacts.

Lemma first_match_split {A : Type} (f : A -> bool) (l : list A) :
  existsb f l = true ->
  exists pre x post,
    l = pre ++ x :: post /\ Forall (fun y => f y = false) pre /\ f x = true.
Proof.
  induction l as [| a l IH]; cbn; [discriminate|].
  destruct (f a) eqn:Ea; cbn.
  - intros _. exists [], a, l. repeat split; [constructor | exact Ea].
  - intro H. destruct (IH H) as (pre & x & post & -> & Hpre & Hx).
    exists (a :: pre), x, post. repeat split; [now constructor | exact Hx].
Qed.

Lemma last_match_split {A : Type} (f : A -> bool) (l : list A) :
  existsb f l = true ->
  exists pre x post,
    l = pre ++ x :: post /\ Forall (fun y => f y = false) post /\ f x = true.
Proof.
  induction l as [| a l IH]; cbn; [discriminate|].
  destruct (existsb f l) eqn:El.
  - intros _. destruct (IH eq_refl) as (pre & x & post & -> & Hpost & Hx).
    exists (a :: pre), x, post. repeat split; assumption.
  - rewrite orb_false_r. intro Ha. exists [], a, l. repeat split; [|exact Ha].
    apply Forall_forall. intros y Hy.
    destruct (f y) eqn:Ey; [|reflexivity].
    assert (existsb f l = true) by (apply existsb_exists; eauto).
    congruence.
Qed.

Lemma existsb_false_Forall {A : Type} (f : A -> bool) (l : list A) :
  existsb f l = false -> Forall (fun y => f y = false) l.
Proof.
  intro H. apply Forall_forall. intros y Hy.
  destruct (f y) eqn:Ey; [|reflexivity].
  assert (existsb f l = true) by (apply existsb_exists; eauto).
  congruence.
Qed.

(** The three outcomes of the scan. *)
Lemma scan_events_cases (o : Overall) (evs : list Event) :
  (exists e, In e evs /\ critical_match e = true /\
             priority_color (scan_events evs o) = "red"%string /\
             priority_issue (scan_events evs o) = Some (event_issue e)) \/
  (no_critical evs /\ priority_color o <> "red"%string /\
   exists e, In e evs /\ medium_match e = true /\
             priority_color (scan_events evs o) = "orange"%string /\
             priority_issue (scan_events evs o) = Some (event_issue e)) \/
  (no_critical evs /\ (priority_color o = "red"%string \/ no_medium evs) /\
   scan_events evs o = o).
Proof.
  destruct (existsb critical_match evs) eqn:Ec.
  - left. destruct (first_match_split _ _ Ec) as (pre & e & post & -> & Hp & He).
    exists e. split; [apply in_or_app; right; now left|].
    split; [exact He|].
    now rewrite (scan_events_first_critical pre o e post Hp He).
  - right. apply existsb_false_Forall in Ec.
    destruct (String.eqb (priority_color o) "red") eqn:Er.
    + right. apply String.eqb_eq in Er. split; [exact Ec|].
      split; [now left|]. now apply scan_events_red.
    + apply String.eqb_neq in Er.
      destruct (existsb medium_match evs) eqn:Em.
      * left. split; [exact Ec|]. split; [exact Er|].
        destruct (last_match_split _ _ Em)
          as (pre & e & post & -> & Hp & He).
        exists e. split; [apply in_or_app; right; now left|].
        split; [exact He|].
        now rewrite (scan_events_last_medium pre o e post Er Ec He Hp).
      * right. apply existsb_false_Forall in Em. split; [exact Ec|].
        split; [now right|]. now apply scan_events_no_match.
Qed.

Lemma classify_color_four (w : Weather) :
  In (color (analyze_current_conditions w))
     ["green"; "yellow"; "orange"; "red"]%string.
Proof.
  rewrite classify_normal_form.
  destruct (band_of w), (icing_holds w); cbn; tauto.
Qed.

(** X11.  For a current status produced by the classifier and any event
    list, the priority colour is one of green, yellow, orange and red and
    is never a lower tier than the current colour.  It is red exactly
    when the current colour is red or some event of the list has severity
    critical and eta_hours < 24. *)
Theorem priority_color_tier (w : Weather) (evs : list Event) :
  let cur := analyze_current_conditions w in
  let o := get_overall_status cur evs in
  In (priority_color o) ["green"; "yellow"; "orange"; "red"]%string /\
  (color_rank (color cur) <= color_rank (priority_color o))%nat /\
  (priority_color o = "red"%string <->
   color cur = "red"%string \/
   exists e, In e evs /\ critical_match e = true).
Proof.
  intros cur o. subst o. unfold get_overall_status.
  set (o0 := {| current := cur; upcoming_events := evs;
                priority_color := color cur; priority_issue := _ |}).
  pose proof (classify_color_four w) as Hfour. fold cur in Hfour.
  destruct (scan_events_cases o0 evs)
    as [(e & He & Hc & Hcol & _)
       | [(Hnc & Hnr & e & He & Hm & Hcol & _) | (Hnc & Hor & Heq)]].
  - rewrite Hcol. split; [cbn; tauto|]. split.
    + cbn in Hfour.
      destruct Hfour as [E | [E | [E | [E | []]]]];
        rewrite <- E; cbn; lia.
    + split; [intros _; right; eauto | reflexivity].
  - rewrite Hcol. cbn [priority_color o0] in Hnr. split; [cbn; tauto|]. split.
    + cbn in Hfour.
      destruct Hfour as [E | [E | [E | [E | []]]]];
        rewrite <- E in *; cbn; try lia.
      congruence.
    + split; [discriminate|]. intros [Hr | (e' & He' & Hc')].
      * congruence.
      * unfold no_critical in Hnc. rewrite Forall_forall in Hnc.
        rewrite (Hnc e' He') in Hc'. discriminate.
  - rewrite Heq. cbn [priority_color o0]. split; [exact Hfour|].
    split; [lia|]. split; [now left|].
    intros [Hr | (e' & He' & Hc')]; [exact Hr|].
    unfold no_critical in Hnc. rewrite Forall_forall in Hnc.
    rewrite (Hnc e' He') in Hc'. discriminate.
Qed.

(** The scan reads the two priority fields of its state only. *)
Lemma scan_events_priority_only (evs : list Event) :
  forall o o',
    priority_color o = priority_color o' ->
    priority_issue o = priority_issue o' ->
    priority_color (scan_events evs o) = priority_color (scan_events evs o') /\
    priority_issue (scan_events evs o) = priority_issue (scan_events evs o').
Proof.
  induction evs as [| e rest IH]; intros o o' Hc Hi; cbn; [now split|].
  destruct (_ && _); [now split|].
  rewrite Hc.
  destruct (_ && _); [destruct (negb _)|]; apply IH; cbn; auto.
Qed.

Lemma scan_events_filter (evs : list Event) :
  forall o, scan_events (filter qualifies evs) o = scan_events evs o.
Proof.
  induction evs as [| e rest IH]; intro o; cbn [filter]; [reflexivity|].
  unfold qualifies at 1.
  destruct (critical_match e) eqn:Ec; cbn [orb].
  - cbn. fold (critical_match e). now rewrite Ec.
  - destruct (medium_match e) eqn:Em.
    + cbn. fold (critical_match e). fold (medium_match e). rewrite Ec, Em.
      destruct (negb _); apply IH.
    + cbn [scan_events]. fold (critical_match e). fold (medium_match e).
      rewrite Ec, Em. apply IH.
Qed.

(** X12.  Events that pass neither test of the scan (severity low, a
    critical event 24 hours or more away, a medium event 12 hours or more
    away) have no effect on the priority: dropping them from the list
    leaves priority colour and priority issue unchanged. *)
Theorem priority_ignores_unqualified (cur : Status) (evs : list Event) :
  priority_color (get_overall_status cur (filter qualifies evs))
  = priority_color (get_overall_status cur evs) /\
  priority_issue (get_overall_status cur (filter qualifies evs))
  = priority_issue (get_overall_status cur evs).
Proof.
  unfold get_overall_status. rewrite scan_events_filter.
  apply scan_events_priority_only; reflexivity.
Qed.

(** X13.  A run of impacted hours is judged by its first hour only.
    When the first forecast hour is below rated speed (gust below
    cut-out) and no later hour is free of issues, the single event has
    severity low, so the priority colour and issue stay those of the
    current status, even if later hours of the run reach the cut-out
    speed. *)
Theorem low_start_masks_later_hours (cur : Status) (h0 : Weather)
  (rest : list Weather) (now : Z)
  (Hgust : wind_gust_ms h0 < CUT_OUT_SPEED)
  (Hspeed : wind_speed_ms h0 < RATED_SPEED)
  (Hrest : Forall impacted rest) :
  let o := get_overall_status cur (analyze_forecast (h0 :: rest) now) in
  List.length (upcoming_events o) = 1%nat /\
  priority_color o = color cur /\
  priority_issue o = hd_error (issues cur).
Proof.
  intro o. subst o.
  assert (Hlow : exists first more,
             issues (analyze_current_conditions h0) = first :: more /\
             i_severity first = "low"%string).
  { rewrite classify_normal_form.
    destruct (Qlt_le_dec (wind_speed_ms h0) CUT_IN_SPEED) as [Hlo | Hlo].
    - rewrite (band_idle h0 Hgust Hlo). cbn [issues]. eauto.
    - rewrite (band_sub_optimal h0 Hgust Hlo Hspeed). cbn [issues]. eauto. }
  destruct Hlow as (first & more & His & Hsev).
  rewrite (ExtractorExtras.all_impacted_result h0 rest now first more
             His Hrest).
  unfold get_overall_status. rewrite initial_priority_issue.
  rewrite scan_events_no_match.
  - cbn. repeat split.
  - repeat constructor. unfold critical_match. cbn. now rewrite Hsev.
  - repeat constructor. unfold medium_match. cbn. now rewrite Hsev.
Qed.

Lemma low_start_masks_later_hours_witness :
  priority_color
    (get_overall_status (analyze_current_conditions (rated_hour 0))
       (analyze_forecast
          [ok_hour hour_us; bad_hour (2 * hour_us); bad_hour (3 * hour_us)]
          0))
  = "green"%string.
Proof.
  refine (proj1 (proj2
    (low_start_masks_later_hours
       (analyze_current_conditions (rated_hour 0)) (ok_hour hour_us)
       [bad_hour (2 * hour_us); bad_hour (3 * hour_us)] 0 _ _ _))).
  - reflexivity.
  - reflexivity.
  - repeat constructor; discriminate.
Defined.

End AggregatorExtras.

(** * Further properties of the front tracker *)

Module SymbolExtras.
Import Doubles DoubleFacts WeatherFrontTracker FrontTrackerSymbols.
Import TrackerVocabulary.

Lemma floor_unique (x : Q) (z : Z) :
  inject_Z z <= x -> x < inject_Z (z + 1) -> Qfloor x = z.
Proof.
  intros Hlo Hhi.
  pose proof (Qfloor_le x) as Fl. pose proof (Qlt_floor x) as Fh.
  assert (H1 : (z < Qfloor x + 1)%Z).
  { rewrite Zlt_Qlt. eapply Qle_lt_trans; eauto. }
  assert (H2 : (Qfloor x < z + 1)%Z).
  { rewrite Zlt_Qlt. eapply Qle_lt_trans; eauto. }
  lia.
Qed.

Lemma floor_add_int (x : Q) (k : Z) :
  Qfloor (x + inject_Z k) = (Qfloor x + k)%Z.
Proof.
  apply floor_unique.
  - rewrite inject_Z_plus. pose proof (Qfloor_le x). lra.
  - pose proof (Qlt_floor x) as H.
    rewrite !inject_Z_plus in *. lra.
Qed.

(** For a non-negative direction [%] is [fmod], which is exact. *)
Lemma Qtrunc_nonneg (x : Q) : 0 <= x -> Qtrunc x = Qfloor x.
Proof. intro H. unfold Qtrunc. apply Qle_bool_iff in H. now rewrite H. Qed.

Lemma fmod_nonneg (x : Q) :
  0 <= x -> fmod x 360 = x - 360 * inject_Z (Qfloor (x / 360)).
Proof.
  intro H. unfold fmod. rewrite Qtrunc_nonneg; [reflexivity|].
  apply Qle_shift_div_l; [reflexivity | lra].
Qed.

Lemma fmod_360_range (x : Q) :
  0 <= x -> 0 <= fmod x 360 /\ fmod x 360 < 360.
Proof.
  intro H. rewrite (fmod_nonneg x H).
  pose proof (Qfloor_le (x / 360)) as Fl.
  pose proof (Qlt_floor (x / 360)) as Fh.
  rewrite inject_Z_plus in Fh.
  unfold Qdiv in *. change (/ 360) with (1 # 360) in *.
  set (q := inject_Z (Qfloor (x * (1 # 360)))) in *. clearbody q.
  change (inject_Z 1) with 1 in Fh.
  split; lra.
Qed.

Lemma py_mod_nonneg (ops : FloatOps) (x : Q) :
  0 <= x -> py_mod ops x 360 = fmod x 360.
Proof.
  intro H. unfold py_mod.
  destruct (fmod_360_range x H) as [H0 _].
  apply Qltb_ge in H0. rewrite H0.
  change (Qltb 360 0) with false. cbn [xorb]. now rewrite andb_false_r.
Qed.

(** For a negative direction the remainder of [fmod] is not positive,
    and above -360. *)
Lemma fmod_neg (x : Q) : x < 0 -> - (360) < fmod x 360 /\ fmod x 360 <= 0.
Proof.
  intro H. unfold fmod, Qtrunc.
  assert (Hq : x / 360 < 0).
  { apply Qlt_shift_div_r; [reflexivity | lra]. }
  destruct (Qle_bool 0 (x / 360)) eqn:E.
  - apply Qle_bool_iff in E. lra.
  - pose proof (Qle_ceiling (x / 360)) as Hc.
    pose proof (Qceiling_lt (x / 360)) as Hl.
    unfold Z.sub in Hl. rewrite inject_Z_plus in Hl.
    change (inject_Z (- (1))) with (- (1)) in Hl.
    unfold Qdiv in *. change (/ 360) with (1 # 360) in *.
    set (q := inject_Z (Qceiling (x * (1 # 360)))) in *. clearbody q.
    split; lra.
Qed.

Lemma py_mod_neg (ops : FloatOps) (x : Q) :
  x < 0 ->
  (fmod x 360 == 0 -> py_mod ops x 360 = fmod x 360) /\
  (~ fmod x 360 == 0 -> py_mod ops x 360 = fadd ops (fmod x 360) 360).
Proof.
  intro H. pose proof (fmod_neg x H) as [_ Hle]. unfold py_mod.
  change (Qltb 360 0) with false. cbn [xorb]. split; intro E.
  - apply Qeq_bool_iff in E. now rewrite E.
  - destruct (Qeq_bool (fmod x 360) 0) eqn:E';
      [apply Qeq_bool_iff in E'; contradiction|].
    cbn [negb andb].
    assert (Hlt : Qltb (fmod x 360) 0 = true).
    { apply Qltb_lt. apply Qle_lteq in Hle as [Hlt | Heq];
        [exact Hlt | contradiction]. }
    now rewrite Hlt.
Qed.

(** The sector of a direction is the sector of its value modulo 360. *)
Lemma sector_fmod (d : Q) : 0 <= d -> sector (fmod d 360) = sector d.
Proof.
  intro H. rewrite (fmod_nonneg d H). unfold sector.
  set (q := Qfloor (d / 360)).
  assert (E : (d + (225 # 10)) / 45
              == (d - 360 * inject_Z q + (225 # 10)) / 45
                 + inject_Z (8 * q)).
  { rewrite inject_Z_mult. field. }
  rewrite (Qfloor_comp _ _ E), floor_add_int.
  rewrite (Z.mul_comm 8 q). symmetry. apply Z.mod_add. lia.
Qed.

Lemma sector_in_range (m : Q) (k : Z) :
  inject_Z k * 45 - (225 # 10) <= m ->
  m < inject_Z k * 45 + (225 # 10) ->
  sector m = (k mod 8)%Z.
Proof.
  intros Hlo Hhi. unfold sector. f_equal. apply floor_unique.
  - unfold Qdiv. change (/ 45) with (1 # 45).
    set (q := inject_Z k) in *. clearbody q. lra.
  - rewrite inject_Z_plus. unfold Qdiv. change (/ 45) with (1 # 45).
    change (inject_Z 1) with 1.
    set (q := inject_Z k) in *. clearbody q. lra.
Qed.

Lemma between_false (a b m : Q) :
  Qleb a m && Qltb m b = false -> m < a \/ b <= m.
Proof.
  intro H. apply andb_false_iff in H as [H | H].
  - left. now apply Qleb_gt.
  - right. now apply Qltb_ge.
Qed.

Lemma between_true (a b m : Q) :
  Qleb a m && Qltb m b = true -> a <= m /\ m < b.
Proof.
  intro H. apply andb_true_iff in H as [H1 H2].
  split; [now apply Qleb_le | now apply Qltb_lt].
Qed.

(** The chain of comparisons picks the arrow of the sector of the value
    that [%] returns. *)
Lemma arrow_chain (ops : FloatOps) (d m : Q) :
  py_mod ops d 360 = m -> 0 <= m -> m <= 360 ->
  get_wind_arrow ops d = arrow_of_sector (sector m).
Proof.
  intros Hm M0 M1. unfold get_wind_arrow. rewrite Hm. clear Hm.
  destruct (Qleb (3375 # 10) m || Qltb m (225 # 10)) eqn:E0.
  { apply orb_true_iff in E0 as [E0 | E0].
    - apply Qleb_le in E0.
      rewrite (sector_in_range m 8); [reflexivity | unfold inject_Z; lra ..].
    - apply Qltb_lt in E0.
      rewrite (sector_in_range m 0); [reflexivity | unfold inject_Z; lra ..]. }
  apply orb_false_iff in E0 as [E0 E0'].
  apply Qleb_gt in E0. apply Qltb_ge in E0'.
  destruct (Qleb (225 # 10) m && Qltb m (675 # 10)) eqn:E1.
  { apply between_true in E1.
    rewrite (sector_in_range m 1); [reflexivity | unfold inject_Z; lra ..]. }
  apply between_false in E1.
  destruct (Qleb (675 # 10) m && Qltb m (1125 # 10)) eqn:E2.
  { apply between_true in E2.
    rewrite (sector_in_range m 2); [reflexivity | unfold inject_Z; lra ..]. }
  apply between_false in E2.
  destruct (Qleb (1125 # 10) m && Qltb m (1575 # 10)) eqn:E3.
  { apply between_true in E3.
    rewrite (sector_in_range m 3); [reflexivity | unfold inject_Z; lra ..]. }
  apply between_false in E3.
  destruct (Qleb (1575 # 10) m && Qltb m (2025 # 10)) eqn:E4.
  { apply between_true in E4.
    rewrite (sector_in_range m 4); [reflexivity | unfold inject_Z; lra ..]. }
  apply between_false in E4.
  destruct (Qleb (2025 # 10) m && Qltb m (2475 # 10)) eqn:E5.
  { apply between_true in E5.
    rewrite (sector_in_range m 5); [reflexivity | unfold inject_Z; lra ..]. }
  apply between_false in E5.
  destruct (Qleb (2475 # 10) m && Qltb m (2925 # 10)) eqn:E6.
  { apply between_true in E6.
    rewrite (sector_in_range m 6); [reflexivity | unfold inject_Z; lra ..]. }
  apply between_false in E6.
  rewrite (sector_in_range m 7); [reflexivity | unfold inject_Z; lra ..].
Qed.

Lemma wind_arrow_is_sector_arrow (ops : FloatOps) (d : Q) :
  0 <= d -> get_wind_arrow ops d = arrow_of_sector (sector d).
Proof.
  intro H. rewrite <- (sector_fmod d H).
  destruct (fmod_360_range d H) as [M0 M1].
  apply arrow_chain; [now apply py_mod_nonneg | exact M0 | lra].
Qed.

Lemma sector_turn (d : Q) (k : Z) :
  sector (d + 45 * inject_Z k) = ((sector d + k) mod 8)%Z.
Proof.
  unfold sector.
  assert (E : (d + 45 * inject_Z k + (225 # 10)) / 45
              == (d + (225 # 10)) / 45 + inject_Z k) by field.
  rewrite (Qfloor_comp _ _ E), floor_add_int.
  now rewrite Z.add_mod_idemp_l by lia.
Qed.

(** X14.  For a direction of 0 degrees or more, however large,
    [get_wind_arrow] returns the arrow of the 45-degree sector the
    direction falls in, the sectors being centred on north, north-east,
    and so on.  Turning the direction by k times 45 degrees, to a
    direction that is still not negative, moves the arrow k places
    clockwise round the compass; a full turn of 360 degrees gives the same
    arrow and a half turn the opposite one.  For a negative direction
    [%] adds 360 to a negative remainder, and the sum is rounded: the
    arrow is north when the remainder is 0, and otherwise, in IEEE
    arithmetic, the arrow of the sector of the rounded sum, which lies
    between 0 and 360, both included. *)
Theorem wind_arrow_sectors (ops : FloatOps) (d : Q) (k : Z)
  (Hd : 0 <= d) (Hk : 0 <= d + 45 * inject_Z k) :
  get_wind_arrow ops d = arrow_of_sector (sector d) /\
  (0 <= sector d < 8)%Z /\
  get_wind_arrow ops (d + 45 * inject_Z k)
  = arrow_of_sector ((sector d + k) mod 8) /\
  get_wind_arrow ops (d + 360) = get_wind_arrow ops d /\
  get_wind_arrow ops (d + 180) = arrow_of_sector ((sector d + 4) mod 8) /\
  (forall x, x < 0 ->
     (fmod x 360 == 0 -> get_wind_arrow ops x = "↑"%string) /\
     (~ fmod x 360 == 0 -> ieee ops ->
      0 <= fl ops (fmod x 360 + 360) <= 360 /\
      get_wind_arrow ops x
      = arrow_of_sector (sector (fl ops (fmod x 360 + 360))))).
Proof.
  split; [now apply wind_arrow_is_sector_arrow|].
  split; [unfold sector; apply Z.mod_pos_bound; lia|].
  split; [now rewrite wind_arrow_is_sector_arrow, sector_turn|].
  split; [|split].
  - rewrite !wind_arrow_is_sector_arrow by lra.
    change (d + 360) with (d + 45 * inject_Z 8). rewrite sector_turn.
    rewrite Z.add_mod by lia. change (8 mod 8)%Z with 0%Z.
    rewrite Z.add_0_r, Z.mod_mod by lia.
    unfold sector. now rewrite Z.mod_mod by lia.
  - rewrite wind_arrow_is_sector_arrow by lra.
    change (d + 180) with (d + 45 * inject_Z 4). now rewrite sector_turn.
  - intros x Hx. destruct (py_mod_neg ops x Hx) as [Hzero Hrest].
    split.
    + intro E. rewrite (arrow_chain ops x (fmod x 360) (Hzero E));
        [|rewrite E; discriminate ..].
      rewrite (sector_in_range (fmod x 360) 0);
        [reflexivity | rewrite E; first [reflexivity | discriminate] ..].
    + intros E Hops. destruct (fmod_neg x Hx) as [Hlo Hhi].
      assert (V0 : 0 <= fl ops (fmod x 360 + 360)).
      { apply Qle_trans with (fl ops (inject_Z 0)).
        - rewrite (fl_int ops Hops 0) by lia. apply Qle_refl.
        - apply (fl_mono ops Hops). change (inject_Z 0) with 0. lra. }
      assert (V1 : fl ops (fmod x 360 + 360) <= 360).
      { apply Qle_trans with (fl ops (inject_Z 360)).
        - apply (fl_mono ops Hops). change (inject_Z 360) with 360. lra.
        - rewrite (fl_int ops Hops 360) by lia. apply Qle_refl. }
      split; [now split|].
      now apply arrow_chain; [apply Hrest | |].
Qed.

Lemma wind_arrow_sectors_witness :
  get_wind_arrow binary64_ops 350 = "↑"%string /\
  get_wind_arrow binary64_ops (350 + 45 * inject_Z 1) = "↗"%string.
Proof.
  destruct (wind_arrow_sectors binary64_ops 350 1) as (H1 & _ & H2 & _).
  - discriminate.
  - discriminate.
  - split; [exact H1 | exact H2].
Defined.

(** The double next below -22.5 lies in the north-west sector; 360 added
    to it rounds to 337.5, and the arrow is the north one. *)
Example wind_arrow_rounds_north :
  literal (-22500000000000004 # 1000000000000000) < - (225 # 10) /\
  sector (literal (-22500000000000004 # 1000000000000000)) = 7%Z /\
  get_wind_arrow binary64_ops
    (literal (-22500000000000004 # 1000000000000000)) = "↑"%string.
Proof. repeat split; vm_compute; reflexivity. Qed.

(** *** Weather symbols and descriptions *)

Lemma code_in_In (code : Z) (l : list Z) : code_in code l = true -> In code l.
Proof.
  unfold code_in. intro H. apply existsb_exists in H as (x & Hx & E).
  apply Z.eqb_eq in E. now subst.
Qed.

(** The codes that [get_weather_symbol] tests for. *)
Lemma weather_symbol_cases (code : Z) :
  (code = 0%Z /\ get_weather_symbol code = symbol "sun") \/
  (In code [45; 48]%Z /\ get_weather_symbol code = symbol "fog") \/
  (In code [51; 53; 55; 61; 63; 65; 80; 81; 82]%Z /\
   get_weather_symbol code = symbol "rain") \/
  (In code [71; 73; 75; 77; 85; 86]%Z /\
   get_weather_symbol code = symbol "snow") \/
  (In code [95; 96; 99]%Z /\ get_weather_symbol code = symbol "storm") \/
  get_weather_symbol code = symbol "cloud".
Proof.
  unfold get_weather_symbol.
  destruct (Z.eqb code 0) eqn:E0; [left; apply Z.eqb_eq in E0; now split|].
  destruct (code_in code [1; 2; 3]%Z); [tauto|].
  destruct (code_in code [45; 48]%Z) eqn:E2;
    [right; left; split; [now apply code_in_In | reflexivity]|].
  destruct (code_in code [51; 53; 55; 61; 63; 65; 80; 81; 82]%Z) eqn:E3;
    [right; right; left; split; [now apply code_in_In | reflexivity]|].
  destruct (code_in code [71; 73; 75; 77; 85; 86]%Z) eqn:E4;
    [right; right; right; left; split; [now apply code_in_In | reflexivity]|].
  destruct (code_in code [95; 96; 99]%Z) eqn:E5;
    [right; right; right; right; left;
     split; [now apply code_in_In | reflexivity]|].
  tauto.
Qed.

Ltac each_code H :=
  cbn in H;
  repeat (destruct H as [H | H]; [subst; try (vm_compute; congruence)|]);
  try contradiction.

(** X15.  [get_weather_symbol] returns one of the six weather symbols
    for every code and never fails.  A code that the description table
    of the fetcher does not know (described as "Code n") is always drawn
    as a cloud; conversely every code drawn as sun, fog, rain, snow or
    storm has a named description. *)
Theorem weather_symbol_described (code : Z) :
  In (get_weather_symbol code) ["☀"; "☁"; "🌫"; "🌧"; "❄"; "⛈"]%string /\
  (WeatherFetcher.codes_get code = None ->
   get_weather_symbol code = "☁"%string /\
   WeatherFetcher._weather_code_description code
   = ("Code " ++ NilZero.string_of_int (Z.to_int code))%string) /\
  (get_weather_symbol code <> "☁"%string ->
   exists name, WeatherFetcher.codes_get code = Some name /\
                WeatherFetcher._weather_code_description code = name).
Proof.
  assert (Hknown : get_weather_symbol code <> "☁"%string ->
                   exists name, WeatherFetcher.codes_get code = Some name).
  { intro Hne.
    destruct (weather_symbol_cases code)
      as [[-> _] | [[H _] | [[H _] | [[H _] | [[H _] | H]]]]].
    - eexists. reflexivity.
    - each_code H; eexists; reflexivity.
    - each_code H; eexists; reflexivity.
    - each_code H; eexists; reflexivity.
    - each_code H; eexists; reflexivity.
    - contradiction. }
  split; [|split].
  - destruct (weather_symbol_cases code)
      as [[_ ->] | [[_ ->] | [[_ ->] | [[_ ->] | [[_ ->] | ->]]]]];
      cbn; tauto.
  - intro Hnone. split.
    + destruct (string_dec (get_weather_symbol code) "☁") as [E | N];
        [exact E|].
      destruct (Hknown N) as [name Hname]. congruence.
    + unfold WeatherFetcher._weather_code_description. now rewrite Hnone.
  - intro Hne. destruct (Hknown Hne) as [name Hname].
    exists name. split; [exact Hname|].
    unfold WeatherFetcher._weather_code_description. now rewrite Hname.
Qed.

Lemma weather_symbol_described_witness :
  get_weather_symbol 7 = "☁"%string /\
  WeatherFetcher._weather_code_description 7 = "Code 7"%string.
Proof.
  exact (proj1 (proj2 (weather_symbol_described 7)) eq_refl).
Defined.

End SymbolExtras.

Module MotionExtras.
Import Doubles DoubleFacts WeatherFrontTracker GridVocabulary.
Import FrontTrackerSymbols TrackerVocabulary SymbolExtras.

Lemma get_wind_arrow_compat (ops : FloatOps) (x y : Q) :
  0 <= x -> x == y -> get_wind_arrow ops x = get_wind_arrow ops y.
Proof.
  intros H E.
  rewrite !wind_arrow_is_sector_arrow by (rewrite <- ?E; exact H).
  unfold sector.
  assert (E' : (x + (225 # 10)) / 45 == (y + (225 # 10)) / 45)
    by (rewrite E; reflexivity).
  now rewrite (Qfloor_comp _ _ E').
Qed.

(** The mean of two doubles: their rounded sum, halved. *)
Lemma mean_pair (ops : FloatOps) (a b : Q) :
  mean ops [a; b]
  = Some (fl ops (fl ops (fl ops (0 + a) + b) / inject_Z 2)).
Proof. reflexivity. Qed.

(** X17.  The direction of motion is the plain mean of the wind
    directions, with no account of the wrap at 0/360: for two points
    whose winds are d and 360 - d with 0 <= d < 22.5, both drawn with the
    north arrow, the reported direction is 180 and is drawn with the
    south arrow.  The sum of the two directions is 360 and the mean is
    180 in double arithmetic as well. *)
Theorem motion_direction_wraps (ops : FloatOps) (p q : GridPoint) (d : Q)
  (Hops : ieee ops) (Hdouble : fl ops d == d)
  (Hd0 : 0 <= d) (Hd1 : d < 225 # 10)
  (Hp : wind_direction p == d) (Hq : wind_direction q == 360 - d) :
  exists fv,
    calculate_front_velocity ops [p; q] = Some fv /\
    direction_deg fv == 180 /\
    get_wind_arrow ops (wind_direction p) = "↑"%string /\
    get_wind_arrow ops (wind_direction q) = "↑"%string /\
    get_wind_arrow ops (direction_deg fv) = "↓"%string.
Proof.
  unfold calculate_front_velocity. cbn [map]. rewrite !mean_pair.
  eexists. split; [reflexivity|]. cbn [direction_deg].
  assert (E0 : fl ops (0 + wind_direction p) == d).
  { transitivity (fl ops d); [|exact Hdouble].
    apply (fl_compat ops Hops). rewrite Hp. ring. }
  assert (E1 : fl ops (fl ops (0 + wind_direction p) + wind_direction q)
               == 360).
  { apply (fl_exact ops _ 360 Hops); [lia|]. rewrite E0, Hq. cbn. ring. }
  assert (E : fl ops (fl ops (fl ops (0 + wind_direction p)
                              + wind_direction q) / inject_Z 2) == 180).
  { apply (fl_exact ops _ 180 Hops); [lia|]. rewrite E1. reflexivity. }
  split; [exact E|]. split; [|split].
  - rewrite (get_wind_arrow_compat ops (wind_direction p) d)
      by first [exact Hp | rewrite Hp; exact Hd0].
    rewrite wind_arrow_is_sector_arrow by exact Hd0.
    rewrite (sector_in_range d 0); [reflexivity | unfold inject_Z; lra ..].
  - rewrite (get_wind_arrow_compat ops (wind_direction q) (360 - d))
      by first [exact Hq | rewrite Hq; lra].
    rewrite wind_arrow_is_sector_arrow by lra.
    rewrite (sector_in_range (360 - d) 8);
      [reflexivity | unfold inject_Z; lra ..].
  - rewrite (get_wind_arrow_compat ops _ 180)
      by first [exact E | rewrite E; discriminate].
    rewrite wind_arrow_is_sector_arrow by discriminate. reflexivity.
Qed.

Lemma motion_direction_wraps_witness :
  exists fv,
    calculate_front_velocity binary64_ops
      [mkGridPoint 50 0 10 1010 0 5 10 0 (mkHourly [] [] [] [] []);
       mkGridPoint 51 0 10 1010 0 5 350 0 (mkHourly [] [] [] [] [])]
    = Some fv /\ direction_deg fv == 180.
Proof.
  destruct (motion_direction_wraps binary64_ops
              (mkGridPoint 50 0 10 1010 0 5 10 0 (mkHourly [] [] [] [] []))
              (mkGridPoint 51 0 10 1010 0 5 350 0 (mkHourly [] [] [] [] []))
              10 binary64_ieee) as (fv & H & E & _);
    try reflexivity; try discriminate.
  exists fv. split; assumption.
Defined.

(** The mean of three doubles can exceed them all: for three winds of
    0.1 m/s the sum rounds up, and so does the mean. *)
Example mean_above_maximum :
  exists m,
    mean binary64_ops [literal (1 # 10); literal (1 # 10); literal (1 # 10)]
    = Some m /\ literal (1 # 10) < m.
Proof. eexists. split; [reflexivity|]. vm_compute. reflexivity. Qed.

(** *** Bounds of the mean *)

Section MeanBounds.
Variable ops : FloatOps.
Hypothesis Hops : ieee ops.
Variables lo hi : Z.
Variable n : nat.
Hypothesis Hsize : (Z.of_nat n * Z.max (Z.abs lo) (Z.abs hi) <= 2 ^ 53)%Z.

Lemma small_count (c : nat) :
  (c <= n)%nat ->
  (Z.abs (Z.of_nat c * lo) <= 2 ^ 53)%Z /\
  (Z.abs (Z.of_nat c * hi) <= 2 ^ 53)%Z.
Proof.
  intro Hc. rewrite !Z.abs_mul, (Z.abs_eq (Z.of_nat c)) by lia.
  assert (H0 : (Z.of_nat c <= Z.of_nat n)%Z) by lia.
  assert (H1 : (0 <= Z.of_nat c)%Z) by lia.
  pose proof (Z.abs_nonneg lo). pose proof (Z.abs_nonneg hi).
  pose proof (Z.le_max_l (Z.abs lo) (Z.abs hi)).
  pose proof (Z.le_max_r (Z.abs lo) (Z.abs hi)).
  split; nia.
Qed.

Lemma between_eq (c c' : nat) (s : Q) :
  c = c' -> between lo hi c s -> between lo hi c' s.
Proof. now intros ->. Qed.

Lemma between_zero : between lo hi 0 0.
Proof. split; apply Qle_refl. Qed.

Lemma between_one (x : Q) : bounded lo hi x -> between lo hi 1 x.
Proof.
  intros [H0 H1]. unfold between. change (Z.of_nat 1) with 1%Z.
  rewrite !Z.mul_1_l. now split.
Qed.

(** The rounded sum of two sums is within the bounds of as many values
    as the two together. *)
Lemma between_add (c1 c2 : nat) (s1 s2 : Q) :
  (c1 + c2 <= n)%nat -> between lo hi c1 s1 -> between lo hi c2 s2 ->
  between lo hi (c1 + c2) (fadd ops s1 s2).
Proof.
  intros Hc [L1 U1] [L2 U2].
  destruct (small_count _ Hc) as [Hlo Hhi].
  assert (E : forall b : Z,
            inject_Z (Z.of_nat (c1 + c2) * b)
            == inject_Z (Z.of_nat c1 * b) + inject_Z (Z.of_nat c2 * b)).
  { intro b. rewrite <- inject_Z_plus, Nat2Z.inj_add, Z.mul_add_distr_r.
    reflexivity. }
  unfold between, fadd. split.
  - apply Qle_trans with (fl ops (inject_Z (Z.of_nat (c1 + c2) * lo))).
    + rewrite (fl_int ops Hops _ Hlo). apply Qle_refl.
    + apply (fl_mono ops Hops). rewrite E. lra.
  - apply Qle_trans with (fl ops (inject_Z (Z.of_nat (c1 + c2) * hi))).
    + apply (fl_mono ops Hops). rewrite E. lra.
    + rewrite (fl_int ops Hops _ Hhi). apply Qle_refl.
Qed.

Lemma between_fold (l : list Q) :
  forall (c : nat) (s : Q),
    Forall (bounded lo hi) l -> (c + List.length l <= n)%nat ->
    between lo hi c s ->
    between lo hi (c + List.length l) (fold_left (fadd ops) l s).
Proof.
  induction l as [| x l IH]; intros c s Hall Hc Hs.
  - cbn [fold_left List.length]. now apply (between_eq c); [lia|].
  - cbn [fold_left List.length] in *. inversion Hall as [| ? ? Hx Hl]; subst.
    apply (between_eq (c + 1 + List.length l)); [lia|].
    apply IH; [exact Hl | lia |].
    apply between_add; [lia | exact Hs | now apply between_one].
Qed.

Lemma lane_In (j : nat) (a : list Q) (x : Q) : In x (lane j a) -> In x a.
Proof.
  unfold lane. intro H. apply in_map_iff in H as ([i y] & E & H).
  cbn [snd] in E. subst y. apply filter_In in H as [H _].
  now apply in_combine_r in H.
Qed.

Lemma lane_length (j : nat) (a : list Q) :
  List.length (lane j a)
  = List.length (filter (fun ix : nat * Q => (fst ix mod 8 =? j)%nat)
                        (combine (seq 0 (List.length a)) a)).
Proof. unfold lane. apply length_map. Qed.

(** Every value is in exactly one of the eight lanes. *)
Lemma filter_lanes (l : list (nat * Q)) :
  let len := fun j =>
    List.length (filter (fun ix : nat * Q => (fst ix mod 8 =? j)%nat) l) in
  (len 0 + len 1 + len 2 + len 3 + len 4 + len 5 + len 6 + len 7
   = List.length l)%nat.
Proof.
  cbv zeta. induction l as [| ix l IH]; [reflexivity|].
  cbn [filter List.length].
  pose proof (Nat.mod_upper_bound (fst ix) 8 ltac:(discriminate)) as Hm.
  destruct (fst ix mod 8)%nat as [|[|[|[|[|[|[|[|k]]]]]]]];
    cbn [Nat.eqb List.length]; lia.
Qed.

Lemma lane_lengths (a : list Q) :
  (List.length (lane 0 a) + List.length (lane 1 a)
   + List.length (lane 2 a) + List.length (lane 3 a)
   + List.length (lane 4 a) + List.length (lane 5 a)
   + List.length (lane 6 a) + List.length (lane 7 a)
   = List.length a)%nat.
Proof.
  rewrite !lane_length.
  rewrite (filter_lanes (combine (seq 0 (List.length a)) a)).
  rewrite length_combine, length_seq. apply Nat.min_id.
Qed.

Lemma between_lane_sum (j : nat) (a : list Q) :
  Forall (bounded lo hi) a -> (List.length (lane j a) <= n)%nat ->
  between lo hi (List.length (lane j a)) (lane_sum ops j a).
Proof.
  intros Hall Hlen.
  assert (Hl : Forall (bounded lo hi) (lane j a)).
  { apply Forall_forall. intros x Hx.
    apply (proj1 (Forall_forall _ _) Hall). now apply lane_In in Hx. }
  unfold lane_sum. destruct (lane j a) as [| x rest].
  - apply between_zero.
  - inversion Hl as [| ? ? Hx Hrest]; subst.
    cbn [List.length] in *.
    apply (between_eq (1 + List.length rest)); [lia|].
    apply between_fold; [exact Hrest | lia | now apply between_one].
Qed.

Lemma pairwise_sum_unfold (fuel : nat) (a : list Q) :
  pairwise_sum ops fuel a
  = let n := List.length a in
    if (n <? 8)%nat then fold_left (fadd ops) a 0
    else if (n <=? 128)%nat then
      let blocks := (n - n mod 8)%nat in
      let r := fun j => lane_sum ops j (firstn blocks a) in
      let res := fadd ops (fadd ops (fadd ops (r 0%nat) (r 1%nat))
                                    (fadd ops (r 2%nat) (r 3%nat)))
                          (fadd ops (fadd ops (r 4%nat) (r 5%nat))
                                    (fadd ops (r 6%nat) (r 7%nat))) in
      fold_left (fadd ops) (skipn blocks a) res
    else
      match fuel with
      | O => 0
      | S fuel' =>
          let n2 := (n / 2)%nat in
          let n2 := (n2 - n2 mod 8)%nat in
          fadd ops (pairwise_sum ops fuel' (firstn n2 a))
                   (pairwise_sum ops fuel' (skipn n2 a))
      end.
Proof. destruct fuel; reflexivity. Qed.

Lemma Forall_split (k : nat) (a : list Q) :
  Forall (bounded lo hi) a ->
  Forall (bounded lo hi) (firstn k a) /\ Forall (bounded lo hi) (skipn k a).
Proof.
  intro H. rewrite <- (firstn_skipn k a) in H.
  now apply Forall_app in H.
Qed.

(** The sum of a list of bounded values, taken pairwise, is within the
    bounds of as many values as the list has. *)
Lemma between_pairwise_sum (fuel : nat) :
  forall a : list Q,
    Forall (bounded lo hi) a -> (List.length a <= fuel)%nat ->
    (List.length a <= n)%nat ->
    between lo hi (List.length a) (pairwise_sum ops fuel a).
Proof.
  induction fuel as [| fuel IH]; intros a Hall Hfuel Hn;
    rewrite pairwise_sum_unfold; cbv zeta.
  - destruct a; [|cbn [List.length] in Hfuel; lia].
    cbn. apply between_zero.
  - destruct (Nat.ltb_spec (List.length a) 8) as [H8 | H8].
    { apply (between_eq (0 + List.length a)); [lia|].
      apply between_fold; [exact Hall | lia | apply between_zero]. }
    destruct (Nat.leb_spec (List.length a) 128) as [H128 | H128].
    + set (blocks := (List.length a - List.length a mod 8)%nat).
      pose proof (Nat.Div0.mod_le (List.length a) 8) as Hm.
      destruct (Forall_split blocks a Hall) as [H1 H2].
      assert (L1 : List.length (firstn blocks a) = blocks)
        by (apply firstn_length_le; unfold blocks; lia).
      assert (L2 : List.length (skipn blocks a)
                   = (List.length a - blocks)%nat) by apply length_skipn.
      pose proof (lane_lengths (firstn blocks a)) as LL.
      set (a1 := firstn blocks a) in *.
      assert (R : forall j, between lo hi (List.length (lane j a1))
                                    (lane_sum ops j a1)).
      { intro j. apply between_lane_sum; [exact H1|].
        rewrite lane_length.
        pose proof (filter_length_le
                      (fun ix : nat * Q => (fst ix mod 8 =? j)%nat)
                      (combine (seq 0 (List.length a1)) a1)) as Hf.
        rewrite length_combine, length_seq, Nat.min_id in Hf.
        unfold blocks in L1. lia. }
      assert (Hb : (blocks <= List.length a)%nat) by (unfold blocks; lia).
      apply (between_eq (List.length a1 + List.length (skipn blocks a)));
        [lia|].
      apply between_fold; [exact H2 | lia |].
      set (len := fun j => List.length (lane j a1)) in *.
      apply (between_eq ((len 0 + len 1 + (len 2 + len 3))
                         + (len 4 + len 5 + (len 6 + len 7)))%nat);
        [unfold len in *; lia|].
      repeat (apply between_add; [unfold len in *; lia | |]); apply R.
    + set (n2 := (List.length a / 2 - (List.length a / 2) mod 8)%nat).
      pose proof (Nat.mod_upper_bound (List.length a / 2) 8
                    ltac:(discriminate)) as Hm.
      pose proof (Nat.div_mod_eq (List.length a) 2) as Hd.
      pose proof (Nat.mod_upper_bound (List.length a) 2
                    ltac:(discriminate)) as Hm2.
      assert (Hn2 : (0 < n2 < List.length a)%nat) by (unfold n2; lia).
      destruct (Forall_split n2 a Hall) as [H1 H2].
      assert (L1 : List.length (firstn n2 a) = n2)
        by (apply firstn_length_le; lia).
      assert (L2 : List.length (skipn n2 a) = (List.length a - n2)%nat)
        by apply length_skipn.
      apply (between_eq (List.length (firstn n2 a)
                         + List.length (skipn n2 a))); [lia|].
      apply between_add; [lia | apply IH; [exact H1 | lia ..]
                         | apply IH; [exact H2 | lia ..]].
Qed.

(** The mean of bounded values is within the bounds. *)
Lemma mean_bounds (l : list Q) :
  l <> [] -> Forall (bounded lo hi) l -> List.length l = n ->
  exists m, mean ops l = Some m /\ bounded lo hi m.
Proof.
  intros Hne Hall Hlen. destruct l as [| x l']; [contradiction|].
  eexists. split; [reflexivity|].
  set (l := x :: l') in *.
  destruct (between_pairwise_sum (List.length l) l Hall) as [L U];
    [lia | lia |].
  assert (Hpos : 0 < inject_Z (Z.of_nat (List.length l))).
  { change 0 with (inject_Z 0). rewrite <- Zlt_Qlt.
    unfold l. cbn [List.length]. lia. }
  destruct (small_count 1) as [Hlo Hhi]; [unfold l in Hlen; cbn in Hlen; lia|].
  change (Z.of_nat 1) with 1%Z in Hlo, Hhi. rewrite Z.mul_1_l in Hlo, Hhi.
  rewrite inject_Z_mult in L, U.
  unfold bounded, fdiv. split.
  - apply Qle_trans with (fl ops (inject_Z lo)).
    + rewrite (fl_int ops Hops _ Hlo). apply Qle_refl.
    + apply (fl_mono ops Hops). apply Qle_shift_div_l; [exact Hpos|].
      rewrite Qmult_comm. exact L.
  - apply Qle_trans with (fl ops (inject_Z hi)).
    + apply (fl_mono ops Hops). apply Qle_shift_div_r; [exact Hpos|].
      rewrite Qmult_comm. exact U.
    + rewrite (fl_int ops Hops _ Hhi). apply Qle_refl.
Qed.

End MeanBounds.

(** X16.  For a non-empty grid whose wind speeds lie between two whole
    numbers lo and hi, and whose wind directions lie between two whole
    numbers dlo and dhi, with the number of points times the largest of
    these bounds at most 2^53, [calculate_front_velocity] returns, in
    IEEE arithmetic, a velocity that is the rounded half of the mean wind
    speed; the mean lies between lo and hi, the velocity between lo / 2
    and hi / 2 and the reported direction between dlo and dhi.  The empty
    grid gives no number at all (NumPy's nan). *)
Theorem front_velocity_bounds (ops : FloatOps) (grid : list GridPoint)
  (lo hi dlo dhi : Z)
  (Hops : ieee ops) (Hhalves : exact_halves ops)
  (Hne : grid <> [])
  (Hspeed : Forall (fun p => inject_Z lo <= wind_speed p /\
                             wind_speed p <= inject_Z hi) grid)
  (Hdir : Forall (fun p => inject_Z dlo <= wind_direction p /\
                           wind_direction p <= inject_Z dhi) grid)
  (Hsize : (Z.of_nat (List.length grid) * Z.max (Z.abs lo) (Z.abs hi)
            <= 2 ^ 53)%Z)
  (Hdsize : (Z.of_nat (List.length grid) * Z.max (Z.abs dlo) (Z.abs dhi)
             <= 2 ^ 53)%Z) :
  calculate_front_velocity ops [] = None /\
  exists fv,
    calculate_front_velocity ops grid = Some fv /\
    (exists m, mean ops (map wind_speed grid) = Some m /\
               velocity_ms fv = fmul ops m (5 # 10) /\
               inject_Z lo <= m /\ m <= inject_Z hi) /\
    inject_Z lo / 2 <= velocity_ms fv /\
    velocity_ms fv <= inject_Z hi / 2 /\
    inject_Z dlo <= direction_deg fv /\ direction_deg fv <= inject_Z dhi.
Proof.
  split; [reflexivity|].
  assert (Hne' : forall f : GridPoint -> Q, map f grid <> [])
    by (intros f E; apply map_eq_nil in E; contradiction).
  destruct (mean_bounds ops Hops lo hi (List.length grid) Hsize
              (map wind_speed grid) (Hne' _))
    as (ms & Hms & Hms0 & Hms1);
    [apply Forall_map; exact Hspeed | apply length_map |].
  destruct (mean_bounds ops Hops dlo dhi (List.length grid) Hdsize
              (map wind_direction grid) (Hne' _))
    as (md & Hmd & Hmd0 & Hmd1);
    [apply Forall_map; exact Hdir | apply length_map |].
  unfold calculate_front_velocity. rewrite Hms, Hmd.
  destruct (mean ops (map pressure_trend grid)) as [mp|] eqn:Hmp.
  - eexists. split; [reflexivity|]. cbn [velocity_ms direction_deg].
    split; [exists ms; repeat split; assumption|].
    assert (Hn : (1 <= List.length grid)%nat)
      by (destruct grid; [contradiction | cbn [List.length]; lia]).
    destruct (small_count lo hi (List.length grid) Hsize 1 Hn) as [Hlo Hhi].
    change (Z.of_nat 1) with 1%Z in Hlo, Hhi.
    rewrite Z.mul_1_l in Hlo, Hhi.
    unfold fmul. repeat split; try assumption.
    + apply Qle_trans with (fl ops (inject_Z lo * (1 # 2))).
      * rewrite (Hhalves lo Hlo). unfold Qdiv. change (/ 2) with (1 # 2).
        apply Qle_refl.
      * apply (fl_mono ops Hops). lra.
    + apply Qle_trans with (fl ops (inject_Z hi * (1 # 2))).
      * apply (fl_mono ops Hops). lra.
      * rewrite (Hhalves hi Hhi). unfold Qdiv. change (/ 2) with (1 # 2).
        apply Qle_refl.
  - exfalso. destruct grid; [contradiction | discriminate].
Qed.

Lemma front_velocity_bounds_witness :
  exists fv,
    calculate_front_velocity binary64_ops high_grid = Some fv /\
    inject_Z 5 / 2 <= velocity_ms fv /\ velocity_ms fv <= inject_Z 5 / 2.
Proof.
  destruct (front_velocity_bounds binary64_ops high_grid 5 5 180 180
              binary64_ieee binary64_exact_halves)
    as [_ (fv & H & _ & H0 & H1 & _)].
  - discriminate.
  - repeat constructor; discriminate.
  - repeat constructor; discriminate.
  - vm_compute. discriminate.
  - vm_compute. discriminate.
  - exists fv. repeat split; assumption.
Defined.

End MotionExtras.

Module GridExtras.
Import Doubles DoubleFacts WeatherFrontTracker GridVocabulary.
Import FrontTrackerSymbols TrackerVocabulary PressureFacts FrontFacts.

(** *** [linspace] *)

Lemma length_removelast_snoc {A : Type} (l : list A) (x : A) :
  l <> [] -> List.length (removelast l ++ [x]) = List.length l.
Proof.
  intro Hne. destruct (exists_last Hne) as (l' & y & ->).
  rewrite removelast_last, !length_app. reflexivity.
Qed.

Lemma length_linspace (ops : FloatOps) (a b : Q) (n : nat) :
  List.length (linspace ops a b n) = n.
Proof.
  unfold linspace.
  set (y := map _ (if (0 <? n - 1)%nat then _ else _)).
  assert (Hy : List.length y = n).
  { unfold y. rewrite length_map.
    destruct (0 <? n - 1)%nat;
      [destruct (Qeq_bool _ _)|]; now rewrite !length_map, length_seq. }
  destruct (1 <? n)%nat eqn:E; [|exact Hy].
  rewrite length_removelast_snoc; [exact Hy|].
  apply Nat.ltb_lt in E. intro H0. rewrite H0 in Hy. cbn in Hy. lia.
Qed.

(** *** The points of the grid *)

Lemma grid_point_In (ops : FloatOps) (fetch : Q -> Q -> option Response)
  (bounds : Bounds) (n : nat) (p : GridPoint) :
  In p (get_grid_weather ops fetch bounds n) <->
  exists la lo data,
    In la (linspace ops (south bounds) (north bounds) n) /\
    In lo (linspace ops (west bounds) (east bounds) n) /\
    fetch la lo = Some data /\ p = grid_point_of ops la lo data.
Proof.
  unfold get_grid_weather. rewrite in_flat_map. split.
  - intros (la & Hla & Hp). apply in_flat_map in Hp as (lo & Hlo & Hp).
    destruct (fetch la lo) as [data|] eqn:Ef; [|contradiction].
    destruct Hp as [<- | []]. exists la, lo, data. now repeat split.
  - intros (la & lo & data & Hla & Hlo & Ef & ->).
    exists la. split; [exact Hla|]. apply in_flat_map.
    exists lo. split; [exact Hlo|]. rewrite Ef. now left.
Qed.

Lemma length_flat_map_le {A B : Type} (f : A -> list B) (k : nat) (l : list A) :
  (forall x, List.length (f x) <= k)%nat ->
  (List.length (flat_map f l) <= List.length l * k)%nat.
Proof.
  intro Hf. induction l as [| x l IH]; cbn; [lia|].
  rewrite length_app. specialize (Hf x). lia.
Qed.

Lemma length_flat_map_eq {A B : Type} (f : A -> list B) (k : nat) (l : list A) :
  (forall x, List.length (f x) = k) ->
  List.length (flat_map f l) = (List.length l * k)%nat.
Proof.
  intro Hf. induction l as [| x l IH]; cbn; [lia|].
  rewrite length_app, Hf, IH. lia.
Qed.

(** X18.  [get_grid_weather] returns at most grid_size * grid_size
    points, one for each location whose request succeeds and none for a
    failed one; when no request fails there are exactly grid_size *
    grid_size.  With a grid_size of 2 or less the grid stays below the
    9-point floor, so [detect_pressure_systems] finds nothing on it. *)
Theorem grid_size_bound (ops : FloatOps)
  (fetch : Q -> Q -> option Response) (bounds : Bounds) (grid_size : nat) :
  let grid := get_grid_weather ops fetch bounds grid_size in
  (List.length grid <= grid_size * grid_size)%nat /\
  ((forall la lo, fetch la lo <> None) ->
   List.length grid = (grid_size * grid_size)%nat) /\
  ((forall la lo, fetch la lo = None) -> grid = []) /\
  ((grid_size <= 2)%nat -> detect_pressure_systems ops grid = []).
Proof.
  intro grid. subst grid.
  assert (Hlen : (List.length (get_grid_weather ops fetch bounds grid_size)
                  <= grid_size * grid_size)%nat).
  { unfold get_grid_weather.
    rewrite <- (length_linspace ops (south bounds) (north bounds) grid_size)
      at 2.
    apply length_flat_map_le. intro la.
    rewrite <- (length_linspace ops (west bounds) (east bounds) grid_size)
      at 2.
    rewrite <- (Nat.mul_1_r (List.length (linspace _ _ _ _))).
    apply length_flat_map_le. intro lo.
    destruct (fetch la lo); cbn; lia. }
  split; [exact Hlen|]. split; [|split].
  - intro Hok. unfold get_grid_weather.
    rewrite (length_flat_map_eq _ grid_size).
    + now rewrite length_linspace.
    + intro la. rewrite (length_flat_map_eq _ 1).
      * rewrite length_linspace. lia.
      * intro lo. specialize (Hok la lo).
        destruct (fetch la lo); [reflexivity | contradiction].
  - intro Hfail.
    destruct (get_grid_weather ops fetch bounds grid_size) as [| p l] eqn:E;
      [reflexivity|].
    assert (Hp : In p (get_grid_weather ops fetch bounds grid_size))
      by (rewrite E; now left).
    apply grid_point_In in Hp as (la & lo & data & _ & _ & Ef & _).
    rewrite Hfail in Ef. discriminate.
  - intro Hsmall. unfold detect_pressure_systems.
    assert (Hlt : (List.length (get_grid_weather ops fetch bounds grid_size)
                   < 9)%nat) by nia.
    apply Nat.ltb_lt in Hlt. now rewrite Hlt.
Qed.

(** *** A sparse grid has no pressure systems *)

Lemma Forall2_refl {A : Type} (R : A -> A -> Prop) (l : list A) :
  (forall x, R x x) -> Forall2 R l l.
Proof. intro HR. induction l; constructor; auto. Qed.

Lemma gridpoint_eqb_refl (p : GridPoint) : gridpoint_eqb p p = true.
Proof.
  apply gridpoint_eqb_same. unfold same_values, same_hourly.
  repeat split; try reflexivity;
    apply Forall2_refl; intro; reflexivity.
Qed.

Lemma filter_nil {A : Type} (f : A -> bool) (l : list A) :
  (forall x, In x l -> f x = false) -> filter f l = [].
Proof.
  induction l as [| x l IH]; intro H; [reflexivity|].
  cbn. rewrite (H x (or_introl eq_refl)). apply IH.
  intros y Hy. apply H. now right.
Qed.

Lemma sparse_no_neighbours (ops : FloatOps) (grid : list GridPoint)
  (point : GridPoint) :
  sparse ops grid -> In point grid -> nearby_points ops grid point = [].
Proof.
  intros Hsparse Hin. unfold nearby_points. apply filter_nil.
  intros q Hq.
  destruct (Qltb (Qabs (fsub ops (lat q) (lat point))) 2) eqn:E1;
    [|reflexivity].
  destruct (Qltb (Qabs (fsub ops (lon q) (lon point))) 2) eqn:E2;
    [|reflexivity].
  apply Qltb_lt in E1, E2.
  now rewrite (Hsparse point q Hin Hq E1 E2).
Qed.

Lemma fold_systems_skip (ops : FloatOps) (grid l : list GridPoint) :
  (forall point, In point l -> nearby_points ops grid point = []) ->
  forall systems, fold_left (systems_step ops grid) l systems = systems.
Proof.
  induction l as [| point l IH]; intros H systems; [reflexivity|].
  cbn [fold_left]. unfold systems_step at 2.
  rewrite (H point (or_introl eq_refl)). apply IH.
  intros q Hq. apply H. now right.
Qed.

Lemma sparse_no_systems (ops : FloatOps) (grid : list GridPoint) :
  sparse ops grid -> detect_pressure_systems ops grid = [].
Proof.
  intro Hsparse. unfold detect_pressure_systems.
  destruct (List.length grid <? 9)%nat; [reflexivity|].
  apply fold_systems_skip. intros point Hin.
  now apply sparse_no_neighbours.
Qed.

(** Two coordinates of a list whose places are all 2 degrees apart are
    less than 2 degrees apart only when they are the same one. *)
Lemma apart_close (ops : FloatOps) (l : list Q) :
  apart ops l = true ->
  forall x y, In x l -> In y l -> Qabs (fsub ops y x) < 2 -> x = y.
Proof.
  induction l as [| a l IH]; intros Hap x y Hx Hy Hclose; [contradiction|].
  cbn [apart] in Hap. apply andb_true_iff in Hap as [Ha Hl].
  rewrite forallb_forall in Ha.
  destruct Hx as [<- | Hx], Hy as [<- | Hy].
  - reflexivity.
  - specialize (Ha y Hy). apply andb_true_iff in Ha as [Ha _].
    apply Qleb_le in Ha. lra.
  - specialize (Ha x Hx). apply andb_true_iff in Ha as [_ Ha].
    apply Qleb_le in Ha. lra.
  - now apply IH.
Qed.

(** A grid whose latitudes and whose longitudes are 2 degrees apart is
    sparse. *)
Lemma wide_grid_sparse (ops : FloatOps) (fetch : Q -> Q -> option Response)
  (bounds : Bounds) (n : nat) :
  apart ops (linspace ops (south bounds) (north bounds) n) = true ->
  apart ops (linspace ops (west bounds) (east bounds) n) = true ->
  sparse ops (get_grid_weather ops fetch bounds n).
Proof.
  intros Hlat Hlon p q Hp Hq Dlat Dlon.
  apply grid_point_In in Hp as (la & lo & data & Hla & Hlo & Ef & ->).
  apply grid_point_In in Hq as (la' & lo' & data' & Hla' & Hlo' & Ef' & ->).
  cbn [lat lon grid_point_of] in Dlat, Dlon.
  pose proof (apart_close ops _ Hlat la la' Hla Hla' Dlat) as <-.
  pose proof (apart_close ops _ Hlon lo lo' Hlo Hlo' Dlon) as <-.
  assert (data' = data) by congruence. subst data'.
  apply gridpoint_eqb_refl.
Qed.

(** X19.  When the latitudes of the grid, as [np.linspace] computes them,
    are at least 2 degrees apart from one another, and so are the
    longitudes, the differences being those that the program computes, no
    grid point has a neighbour, whatever the weather service returns, and
    [detect_pressure_systems] reports no high and no low.  In double
    arithmetic the grid of the map generator (the UK bounds with grid_size
    5) is such a grid. *)
Theorem wide_grid_no_systems (ops : FloatOps)
  (fetch : Q -> Q -> option Response) (bounds : Bounds) (grid_size : nat)
  (Hlat : apart ops (linspace ops (south bounds) (north bounds) grid_size)
          = true)
  (Hlon : apart ops (linspace ops (west bounds) (east bounds) grid_size)
          = true) :
  let grid := get_grid_weather ops fetch bounds grid_size in
  (forall point, In point grid -> nearby_points ops grid point = []) /\
  detect_pressure_systems ops grid = [].
Proof.
  intro grid. subst grid.
  pose proof (wide_grid_sparse ops fetch bounds grid_size Hlat Hlon) as Hs.
  split; [intros point Hin; now apply sparse_no_neighbours|].
  now apply sparse_no_systems.
Qed.

Lemma wide_grid_no_systems_witness :
  detect_pressure_systems binary64_ops
    (get_grid_weather binary64_ops steady_fetch uk_bounds 5) = [] /\
  List.length (get_grid_weather binary64_ops steady_fetch uk_bounds 5)
  = 25%nat.
Proof.
  split; [|vm_compute; reflexivity].
  refine (proj2 (wide_grid_no_systems binary64_ops steady_fetch uk_bounds 5
                   _ _)).
  - vm_compute. reflexivity.
  - vm_compute. reflexivity.
Defined.

(** A latitude step of 2 degrees does not make a grid sparse: the rows
    that [np.linspace] computes from 0.3 to 8.3 for grid_size 5 are not
    all 2 degrees apart, the second row being less than 2 degrees from
    the first. *)
Example narrow_rows :
  apart binary64_ops
    (linspace binary64_ops (literal (3 # 10)) (literal (83 # 10)) 5) = false /\
  2 * inject_Z 4 <= literal (83 # 10) - literal (3 # 10).
Proof. split; vm_compute; [reflexivity | discriminate]. Qed.

(** *** The grid is fetched in latitude order *)

Lemma ascending_sorted (l : list Q) :
  ascending l = true -> StronglySorted Qle l.
Proof.
  induction l as [| x l IH]; intro H; constructor.
  - apply IH. cbn [ascending] in H. now apply andb_true_iff in H as [_ H].
  - cbn [ascending] in H. apply andb_true_iff in H as [H _].
    rewrite forallb_forall in H. apply Forall_forall.
    intros y Hy. apply Qleb_le, H, Hy.
Qed.

(** For two values or more, the values of [linspace] but the last are
    computed from their index, and the last is [stop]. *)
Lemma linspace_unfold (ops : FloatOps) (start stop : Q) (m : nat) :
  let div := inject_Z (Z.of_nat (S m)) in
  let delta := fsub ops stop start in
  let step := fdiv ops delta div in
  linspace ops start stop (S (S m))
  = map (fun i =>
           fadd ops
             (if Qeq_bool step 0
              then fmul ops (fdiv ops (inject_Z (Z.of_nat i)) div) delta
              else fmul ops (inject_Z (Z.of_nat i)) step)
             start)
        (seq 0 (S m))
    ++ [stop].
Proof.
  intros div delta step. unfold linspace.
  change (S (S m) - 1)%nat with (S m).
  change (0 <? S m)%nat with true. change (1 <? S (S m))%nat with true.
  cbv iota. fold div delta step.
  rewrite (seq_S (S m) 0), Nat.add_0_l.
  destruct (Qeq_bool step 0); rewrite !map_map, map_app;
    cbn [map]; now rewrite removelast_last.
Qed.

Lemma ascending_map_seq (h : nat -> Q) (k : nat) :
  (forall i j, (i <= j)%nat -> h i <= h j) ->
  forall s, ascending (map h (seq s k)) = true.
Proof.
  intro Hh. induction k as [| k IH]; intro s; [reflexivity|].
  cbn [seq map ascending]. rewrite IH, andb_true_r.
  apply forallb_forall. intros y Hy.
  apply in_map_iff in Hy as (j & <- & Hj). apply in_seq in Hj.
  apply Qleb_le, Hh. lia.
Qed.

Lemma ascending_snoc (l : list Q) (b : Q) :
  ascending l = true -> (forall x, In x l -> x <= b) ->
  ascending (l ++ [b]) = true.
Proof.
  induction l as [| x l IH]; intros Hl Hb; [reflexivity|].
  cbn [ascending app] in *. apply andb_true_iff in Hl as [Hx Hl].
  rewrite IH by (try assumption; intros y Hy; apply Hb; now right).
  rewrite andb_true_r, forallb_app, Hx. cbn.
  rewrite andb_true_r. apply Qleb_le, Hb. now left.
Qed.

Lemma inject_nat_le (i j : nat) :
  (i <= j)%nat -> inject_Z (Z.of_nat i) <= inject_Z (Z.of_nat j).
Proof. intro H. rewrite <- Zle_Qle. lia. Qed.

(** The last computed value before [stop] does not exceed [stop]: the
    three roundings on the way to it add at most three parts in 2^53,
    less than the share of one step. *)
Lemma last_step_bound (a s q K D delta : Q) :
  1 <= K -> K <= 2 ^ 50 -> 0 <= D -> 0 <= s ->
  a <= (K - 1) * s * (1 + (1 # 9007199254740992)) ->
  s <= q * (1 + (1 # 9007199254740992)) ->
  q * K == delta ->
  delta <= D * (1 + (1 # 9007199254740992)) ->
  a <= D.
Proof.
  change ((2 : Q) ^ 50) with (1125899906842624 # 1).
  intros HK1 HK2 HD Hs Ha Hsq Hq Hd.
  set (c := 1 + (1 # 9007199254740992)) in *.
  assert (Hc : 1 <= c) by (unfold c; discriminate).
  assert (S1 : s * K <= D * c * c).
  { assert (s * K <= q * c * K)
      by (apply Qmult_le_compat_r; [exact Hsq | lra]).
    assert (delta * c <= D * c * c)
      by (apply Qmult_le_compat_r; [exact Hd | lra]).
    assert (E : q * c * K == delta * c) by (rewrite <- Hq; ring).
    lra. }
  assert (S2 : a * K <= (K - 1) * c * (D * c * c)).
  { assert (a * K <= (K - 1) * s * c * K)
      by (apply Qmult_le_compat_r; [exact Ha | lra]).
    assert ((K - 1) * c * (s * K) <= (K - 1) * c * (D * c * c)).
    { rewrite !(Qmult_comm ((K - 1) * c)).
      apply Qmult_le_compat_r; [exact S1|].
      apply Qmult_le_0_compat; lra. }
    assert (E : (K - 1) * s * c * K == (K - 1) * c * (s * K)) by ring.
    lra. }
  assert (S3 : (K - 1) * (c * c * c) <= K) by (unfold c; lra).
  assert (S4 : (K - 1) * c * (D * c * c) <= K * D).
  { assert (E : (K - 1) * c * (D * c * c) == (K - 1) * (c * c * c) * D)
      by ring.
    rewrite E. apply Qmult_le_compat_r; [exact S3 | exact HD]. }
  apply Qmult_le_r with K; [lra|].
  rewrite (Qmult_comm D K). lra.
Qed.

(** In IEEE arithmetic the values of [linspace] between two doubles
    never decrease, provided that the step does not underflow. *)
Lemma linspace_ascending (ops : FloatOps) (start stop : Q) (n : nat) :
  ieee ops ->
  fl ops start == start -> fl ops stop == stop ->
  start <= stop ->
  (Z.of_nat n <= 2 ^ 50)%Z ->
  stop - start == 0 \/
  2 ^ (-1021) <= (stop - start) / inject_Z (Z.of_nat (n - 1)) ->
  ascending (linspace ops start stop n) = true.
Proof.
  intros Hops Hstart Hstop Hle Hn Hstep.
  destruct n as [| [| m]]; [reflexivity | reflexivity |].
  change (S (S m) - 1)%nat with (S m) in Hstep.
  rewrite linspace_unfold.
  set (K := inject_Z (Z.of_nat (S m))) in *.
  assert (HK1 : 1 <= K).
  { unfold K. change 1 with (inject_Z 1). rewrite <- Zle_Qle. lia. }
  assert (HK2 : K <= 2 ^ 50).
  { unfold K. change ((2 : Q) ^ 50) with (inject_Z (2 ^ 50)).
    rewrite <- Zle_Qle. lia. }
  set (delta := fsub ops stop start). set (step := fdiv ops delta K).
  assert (F0 : forall x, x == 0 -> fl ops x == 0).
  { intros x E. apply (fl_exact ops x 0 Hops); [lia | exact E]. }
  destruct Hstep as [Hzero | Hnormal].
  - (* the two bounds are equal *)
    assert (Ed : delta == 0) by (apply F0; exact Hzero).
    assert (Es : step == 0).
    { apply F0. rewrite Ed. unfold Qdiv. ring. }
    apply Qeq_bool_iff in Es as Es'. rewrite Es'.
    assert (Hh : forall i,
               fadd ops (fmul ops (fdiv ops (inject_Z (Z.of_nat i)) K) delta)
                    start == start).
    { intro i. unfold fadd, fmul.
      assert (E0 : fl ops (fdiv ops (inject_Z (Z.of_nat i)) K * delta) == 0)
        by (apply F0; rewrite Ed; ring).
      transitivity (fl ops start); [|exact Hstart].
      apply (fl_compat ops Hops). rewrite E0. ring. }
    apply ascending_snoc.
    + apply ascending_map_seq. intros i j _. rewrite !Hh. apply Qle_refl.
    + intros x Hx. apply in_map_iff in Hx as (i & <- & _).
      rewrite Hh. exact Hle.
  - (* the step is a normal number *)
    set (t := (2 : Q) ^ (-1022)).
    assert (Pt : 0 < t) by apply two_power_pos.
    assert (Herr : forall x, t <= x ->
               x * (1 - (1 # 9007199254740992)) <= fl ops x /\
               fl ops x <= x * (1 + (1 # 9007199254740992)))
      by exact (fl_error ops Hops).
    assert (E21 : (2 : Q) ^ (-1021) == 2 * t) by (vm_compute; reflexivity).
    assert (Hnormal' : 2 * t <= (stop - start) / K)
      by (rewrite <- E21; exact Hnormal).
    clear Hnormal E21. clearbody t.
    set (D := stop - start) in *.
    assert (HD : 2 * t * K <= D).
    { assert (E : D / K * K == D) by (field; lra).
      rewrite <- E. apply Qmult_le_compat_r; [exact Hnormal' | lra]. }
    assert (HtK : t * 1 <= t * K).
    { rewrite (Qmult_comm _ K), (Qmult_comm _ 1).
      apply Qmult_le_compat_r; lra. }
    destruct (Herr D ltac:(lra)) as [Dl Du].
    change (fl ops D) with delta in Dl, Du.
    set (q := delta / K).
    assert (Hq : q * K == delta) by (unfold q; field; lra).
    assert (Hqt : 2 * t * (1 - (1 # 9007199254740992)) <= q).
    { unfold q. apply Qle_shift_div_l; [lra|].
      assert (2 * t * K * (1 - (1 # 9007199254740992))
              <= D * (1 - (1 # 9007199254740992)))
        by (apply Qmult_le_compat_r; [exact HD | discriminate]).
      lra. }
    destruct (Herr q ltac:(lra)) as [Sl Su].
    change (fl ops q) with step in Sl, Su.
    assert (Hst : t <= step) by lra.
    assert (Es' : Qeq_bool step 0 = false).
    { destruct (Qeq_bool step 0) eqn:E; [|reflexivity].
      apply Qeq_bool_iff in E. lra. }
    rewrite Es'.
    assert (Hmono : forall i j, (i <= j)%nat ->
               fadd ops (fmul ops (inject_Z (Z.of_nat i)) step) start
               <= fadd ops (fmul ops (inject_Z (Z.of_nat j)) step) start).
    { intros i j Hij. unfold fadd, fmul.
      apply (fl_mono ops Hops). apply Qplus_le_l.
      apply (fl_mono ops Hops).
      apply Qmult_le_compat_r; [now apply inject_nat_le | lra]. }
    apply ascending_snoc; [now apply ascending_map_seq|].
    intros x Hx. apply in_map_iff in Hx as (i & <- & Hi).
    apply in_seq in Hi.
    apply Qle_trans
      with (fadd ops (fmul ops (inject_Z (Z.of_nat m)) step) start);
      [apply Hmono; lia|].
    unfold fadd.
    apply Qle_trans with (fl ops stop); [|rewrite Hstop; apply Qle_refl].
    apply (fl_mono ops Hops).
    assert (Ha : fmul ops (inject_Z (Z.of_nat m)) step <= D);
      [|unfold D in Ha; lra].
    assert (EM : inject_Z (Z.of_nat m) == K - 1).
    { unfold K. rewrite Nat2Z.inj_succ, <- Z.add_1_r, inject_Z_plus.
      change (inject_Z 1) with 1. ring. }
    unfold fmul. rewrite (fl_compat ops Hops _ _
                            (Qmult_comp _ _ EM _ _ (Qeq_refl step))).
    destruct m as [| m'].
    + assert (E0 : (K - 1) * step == 0).
      { rewrite <- EM. cbn. ring. }
      rewrite (F0 _ E0). lra.
    + assert (HK : 2 <= K).
      { unfold K. change 2 with (inject_Z 2). rewrite <- Zle_Qle. lia. }
      assert (Hms : t <= (K - 1) * step).
      { assert (1 * step <= (K - 1) * step)
          by (apply Qmult_le_compat_r; lra).
        lra. }
      destruct (Herr ((K - 1) * step) Hms) as [_ Au].
      apply (last_step_bound _ step q K D delta); try assumption; lra.
Qed.

Lemma StronglySorted_app {A : Type} (R : A -> A -> Prop) (l1 l2 : list A) :
  StronglySorted R l1 -> StronglySorted R l2 ->
  (forall x y, In x l1 -> In y l2 -> R x y) ->
  StronglySorted R (l1 ++ l2).
Proof.
  induction 1 as [| x l1 H1 IH Hx]; intros H2 Hcross; [exact H2|].
  cbn. constructor.
  - apply IH; [exact H2|]. intros a b Ha Hb. apply Hcross; [now right | exact Hb].
  - apply Forall_app. split; [exact Hx|].
    apply Forall_forall. intros y Hy. apply Hcross; [now left | exact Hy].
Qed.

Lemma same_lat_sorted (la : Q) (l : list GridPoint) :
  (forall p, In p l -> lat p = la) -> StronglySorted lat_le l.
Proof.
  induction l as [| p l IH]; intro H; constructor.
  - apply IH. intros q Hq. apply H. now right.
  - apply Forall_forall. intros q Hq. unfold lat_le.
    rewrite (H p (or_introl eq_refl)), (H q (or_intror Hq)). apply Qle_refl.
Qed.

Lemma flat_map_sorted (g : Q -> list GridPoint) (lats : list Q) :
  (forall la p, In p (g la) -> lat p = la) ->
  StronglySorted Qle lats -> StronglySorted lat_le (flat_map g lats).
Proof.
  intros Hg. induction 1 as [| la lats Hl IH Hla]; cbn; [constructor|].
  apply StronglySorted_app;
    [apply (same_lat_sorted la); intros p Hp; now apply Hg | exact IH |].
  intros p q Hp Hq. apply in_flat_map in Hq as (la' & Hla' & Hq).
  unfold lat_le. rewrite (Hg la p Hp), (Hg la' q Hq).
  rewrite Forall_forall in Hla. now apply Hla.
Qed.

Lemma sorted_by_lat_id (l : list GridPoint) :
  StronglySorted lat_le l -> sorted_by_lat l = l.
Proof.
  induction 1 as [| x l Hl IH Hx]; [reflexivity|].
  cbn [sorted_by_lat fold_right]. fold (sorted_by_lat l). rewrite IH.
  destruct l as [| y l]; [reflexivity|].
  cbn [insert_by_lat].
  pose proof (Forall_inv Hx) as Hxy. apply Qleb_le in Hxy.
  now rewrite Hxy.
Qed.

(** A grid whose rows come in ascending latitude is ordered by
    latitude, and the sort leaves it as it is. *)
Lemma ascending_rows_sorted (ops : FloatOps)
  (fetch : Q -> Q -> option Response) (bounds : Bounds) (grid_size : nat) :
  ascending (linspace ops (south bounds) (north bounds) grid_size) = true ->
  StronglySorted lat_le (get_grid_weather ops fetch bounds grid_size).
Proof.
  intro Hlats. unfold get_grid_weather. apply flat_map_sorted.
  - intros la p Hp. apply in_flat_map in Hp as (lo & _ & Hp).
    destruct (fetch la lo); [|contradiction].
    destruct Hp as [<- | []]. reflexivity.
  - now apply ascending_sorted.
Qed.

(** X20.  With south <= north the grid comes out of [get_grid_weather]
    already ordered by latitude, so the sort of [detect_fronts] leaves it
    as it is: fronts are looked for between grid points that follow one
    another in fetch order, which includes the pairs of a same row (equal
    latitude) and the pair made of the last point of a row and the first
    point of the next.  This holds in IEEE arithmetic, with its rounding
    of every latitude, for bounds that are doubles, as long as the
    latitude step does not underflow (it is 0 or at least 2^-1021) and
    grid_size is at most 2^50. *)
Theorem fetched_grid_front_scan (ops : FloatOps)
  (fetch : Q -> Q -> option Response) (bounds : Bounds) (grid_size : nat)
  (Hops : ieee ops)
  (Hsouth : fl ops (south bounds) == south bounds)
  (Hnorth : fl ops (north bounds) == north bounds)
  (Hbounds : south bounds <= north bounds)
  (Hsize : (Z.of_nat grid_size <= 2 ^ 50)%Z)
  (Hstep : north bounds - south bounds == 0 \/
           2 ^ (-1021) <= (north bounds - south bounds)
                          / inject_Z (Z.of_nat (grid_size - 1))) :
  let grid := get_grid_weather ops fetch bounds grid_size in
  ascending (linspace ops (south bounds) (north bounds) grid_size) = true /\
  StronglySorted lat_le grid /\
  sorted_by_lat grid = grid /\
  detect_fronts ops grid
  = flat_map (fun pq => front_of_pair ops (fst pq) (snd pq))
             (adjacent_pairs grid).
Proof.
  intro grid. subst grid.
  pose proof (linspace_ascending ops (south bounds) (north bounds) grid_size
                Hops Hsouth Hnorth Hbounds Hsize Hstep) as Hlats.
  pose proof (ascending_rows_sorted ops fetch bounds grid_size Hlats) as Hs.
  split; [exact Hlats|]. split; [exact Hs|].
  pose proof (sorted_by_lat_id _ Hs) as Hid.
  split; [exact Hid|].
  now rewrite detect_fronts_pairs, Hid.
Qed.

Lemma fetched_grid_front_scan_witness :
  sorted_by_lat (get_grid_weather binary64_ops steady_fetch uk_bounds 5)
  = get_grid_weather binary64_ops steady_fetch uk_bounds 5.
Proof.
  refine (proj1 (proj2 (proj2
    (fetched_grid_front_scan binary64_ops steady_fetch uk_bounds 5
       binary64_ieee _ _ _ _ _)))).
  - reflexivity.
  - reflexivity.
  - discriminate.
  - vm_compute. discriminate.
  - right. vm_compute. discriminate.
Defined.

End GridExtras.

Module SpatialExtras.
Import Doubles DoubleFacts WeatherFrontTracker GridVocabulary.
Import FrontTrackerSymbols TrackerVocabulary PressureFacts FrontFacts.

(** *** Pressure systems *)

Lemma Forall2_sym {A : Type} (R : A -> A -> Prop) (l l' : list A) :
  (forall x y, R x y -> R y x) -> Forall2 R l l' -> Forall2 R l' l.
Proof. intro HR. induction 1; constructor; auto. Qed.

Lemma same_values_sym (p q : GridPoint) : same_values p q -> same_values q p.
Proof.
  unfold same_values, same_hourly.
  intros (H1 & H2 & H3 & H4 & H5 & H6 & H7 & H8 & G1 & G2 & G3 & G4 & G5).
  repeat split; try (symmetry; assumption);
    apply Forall2_sym; try assumption;
    intros x y E; symmetry; exact E.
Qed.

(** The subtraction gives opposite doubles for opposite differences, so
    a neighbour has the point as a neighbour. *)
Lemma is_neighbor_sym (ops : FloatOps) (grid : list GridPoint)
  (p q : GridPoint) :
  ieee ops -> In p grid -> is_neighbor ops grid p q ->
  is_neighbor ops grid q p.
Proof.
  intros Hops Hp (Hq & Dlat & Dlon & Hne).
  assert (Hflip : forall x y, Qabs (fsub ops x y) == Qabs (fsub ops y x)).
  { intros x y. unfold fsub.
    assert (E : x - y == - (y - x)) by ring.
    rewrite (fl_compat ops Hops _ _ E), (fl_opp ops Hops).
    apply Qabs_opp. }
  split; [exact Hp|].
  rewrite (Hflip (lat p)), (Hflip (lon p)).
  repeat split; try assumption.
  intro Hs. apply Hne. now apply same_values_sym.
Qed.

Lemma report_high_is_high (ops : FloatOps) (grid : list GridPoint)
  (p : GridPoint) :
  report_of ops grid p = [high_system p] -> is_high ops grid p.
Proof.
  intro E. destruct (report_of_cases ops grid p)
    as [(H & _) | [(_ & _ & E') | (_ & _ & E')]];
    [exact H | rewrite E' in E; discriminate ..].
Qed.

Lemma report_low_is_low (ops : FloatOps) (grid : list GridPoint)
  (p : GridPoint) :
  report_of ops grid p = [low_system p] -> is_low ops grid p.
Proof.
  intro E. destruct (report_of_cases ops grid p)
    as [(_ & _ & E') | [(H & _) | (_ & _ & E')]];
    [rewrite E' in E; discriminate | exact H | rewrite E' in E; discriminate].
Qed.

Lemma length_report_of (ops : FloatOps) (grid : list GridPoint)
  (p : GridPoint) :
  (List.length (report_of ops grid p) <= 1)%nat.
Proof.
  destruct (report_of_cases ops grid p)
    as [(_ & _ & E) | [(_ & _ & E) | (_ & _ & E)]]; rewrite E; cbn; lia.
Qed.

Lemma detect_systems_flat_map (ops : FloatOps) (grid : list GridPoint) :
  detect_pressure_systems ops grid
  = if (List.length grid <? 9)%nat then []
    else flat_map (report_of ops grid) grid.
Proof.
  unfold detect_pressure_systems.
  destruct (List.length grid <? 9)%nat; [reflexivity|].
  now rewrite fold_systems_step.
Qed.

(** X21.  [detect_pressure_systems] reports at most one system per grid
    point, and reported extrema are isolated: two grid points that are
    neighbours of one another, by the differences that the program
    computes, are never both reported as a high, and never both as a
    low.  In IEEE arithmetic a point is a neighbour of each of its
    neighbours, so one direction is enough. *)
Theorem extrema_isolated (ops : FloatOps) (grid : list GridPoint) :
  (List.length (detect_pressure_systems ops grid) <= List.length grid)%nat /\
  (forall p q,
     is_neighbor ops grid p q -> is_neighbor ops grid q p ->
     ~ (report_of ops grid p
        = [ {| ps_type := "high"; ps_lat := lat p; ps_lon := lon p;
               ps_pressure := pressure p; ps_symbol := "H" |} ] /\
        report_of ops grid q
        = [ {| ps_type := "high"; ps_lat := lat q; ps_lon := lon q;
               ps_pressure := pressure q; ps_symbol := "H" |} ]) /\
     ~ (report_of ops grid p
        = [ {| ps_type := "low"; ps_lat := lat p; ps_lon := lon p;
               ps_pressure := pressure p; ps_symbol := "L" |} ] /\
        report_of ops grid q
        = [ {| ps_type := "low"; ps_lat := lat q; ps_lon := lon q;
               ps_pressure := pressure q; ps_symbol := "L" |} ])) /\
  (ieee ops ->
   forall p q, In p grid -> is_neighbor ops grid p q ->
               is_neighbor ops grid q p).
Proof.
  split; [|split].
  - rewrite detect_systems_flat_map.
    destruct (List.length grid <? 9)%nat; [cbn; lia|].
    rewrite <- (Nat.mul_1_r (List.length grid)).
    apply GridExtras.length_flat_map_le. apply length_report_of.
  - intros p q Hpq Hqp. split.
    + intros [Ep Eq].
      apply report_high_is_high in Ep as (_ & Hp' & _).
      apply report_high_is_high in Eq as (_ & Hq' & _).
      specialize (Hp' q Hpq). specialize (Hq' p Hqp). lra.
    + intros [Ep Eq].
      apply report_low_is_low in Ep as (_ & Hp' & _).
      apply report_low_is_low in Eq as (_ & Hq' & _).
      specialize (Hp' q Hpq). specialize (Hq' p Hqp). lra.
  - intros Hops p q. now apply is_neighbor_sym.
Qed.

Lemma extrema_isolated_witness :
  is_neighbor binary64_ops tie_grid (point_at 0 0 1020 10)
    (point_at 1 1 1020 10).
Proof.
  refine (proj2 (proj2 (extrema_isolated binary64_ops tie_grid))
            binary64_ieee (point_at 1 1 1020 10) (point_at 0 0 1020 10) _ _).
  - now left.
  - split; [right; now left|].
    split; [vm_compute; reflexivity|]. split; [vm_compute; reflexivity|].
    intros (H & _). vm_compute in H. discriminate.
Defined.

(** *** Order of the grid *)

Lemma Permutation_filter {A : Type} (f : A -> bool) (l l' : list A) :
  Permutation l l' -> Permutation (filter f l) (filter f l').
Proof.
  induction 1 as [| x l l' H IH | x y l | l l' l'' H1 IH1 H2 IH2]; cbn.
  - constructor.
  - destruct (f x); [now constructor | exact IH].
  - destruct (f x), (f y); try reflexivity. apply perm_swap.
  - now transitivity (filter f l').
Qed.

Lemma Permutation_forallb {A : Type} (f : A -> bool) (l l' : list A) :
  Permutation l l' -> forallb f l = forallb f l'.
Proof.
  induction 1 as [| x l l' H IH | x y l | l l' l'' H1 IH1 H2 IH2]; cbn.
  - reflexivity.
  - now rewrite IH.
  - destruct (f x), (f y); reflexivity.
  - congruence.
Qed.

Lemma report_of_perm (ops : FloatOps) (grid grid' : list GridPoint)
  (point : GridPoint) :
  Permutation grid grid' ->
  report_of ops grid point = report_of ops grid' point.
Proof.
  intro Hperm. unfold report_of, systems_step.
  pose proof (Permutation_filter
                (fun p => Qltb (Qabs (fsub ops (lat p) (lat point))) 2
                          && Qltb (Qabs (fsub ops (lon p) (lon point))) 2
                          && negb (gridpoint_eqb p point)) _ _ Hperm) as Hn.
  fold (nearby_points ops grid point) in Hn.
  fold (nearby_points ops grid' point) in Hn.
  rewrite (Permutation_forallb _ _ _ Hn).
  rewrite (Permutation_forallb
             (fun n => Qltb (pressure point) (pressure n)) _ _ Hn).
  destruct (nearby_points ops grid point) as [| n l] eqn:E.
  - apply Permutation_nil in Hn. now rewrite Hn.
  - destruct (nearby_points ops grid' point) as [| n' l'] eqn:E';
      [|reflexivity].
    apply Permutation_sym, Permutation_nil in Hn. discriminate.
Qed.

(** X22.  The pressure systems found do not depend on the order in
    which the grid points are given: a rearranged grid gives the same
    systems, rearranged. *)
Theorem detect_systems_order_independent (ops : FloatOps)
  (grid grid' : list GridPoint) (Hperm : Permutation grid grid') :
  Permutation (detect_pressure_systems ops grid)
              (detect_pressure_systems ops grid').
Proof.
  rewrite !detect_systems_flat_map.
  rewrite <- (Permutation_length Hperm).
  destruct (List.length grid <? 9)%nat; [reflexivity|].
  rewrite (flat_map_ext (report_of ops grid') (report_of ops grid)).
  - now apply Permutation_flat_map.
  - intro point. symmetry. now apply report_of_perm.
Qed.

Lemma detect_systems_order_independent_witness :
  Permutation (detect_pressure_systems binary64_ops high_grid)
              (detect_pressure_systems binary64_ops (rev high_grid)).
Proof.
  apply (detect_systems_order_independent binary64_ops
           high_grid (rev high_grid)).
  apply Permutation_rev.
Defined.

(** *** Fronts *)

Lemma insert_by_lat_swap_lt (x y : GridPoint) (l : list GridPoint) :
  lat x < lat y ->
  insert_by_lat x (insert_by_lat y l) = insert_by_lat y (insert_by_lat x l).
Proof.
  intro Hxy.
  assert (Exy : Qleb (lat x) (lat y) = true) by (apply Qleb_le; lra).
  assert (Eyx : Qleb (lat y) (lat x) = false) by (apply Qleb_gt; lra).
  induction l as [| z l IH]; cbn [insert_by_lat].
  - now rewrite Exy, Eyx.
  - destruct (Qleb (lat y) (lat z)) eqn:Eyz.
    + assert (Exz : Qleb (lat x) (lat z) = true)
        by (apply Qleb_le in Eyz; apply Qleb_le; lra).
      rewrite Exz. cbn [insert_by_lat]. now rewrite Exy, Eyx, Eyz.
    + cbn [insert_by_lat].
      destruct (Qleb (lat x) (lat z)) eqn:Exz; cbn [insert_by_lat].
      * now rewrite Eyx, Eyz.
      * now rewrite Eyz, IH.
Qed.

Lemma insert_by_lat_swap (x y : GridPoint) (l : list GridPoint) :
  ~ lat x == lat y ->
  insert_by_lat x (insert_by_lat y l) = insert_by_lat y (insert_by_lat x l).
Proof.
  intro Hne. destruct (Q_dec (lat x) (lat y)) as [[Hlt | Hgt] | Heq].
  - now apply insert_by_lat_swap_lt.
  - symmetry. now apply insert_by_lat_swap_lt.
  - contradiction.
Qed.

Lemma distinct_lats_perm (l l' : list GridPoint) :
  Permutation l l' -> distinct_lats l -> distinct_lats l'.
Proof.
  unfold distinct_lats.
  induction 1 as [| x l l' H IH | x y l | l l' l'' H1 IH1 H2 IH2];
    intro Hd.
  - constructor.
  - inversion Hd as [| a b Hx Hl]; subst. constructor; [|now apply IH].
    now rewrite <- H.
  - inversion Hd as [| a b Hy Hl]; subst.
    inversion Hl as [| a b Hx Hl']; subst.
    inversion Hy as [| a b Hyx Hy']; subst.
    constructor; [constructor; [|exact Hx] | constructor; assumption].
    intro E. apply Hyx. symmetry. exact E.
  - auto.
Qed.

Lemma sorted_by_lat_perm_eq (l l' : list GridPoint) :
  Permutation l l' -> distinct_lats l -> sorted_by_lat l = sorted_by_lat l'.
Proof.
  induction 1 as [| x l l' H IH | x y l | l l' l'' H1 IH1 H2 IH2];
    intro Hd.
  - reflexivity.
  - inversion Hd; subst. cbn. fold (sorted_by_lat l) (sorted_by_lat l').
    now rewrite IH.
  - inversion Hd as [| a b Hy Hl]; subst.
    cbn. fold (sorted_by_lat l). apply insert_by_lat_swap.
    exact (Forall_inv Hy).
  - rewrite IH1 by exact Hd. apply IH2.
    now apply (distinct_lats_perm l l').
Qed.

(** X23.  On a grid whose points all have different latitudes the
    fronts found do not depend on the order in which the points are
    given. *)
Theorem detect_fronts_order_independent (ops : FloatOps)
  (grid grid' : list GridPoint)
  (Hperm : Permutation grid grid') (Hd : distinct_lats grid) :
  detect_fronts ops grid = detect_fronts ops grid'.
Proof.
  rewrite !detect_fronts_pairs.
  now rewrite (sorted_by_lat_perm_eq grid grid' Hperm Hd).
Qed.

Lemma detect_fronts_order_independent_witness :
  detect_fronts binary64_ops
    [point_at 50 0 1010 10; point_at 51 0 1010 8; point_at 52 0 1010 9]
  = detect_fronts binary64_ops
      [point_at 52 0 1010 9; point_at 51 0 1010 8; point_at 50 0 1010 10].
Proof.
  apply detect_fronts_order_independent.
  - apply (Permutation_rev
             [point_at 50 0 1010 10; point_at 51 0 1010 8;
              point_at 52 0 1010 9]).
  - unfold distinct_lats.
    repeat (constructor; [repeat (constructor; [discriminate|]);
                          constructor|]).
    constructor.
Defined.

Lemma adjacent_pairs_In {A : Type} (l : list A) (x y : A) :
  In (x, y) (adjacent_pairs l) -> In x l /\ In y l.
Proof.
  induction l as [| a l IH]; [contradiction|].
  destruct l as [| b l]; [contradiction|].
  intros [E | Hin].
  - injection E as <- <-. split; [now left | right; now left].
  - destruct (IH Hin). split; now right.
Qed.

Lemma length_adjacent_pairs {A : Type} (l : list A) :
  List.length (adjacent_pairs l) = (List.length l - 1)%nat.
Proof.
  induction l as [| a l IH]; [reflexivity|].
  destruct l as [| b l]; [reflexivity|].
  cbn [adjacent_pairs List.length] in *. rewrite IH. lia.
Qed.

Lemma front_of_pair_inv (ops : FloatOps) (p1 p2 : GridPoint) (f : Front) :
  In f (front_of_pair ops p1 p2) ->
  f = front_at ops p1 p2 /\ 0 < distance ops p1 p2 /\
  15 # 10 < gradient_of ops p1 p2.
Proof.
  destruct (Qlt_le_dec 0 (distance ops p1 p2)) as [Hd | Hd].
  - destruct (Qlt_le_dec (15 # 10) (gradient_of ops p1 p2)) as [Hg | Hg].
    + rewrite (front_of_pair_emit ops p1 p2 Hd Hg). intros [<- | []]. auto.
    + rewrite (front_of_pair_skip ops p1 p2); [contradiction|].
      right. now apply Qle_not_lt.
  - rewrite (front_of_pair_skip ops p1 p2); [contradiction|].
    left. now apply Qle_not_lt.
Qed.

(** X24.  A grid of n points gives at most n - 1 fronts (none for an
    empty grid or a single point).  Every front reported lies midway
    between two points of the grid at a distance above 0, the second one
    not south of the first, and its gradient, the temperature difference
    over the distance as the program computes them, is above 1.5.  In
    IEEE arithmetic the temperatures of the two points differ. *)
Theorem detect_fronts_sound (ops : FloatOps) (grid : list GridPoint) :
  (List.length (detect_fronts ops grid) <= List.length grid - 1)%nat /\
  forall f, In f (detect_fronts ops grid) ->
    exists p1 p2,
      In p1 grid /\ In p2 grid /\ lat p1 <= lat p2 /\
      f_lat f = fdiv ops (fadd ops (lat p1) (lat p2)) 2 /\
      f_lon f = fdiv ops (fadd ops (lon p1) (lon p2)) 2 /\
      temp_diff f = Qabs (fsub ops (temperature p2) (temperature p1)) /\
      0 < distance ops p1 p2 /\
      gradient f = fdiv ops (temp_diff f) (distance ops p1 p2) /\
      15 # 10 < gradient f /\
      (ieee ops -> 0 < temp_diff f /\ ~ temperature p1 == temperature p2).
Proof.
  rewrite detect_fronts_pairs. split.
  - rewrite <- (Permutation_length (sorted_by_lat_perm grid)).
    rewrite <- length_adjacent_pairs.
    rewrite <- (Nat.mul_1_r (List.length (adjacent_pairs _))).
    apply GridExtras.length_flat_map_le. intros [p1 p2]. cbn [fst snd].
    unfold front_of_pair.
    destruct (Qltb _ _); [destruct (Qltb _ _)|]; cbn; try lia.
    destruct (Qltb _ _); cbn; lia.
  - intros f Hf. apply in_flat_map in Hf as ([p1 p2] & Hpair & Hf).
    cbn [fst snd] in Hf.
    apply front_of_pair_inv in Hf as (-> & Hd & Hg).
    pose proof (adjacent_pairs_sorted _ (sorted_by_lat_sorted grid)
                  p1 p2 Hpair) as Hle.
    apply adjacent_pairs_In in Hpair as [H1 H2].
    pose proof (sorted_by_lat_perm grid) as Hperm.
    exists p1, p2.
    split; [now apply (Permutation_in _ Hperm)|].
    split; [now apply (Permutation_in _ Hperm)|].
    split; [exact Hle|].
    cbn [f_lat f_lon temp_diff gradient front_at].
    repeat (split; [first [reflexivity | assumption]|]).
    intro Hops.
    assert (Htd : 0 < Qabs (fsub ops (temperature p2) (temperature p1))).
    { apply Qnot_le_lt. intro Hle0.
      assert (E : Qabs (fsub ops (temperature p2) (temperature p1)) == 0)
        by (apply Qle_antisym; [exact Hle0 | apply Qabs_nonneg]).
      unfold gradient_of, fdiv in Hg.
      rewrite (fl_exact ops _ 0 Hops) in Hg;
        [revert Hg; discriminate | lia |].
      rewrite E. unfold Qdiv. cbn. ring. }
    split; [exact Htd|].
    intro E. revert Htd. unfold fsub.
    rewrite (fl_exact ops _ 0 Hops); [discriminate | lia |].
    rewrite E. cbn. ring.
Qed.

End SpatialExtras.

(** * Properties of the summaries *)

Module ReportExtras.
Import WindImpactAnalyzer Vocabulary AnalyzerVocabulary.
Import ImpactReport ImpactMap ReportVocabulary.
Import ClassifierFacts ExtractorFacts AggregatorFacts.
Import ClassifierExtras ExtractorExtras AggregatorExtras.

(** *** The impact summary *)

Lemma fold_event_lines (evs : list Event) :
  forall lines,
    fold_left event_line_step evs lines
    = lines ++ flat_map (event_line_step []) evs.
Proof.
  induction evs as [| e evs IH]; intro lines; cbn [fold_left flat_map].
  - now rewrite app_nil_r.
  - rewrite IH.
    assert (E : event_line_step lines e = lines ++ event_line_step [] e).
    { unfold event_line_step.
      destruct (Qltb 0 (eta_hours e)); [reflexivity|].
      now rewrite app_nil_r. }
    now rewrite E, <- app_assoc.
Qed.

Lemma length_event_lines (evs : list Event) :
  (List.length (flat_map (event_line_step []) evs) <= List.length evs)%nat.
Proof.
  induction evs as [| e evs IH]; cbn [flat_map List.length]; [lia|].
  rewrite length_app. unfold event_line_step at 1.
  destruct (Qltb 0 (eta_hours e)); cbn; lia.
Qed.

(** For an event of the extractor the test [eta_hours > 0] is the test
    for the status upcoming. *)
Lemma eta_positive_upcoming (forecast : list Weather) (now : Z) (e : Event) :
  In e (analyze_forecast forecast now) ->
  Qltb 0 (eta_hours e) = String.eqb (e_status e) "upcoming".
Proof.
  intro He.
  destruct (analyze_forecast_origin forecast now e He)
    as (h0 & _ & (first & rest & _ & _ & _ & _ & _ & Heta & Hst) & _).
  rewrite Heta, Hst. unfold max0.
  destruct (Qltb 0 (total_seconds (timestamp h0 - now) / 3600)) eqn:E;
    [now rewrite E | reflexivity].
Qed.

(** A closed event of a forecast with increasing timestamps has a
    duration that Python takes as true. *)
Lemma duration_truthy (forecast : list Weather) (now : Z) (e : Event) :
  increasing_timestamps forecast ->
  In e (analyze_forecast forecast now) ->
  (if truthy (duration_hours e)
   then EventLine (e_type e) (eta_hours e) (duration_hours e)
   else EventLine (e_type e) (eta_hours e) None)
  = EventLine (e_type e) (eta_hours e) (duration_hours e).
Proof.
  intros Hinc He.
  destruct (analyze_forecast_origin forecast now e He)
    as (h0 & _ & _ & [[Hn Hdn] | (h1 & _ & _ & Het & Hdur)]).
  - now rewrite Hdn.
  - rewrite Hdur. cbn [truthy].
    pose proof (analyze_forecast_closed_later forecast now Hinc e _ He Het)
      as Hlt.
    assert (Hpos : 0 < total_seconds (timestamp h1 - start_time e) / 3600)
      by (apply total_seconds_hours_pos; lia).
    destruct (Qeq_bool _ 0) eqn:E; [|reflexivity].
    apply Qeq_bool_iff in E. rewrite E in Hpos.
    exfalso. revert Hpos. apply Qlt_irrefl.
Qed.

Lemma event_lines_upcoming (forecast : list Weather) (now : Z)
  (evs : list Event) :
  increasing_timestamps forecast ->
  incl evs (analyze_forecast forecast now) ->
  flat_map (event_line_step []) evs
  = map (fun e => EventLine (e_type e) (eta_hours e) (duration_hours e))
        (filter (fun e => String.eqb (e_status e) "upcoming") evs).
Proof.
  intros Hinc. induction evs as [| e evs IH]; intro Hincl; [reflexivity|].
  cbn [flat_map filter].
  assert (He : In e (analyze_forecast forecast now))
    by (apply Hincl; now left).
  rewrite IH by (intros x Hx; apply Hincl; now right).
  unfold event_line_step.
  rewrite (eta_positive_upcoming forecast now e He).
  destruct (String.eqb (e_status e) "upcoming"); [|reflexivity].
  cbn [app map]. now rewrite (duration_truthy forecast now e Hinc He).
Qed.

Lemma event_lines_are_event_lines (evs : list Event) :
  filter is_event_line (flat_map (event_line_step []) evs)
  = flat_map (event_line_step []) evs.
Proof.
  induction evs as [| e evs IH]; [reflexivity|].
  cbn [flat_map]. rewrite filter_app, IH. f_equal.
  unfold event_line_step.
  destruct (Qltb 0 (eta_hours e)); [|reflexivity].
  now destruct (truthy (duration_hours e)).
Qed.

(** The shape of the summary, for any analysis. *)
Lemma summary_shape (wind_farm : WindFarm) (analysis : Overall) :
  (3 <= List.length (format_impact_summary wind_farm analysis) <= 8)%nat /\
  (upcoming_events analysis <> [] ->
   In (EventCountLine (List.length (upcoming_events analysis)))
      (format_impact_summary wind_farm analysis)) /\
  filter is_event_line (format_impact_summary wind_farm analysis)
  = flat_map (event_line_step []) (firstn 3 (upcoming_events analysis)).
Proof.
  unfold format_impact_summary.
  set (head := match priority_issue analysis with
               | Some issue => _ ++ [PriorityLine (i_description issue)]
               | None => _
               end).
  assert (Hhead : (3 <= List.length head <= 4)%nat /\
                  filter is_event_line head = []).
  { subst head. destruct (priority_issue analysis); cbn;
      split; (lia || reflexivity). }
  destruct Hhead as [Hlen Hnot].
  destruct (upcoming_events analysis) as [| e0 evs'] eqn:Eevs.
  - cbn [firstn flat_map]. split; [lia|]. split; [congruence | exact Hnot].
  - rewrite <- Eevs. rewrite fold_event_lines.
    pose proof (length_event_lines (firstn 3 (upcoming_events analysis)))
      as Hev.
    pose proof (firstn_le_length 3 (upcoming_events analysis)) as Hfirst.
    split; [rewrite !length_app; cbn [List.length]; lia|].
    split.
    + intros _. apply in_or_app. left. apply in_or_app. right. now left.
    + rewrite !filter_app, Hnot, event_lines_are_event_lines. reflexivity.
Qed.

(** X25.  For the events that [analyze_forecast] extracts from a forecast
    with increasing timestamps, [format_impact_summary] has at most 8
    lines.  Its event lines are exactly the events marked upcoming among
    the first three events, in order, each with its duration when it is
    closed; an event marked current is counted in the header but never
    listed. *)
Theorem summary_lists_upcoming (wind_farm : WindFarm) (cur : Status)
  (forecast : list Weather) (now : Z)
  (Hinc : increasing_timestamps forecast) :
  let evs := analyze_forecast forecast now in
  let lines := format_impact_summary wind_farm (get_overall_status cur evs) in
  (3 <= List.length lines <= 8)%nat /\
  (evs <> [] -> In (EventCountLine (List.length evs)) lines) /\
  filter is_event_line lines
  = map (fun e => EventLine (e_type e) (eta_hours e) (duration_hours e))
        (filter (fun e => String.eqb (e_status e) "upcoming")
                (firstn 3 evs)).
Proof.
  intros evs lines. subst lines.
  destruct (summary_shape wind_farm (get_overall_status cur evs))
    as (Hlen & Hcount & Hfilter).
  assert (Hup : upcoming_events (get_overall_status cur evs) = evs)
    by apply (scan_events_frame evs).
  rewrite Hup in Hcount, Hfilter.
  split; [exact Hlen|]. split; [exact Hcount|].
  rewrite Hfilter. apply (event_lines_upcoming forecast now); [exact Hinc|].
  intros x Hx. fold evs. rewrite <- (firstn_skipn 3 evs).
  apply in_or_app. now left.
Qed.

Lemma summary_lists_upcoming_witness :
  List.length
    (filter is_event_line
       (format_impact_summary (mkWindFarm "Hornsea" 1200)
          (get_overall_status (analyze_current_conditions (rated_hour 0))
             (analyze_forecast
                [bad_hour 0; rated_hour hour_us; bad_hour (2 * hour_us)]
                0))))
  = 1%nat.
Proof.
  assert (Hinc : increasing_timestamps
                   [bad_hour 0; rated_hour hour_us; bad_hour (2 * hour_us)]).
  { unfold increasing_timestamps. cbn.
    repeat (constructor; [| repeat (constructor; [reflexivity|]);
                             constructor ]).
    constructor. }
  rewrite (proj2 (proj2
    (summary_lists_upcoming (mkWindFarm "Hornsea" 1200)
       (analyze_current_conditions (rated_hour 0))
       [bad_hour 0; rated_hour hour_us; bad_hour (2 * hour_us)] 0 Hinc))).
  reflexivity.
Defined.

(** *** The fleet summary *)

Lemma analyzed_current (o : Overall) :
  analyzed o -> exists w, current o = analyze_current_conditions w.
Proof.
  intros (w & evs & ->). exists w. apply (scan_events_frame evs).
Qed.

Lemma analyzed_color (o : Overall) :
  analyzed o ->
  In (priority_color o) ["green"; "yellow"; "orange"; "red"]%string.
Proof.
  intros (w & evs & ->). unfold get_overall_status.
  set (o0 := {| current := _; upcoming_events := evs;
                priority_color := _; priority_issue := _ |}).
  destruct (scan_events_cases o0 evs)
    as [(e & _ & _ & Hcol & _)
       | [(_ & _ & e & _ & _ & Hcol & _) | (_ & _ & Heq)]].
  - rewrite Hcol. cbn. tauto.
  - rewrite Hcol. cbn. tauto.
  - rewrite Heq. apply classify_color_four.
Qed.

Lemma analyzed_capacity (o : Overall) :
  analyzed o ->
  0 <= capacity_factor (current o) /\ capacity_factor (current o) <= 1.
Proof.
  intro H. destruct (analyzed_current o H) as [w ->].
  rewrite classify_normal_form.
  pose proof (estimate_range (wind_speed_ms w)) as [R0 R1].
  destruct (band_of w), (icing_holds w); cbn [capacity_factor];
    split; (assumption || discriminate).
Qed.

Lemma bump_four (c : string) (k : Counts) :
  In c ["green"; "yellow"; "orange"; "red"]%string ->
  exists k', bump c k = Some k' /\ counted k' = S (counted k).
Proof.
  intros [<- | [<- | [<- | [<- | []]]]]; eexists;
    (split; [reflexivity|]); unfold counted; cbn; lia.
Qed.

Lemma find_capacity_nonneg (features : list Feature) (name : string) f :
  Forall (fun f => 0 <= feat_capacity_mw f) features ->
  find (fun f => String.eqb (feat_name f) name) features = Some f ->
  0 <= feat_capacity_mw f.
Proof.
  intros Hall Hf. apply find_some in Hf as [Hin _].
  rewrite Forall_forall in Hall. now apply Hall.
Qed.

Lemma tally_step_inv (features : list Feature) (n : nat) (t : Tally)
  (entry : string * Overall) :
  Forall (fun f => 0 <= feat_capacity_mw f) features ->
  analyzed (snd entry) -> tally_inv n t ->
  exists t', tally_step features (Some t) entry = Some t' /\
             tally_inv (S n) t'.
Proof.
  intros Hcap Han (Hcount & Hout0 & Hout1).
  destruct entry as [name impact]. cbn [snd] in Han.
  destruct (bump_four _ (status_counts t) (analyzed_color impact Han))
    as (k' & Hk' & Hcounted).
  destruct (analyzed_capacity impact Han) as [C0 C1].
  cbn [tally_step]. rewrite Hk'.
  destruct (find _ features) as [f|] eqn:Ef.
  - pose proof (find_capacity_nonneg features name f Hcap Ef) as Hf.
    eexists. split; [reflexivity|].
    unfold tally_inv. cbn [status_counts total_capacity total_output].
    split; [congruence|].
    set (c := feat_capacity_mw f) in *.
    set (cf := capacity_factor (current impact)) in *. clearbody c cf.
    assert (0 <= c * cf) by (apply Qmult_le_0_compat; assumption).
    assert (0 <= c * (1 - cf)) by (apply Qmult_le_0_compat; lra).
    split; nra.
  - eexists. split; [reflexivity|].
    unfold tally_inv. cbn [status_counts total_capacity total_output].
    split; [congruence | split; assumption].
Qed.

Lemma tally_fold_inv (features : list Feature)
  (results : list (string * Overall)) :
  Forall (fun f => 0 <= feat_capacity_mw f) features ->
  Forall (fun entry => analyzed (snd entry)) results ->
  forall n t, tally_inv n t ->
    exists t', fold_left (tally_step features) results (Some t) = Some t' /\
               tally_inv (n + List.length results) t'.
Proof.
  intros Hcap. induction 1 as [| entry results Han Hall IH]; intros n t Hinv.
  - exists t. cbn. rewrite Nat.add_0_r. now split.
  - destruct (tally_step_inv features n t entry Hcap Han Hinv)
      as (t1 & Ht1 & Hinv1).
    cbn [fold_left]. rewrite Ht1.
    destruct (IH (S n) t1 Hinv1) as (t' & Ht' & Hinv').
    exists t'. split; [exact Ht'|].
    cbn [List.length]. now rewrite Nat.add_succ_r.
Qed.

(** X26.  When every entry of impact_results is an overall status
    produced by the analyzer, the counting loop of the fleet summary
    never meets a colour outside its four keys (no KeyError), and the
    marker colour of every entry is found in IMPACT_COLORS.  When the
    summary is printed, the four counts add up to the number of entries
    and, capacities being non-negative, the output lies between 0 and
    the total capacity, so the percentage lies between 0 and 100. *)
Theorem fleet_summary_counts (results : list (string * Overall))
  (features : list Feature)
  (Hcap : Forall (fun f => 0 <= feat_capacity_mw f) features)
  (Hall : Forall (fun entry => analyzed (snd entry)) results) :
  fleet_summary results features <> KeyError /\
  (forall entry, In entry results ->
     impact_color (priority_color (snd entry)) <> None) /\
  forall t percent,
    fleet_summary results features = Printed t percent ->
    counted (status_counts t) = List.length results /\
    0 <= total_output t /\ total_output t <= total_capacity t /\
    0 <= percent /\ percent <= 100.
Proof.
  unfold fleet_summary.
  destruct (tally_fold_inv features results Hcap Hall 0
              {| status_counts := mkCounts 0 0 0 0;
                 total_capacity := 0; total_output := 0 |})
    as (t' & Ht' & Hcount & Hout0 & Hout1).
  { unfold tally_inv, counted. cbn. repeat split; discriminate. }
  rewrite Ht'. cbn [Nat.add] in Hcount.
  assert (Hcolor : forall entry, In entry results ->
            impact_color (priority_color (snd entry)) <> None).
  { intros entry Hin. rewrite Forall_forall in Hall.
    pose proof (analyzed_color _ (Hall entry Hin)) as Hc. cbn in Hc.
    destruct Hc as [<- | [<- | [<- | [<- | []]]]]; discriminate. }
  destruct (Qeq_bool (total_capacity t') 0) eqn:E.
  - split; [discriminate|]. split; [exact Hcolor|].
    intros t percent H. discriminate.
  - split; [discriminate|]. split; [exact Hcolor|]. intros t percent H.
    injection H as <- <-.
    split; [exact Hcount|]. split; [exact Hout0|]. split; [exact Hout1|].
    assert (Hpos : 0 < total_capacity t').
    { apply Qeq_bool_neq in E.
      destruct (Qlt_le_dec 0 (total_capacity t')) as [Hlt | Hle];
        [exact Hlt|].
      exfalso. apply E. lra. }
    split.
    + apply Qmult_le_0_compat; [|discriminate].
      apply Qle_shift_div_l; [exact Hpos | lra].
    + assert (H1 : total_output t' / total_capacity t' <= 1)
        by (apply Qle_shift_div_r; [exact Hpos | lra]).
      lra.
Qed.

Lemma fleet_summary_counts_witness :
  fleet_summary
    [("Hornsea"%string,
      get_overall_status (analyze_current_conditions (ok_hour 0)) [])]
    [mkFeature "Hornsea" 1200] <> KeyError.
Proof.
  refine (proj1 (fleet_summary_counts _ _ _ _)).
  - repeat constructor. discriminate.
  - repeat constructor. exists (ok_hour 0), []. reflexivity.
Defined.

Lemma tally_fold_no_match (features : list Feature)
  (results : list (string * Overall)) :
  Forall (fun entry => analyzed (snd entry)) results ->
  (forall entry, In entry results ->
     find (fun f => String.eqb (feat_name f) (fst entry)) features = None) ->
  forall t, exists t',
    fold_left (tally_step features) results (Some t) = Some t' /\
    total_capacity t' = total_capacity t.
Proof.
  induction 1 as [| [name impact] results Han Hall IH]; intros Hnone t.
  - exists t. now split.
  - cbn [snd] in Han.
    destruct (bump_four _ (status_counts t) (analyzed_color impact Han))
      as (k' & Hk' & _).
    cbn [fold_left tally_step]. rewrite Hk'.
    pose proof (Hnone (name, impact) (or_introl eq_refl)) as Hf.
    cbn [fst] in Hf. rewrite Hf.
    destruct (IH (fun e He => Hnone e (or_intror He))
                 {| status_counts := k';
                    total_capacity := total_capacity t;
                    total_output := total_output t |}) as (t' & Ht' & Hc).
    exists t'. split; [exact Ht' | exact Hc].
Qed.

(** X27.  The fleet summary ends in a division by zero whenever no
    analysed farm is found among the wind farm features, in particular
    when impact_results is empty (no farm had both current weather and a
    forecast): the counts are complete by then, but the output
    percentage divides by a total capacity of 0. *)
Theorem fleet_summary_division_by_zero (results : list (string * Overall))
  (features : list Feature)
  (Hall : Forall (fun entry => analyzed (snd entry)) results)
  (Hnone : forall entry, In entry results ->
     find (fun f => String.eqb (feat_name f) (fst entry)) features = None) :
  fleet_summary results features = ZeroDivisionError /\
  fleet_summary [] features = ZeroDivisionError.
Proof.
  split; [|reflexivity].
  unfold fleet_summary.
  destruct (tally_fold_no_match features results Hall Hnone
              {| status_counts := mkCounts 0 0 0 0;
                 total_capacity := 0; total_output := 0 |})
    as (t' & Ht' & Hc).
  rewrite Ht', Hc. reflexivity.
Qed.

Lemma fleet_summary_division_by_zero_witness :
  fleet_summary
    [("Hornsea"%string,
      get_overall_status (analyze_current_conditions (ok_hour 0)) [])]
    [mkFeature "Dogger Bank" 1200] = ZeroDivisionError.
Proof.
  refine (proj1 (fleet_summary_division_by_zero _ _ _ _)).
  - repeat constructor. exists (ok_hour 0), []. reflexivity.
  - intros entry [<- | []]. reflexivity.
Defined.

End ReportExtras.
